(** * Cross-module dead-symbol elimination: module summaries and liveness

    A shallow embedding of
      - lib/Serialization/ModuleSummaryIndexer.cpp (the summary producer),
      - tools/driver/cross_module_opt_main.cpp (root set, worklist liveness,
        liveness trace),
    together with the properties of the summary index that the liveness
    pass relies on. *)

From Stdlib Require Import NArith String Ascii List.
From stdpp Require Import gmap strings list fin_maps fin_sets pretty.

Local Open Scope N_scope.

(** ** GUIDs *)

(** A GUID is a [uint64_t]. *)
Abbreviation GUID := N.

(** Modelled from the spec: [llvm::MD5Hash] is an LLVM support routine that is
    not part of these sources.  It is the MD5 digest of the bytes of the name
    with bytes 0..7 of the digest read as a little-endian 64-bit word. *)
Module MD5.

Definition mask32 : N := 0xFFFFFFFF.
Definition add32 (x y : N) : N := N.land (x + y) mask32.
Definition not32 (x : N) : N := N.lxor x mask32.
Definition rotl32 (x c : N) : N :=
  N.land (N.lor (N.shiftl x c) (N.shiftr x (32 - c))) mask32.

Definition shifts : list N :=
  [7; 12; 17; 22; 7; 12; 17; 22; 7; 12; 17; 22; 7; 12; 17; 22;
   5; 9; 14; 20; 5; 9; 14; 20; 5; 9; 14; 20; 5; 9; 14; 20;
   4; 11; 16; 23; 4; 11; 16; 23; 4; 11; 16; 23; 4; 11; 16; 23;
   6; 10; 15; 21; 6; 10; 15; 21; 6; 10; 15; 21; 6; 10; 15; 21].

Definition sines : list N :=
  [0xd76aa478; 0xe8c7b756; 0x242070db; 0xc1bdceee;
   0xf57c0faf; 0x4787c62a; 0xa8304613; 0xfd469501;
   0x698098d8; 0x8b44f7af; 0xffff5bb1; 0x895cd7be;
   0x6b901122; 0xfd987193; 0xa679438e; 0x49b40821;
   0xf61e2562; 0xc040b340; 0x265e5a51; 0xe9b6c7aa;
   0xd62f105d; 0x02441453; 0xd8a1e681; 0xe7d3fbc8;
   0x21e1cde6; 0xc33707d6; 0xf4d50d87; 0x455a14ed;
   0xa9e3e905; 0xfcefa3f8; 0x676f02d9; 0x8d2a4c8a;
   0xfffa3942; 0x8771f681; 0x6d9d6122; 0xfde5380c;
   0xa4beea44; 0x4bdecfa9; 0xf6bb4b60; 0xbebfbc70;
   0x289b7ec6; 0xeaa127fa; 0xd4ef3085; 0x04881d05;
   0xd9d4d039; 0xe6db99e5; 0x1fa27cf8; 0xc4ac5665;
   0xf4292244; 0x432aff97; 0xab9423a7; 0xfc93a039;
   0x655b59c3; 0x8f0ccc92; 0xffeff47d; 0x85845dd1;
   0x6fa87e4f; 0xfe2ce6e0; 0xa3014314; 0x4e0811a1;
   0xf7537e82; 0xbd3af235; 0x2ad7d2bb; 0xeb86d391].

(** Little-endian encoding of [v] on [n] bytes. *)
Fixpoint le_bytes (n : nat) (v : N) : list N :=
  match n with
  | O => []
  | S n' => N.land v 0xFF :: le_bytes n' (N.shiftr v 8)
  end.

Fixpoint le_word (bs : list N) : N :=
  match bs with
  | [] => 0
  | b :: bs' => b + 256 * le_word bs'
  end.

Definition pad (msg : list N) : list N :=
  let len := length msg in
  let zeros := ((55 + 64 - len mod 64) mod 64)%nat in
  msg ++ [0x80] ++ repeat 0 zeros ++ le_bytes 8 (8 * N.of_nat len).

Fixpoint words (n : nat) (bs : list N) : list N :=
  match n with
  | O => []
  | S n' => le_word (firstn 4 bs) :: words n' (skipn 4 bs)
  end.

Record digest := Digest { dA : N; dB : N; dC : N; dD : N }.

Definition round (M : list N) (st : digest) (i : nat) : digest :=
  let '(Digest A B C D) := st in
  let '(F, g) :=
    if (i <? 16)%nat then
      (N.lor (N.land B C) (N.land (not32 B) D), i)
    else if (i <? 32)%nat then
      (N.lor (N.land D B) (N.land (not32 D) C), ((5 * i + 1) mod 16)%nat)
    else if (i <? 48)%nat then
      (N.lxor (N.lxor B C) D, ((3 * i + 5) mod 16)%nat)
    else
      (N.lxor C (N.lor B (not32 D)), ((7 * i) mod 16)%nat) in
  let F' := add32 (add32 (add32 F A) (nth i sines 0)) (nth g M 0) in
  Digest D (add32 B (rotl32 F' (nth i shifts 0))) B C.

Definition block (st : digest) (bs : list N) : digest :=
  let M := words 16 bs in
  let '(Digest A B C D) := fold_left (round M) (seq 0 64) st in
  Digest (add32 (dA st) A) (add32 (dB st) B)
         (add32 (dC st) C) (add32 (dD st) D).

Fixpoint blocks (n : nat) (st : digest) (bs : list N) : digest :=
  match n with
  | O => st
  | S n' => blocks n' (block st (firstn 64 bs)) (skipn 64 bs)
  end.

Definition init : digest :=
  Digest 0x67452301 0xefcdab89 0x98badcfe 0x10325476.

Definition md5 (msg : list N) : digest :=
  let p := pad msg in
  blocks (length p / 64) init p.

(** [MD5Result::low()]: the first eight digest bytes, little endian. *)
Definition low (d : digest) : N := dA d + 0x100000000 * dB d.

Definition bytes_of_string (s : string) : list N :=
  map N_of_ascii (list_ascii_of_string s).

Definition MD5Hash (Str : string) : N := low (md5 (bytes_of_string Str)).

End MD5.

Definition getGUIDFromUniqueName (Name : string) : GUID := MD5.MD5Hash Name.

(** ** The summary model *)

(** Modelled from the spec: the header swift/Serialization/ModuleSummary.h
    (the classes [FunctionSummary], [VirtualMethodSlot] and
    [ModuleSummaryIndex] with their accessors) is not part of these sources;
    the records and accessors of this section, down to [markUsedType], follow
    section 3 of the specification and the way the two source files use
    them. *)

(** [FunctionSummary::Call::Kind]; the enumerator [kindCount] is the number
    of kinds, not a kind a call can have. *)
Inductive CallKind := Direct | VTable | Witness.

Record Call := mkCall {
  getCallee : GUID;
  callName : string;
  getKind : CallKind;
}.

Record TypeRef := mkTypeRef {
  Guid : GUID;
  typeName : string;
}.

Record FunctionSummary := mkFunctionSummary {
  getGUID : GUID;
  getName : string;
  isLive : bool;
  isPreserved : bool;
  calls : list Call;
  typeRefs : list TypeRef;
}.

Definition setLive (FS : FunctionSummary) (b : bool) : FunctionSummary :=
  mkFunctionSummary (getGUID FS) (getName FS) b (isPreserved FS)
                    (calls FS) (typeRefs FS).

Definition setPreserved (FS : FunctionSummary) (b : bool) : FunctionSummary :=
  mkFunctionSummary (getGUID FS) (getName FS) (isLive FS) b
                    (calls FS) (typeRefs FS).

Definition setDebugName (FS : FunctionSummary) (n : string) : FunctionSummary :=
  mkFunctionSummary (getGUID FS) n (isLive FS) (isPreserved FS)
                    (calls FS) (typeRefs FS).

Definition addCall (FS : FunctionSummary) (c : Call) : FunctionSummary :=
  mkFunctionSummary (getGUID FS) (getName FS) (isLive FS) (isPreserved FS)
                    (calls FS ++ [c]) (typeRefs FS).

(** [std::make_unique<FunctionSummary>(guid)]: a fresh summary is neither
    live nor preserved and has no name, calls or type references. *)
Definition newFunctionSummary (g : GUID) : FunctionSummary :=
  mkFunctionSummary g "" false false [] [].

Inductive SlotKind := SlotWitness | SlotVTable.

Record VFuncSlot := mkSlot {
  slotKind : SlotKind;
  VirtualFuncID : GUID;
}.

Global Instance SlotKind_eq_dec : EqDecision SlotKind.
Proof. solve_decision. Defined.

Global Instance VFuncSlot_eq_dec : EqDecision VFuncSlot.
Proof. solve_decision. Defined.

Global Instance VFuncSlot_countable : Countable VFuncSlot.
Proof.
  refine (inj_countable'
            (λ s, (match slotKind s with SlotWitness => false | SlotVTable => true end,
                   VirtualFuncID s))
            (λ p, mkSlot (if p.1 then SlotVTable else SlotWitness) p.2) _).
  intros [[] g]; reflexivity.
Defined.

(** The implementation sets and the set of used types are kept as lists in
    iteration order; a GUID occurs in them at most once when they are built
    with [addImplementation] and [markUsedType] is guarded by the caller. *)
Record ModuleSummaryIndex := mkIndex {
  moduleName : string;
  functions : gmap GUID FunctionSummary;
  implementations : gmap VFuncSlot (list GUID);
  usedTypes : list GUID;
}.

Definition emptyIndex : ModuleSummaryIndex := mkIndex "" ∅ ∅ [].

Definition setModuleName (idx : ModuleSummaryIndex) (n : string) :=
  mkIndex n (functions idx) (implementations idx) (usedTypes idx).

Definition withFunctions (idx : ModuleSummaryIndex)
    (fs : gmap GUID FunctionSummary) : ModuleSummaryIndex :=
  mkIndex (moduleName idx) fs (implementations idx) (usedTypes idx).

Definition getFunctionSummary (idx : ModuleSummaryIndex) (g : GUID)
  : option FunctionSummary := functions idx !! g.

(** Keys are unique: a second summary for a GUID does not replace the first. *)
Definition addFunctionSummary (idx : ModuleSummaryIndex) (FS : FunctionSummary)
  : ModuleSummaryIndex :=
  match functions idx !! getGUID FS with
  | Some _ => idx
  | None => withFunctions idx (<[getGUID FS := FS]> (functions idx))
  end.

(** An absent slot has no implementations. *)
Definition getImplementations (idx : ModuleSummaryIndex) (slot : VFuncSlot)
  : list GUID := default [] (implementations idx !! slot).

Definition addImplementation (idx : ModuleSummaryIndex) (slot : VFuncSlot)
    (impl : GUID) : ModuleSummaryIndex :=
  let old := getImplementations idx slot in
  let new := if decide (impl ∈ old) then old else old ++ [impl] in
  mkIndex (moduleName idx) (functions idx)
          (<[slot := new]> (implementations idx)) (usedTypes idx).

Definition markUsedType (idx : ModuleSummaryIndex) (g : GUID)
  : ModuleSummaryIndex :=
  mkIndex (moduleName idx) (functions idx) (implementations idx)
          (usedTypes idx ++ [g]).

(** Fatal exits of the two tools: [llvm_unreachable] and failed [assert]s. *)
Inductive Fatal :=
| BadGUID                 (* markDeadSymbols: "Bad GUID" *)
| SlotForStaticCall       (* createVFuncSlot: "Can't get slot for static call" *)
| NullCallee              (* indexInstruction: assert(callee) / assert(F) *)
| KeyPathBadContext       (* "key path keyed by a non-class, non-protocol method" *)
| MissingSummary.         (* ensurePreserved: assert(FS) *)

(** A small error monad for the code paths that can abort. *)
Definition M (A : Type) : Type := Fatal + A.
Definition ret {A} (a : A) : M A := inr a.
Definition abort {A} (e : Fatal) : M A := inl e.
Definition bind {A B} (m : M A) (k : A → M B) : M B :=
  match m with
  | inl e => inl e
  | inr a => k a
  end.

Notation "x <- m ;; k" := (bind m (λ x, k))
  (at level 100, m at next level, right associativity).

(** A [for] loop whose body can abort. *)
Fixpoint forM {A S} (body : S → A → M S) (l : list A) (s : S) : M S :=
  match l with
  | [] => ret s
  | a :: l' => s' <- body s a ;; forM body l' s'
  end.

(** ** The liveness engine (tools/driver/cross_module_opt_main.cpp) *)

(** [computePreservedGUIDs]: the GUID of "main" and the key of every
    preserved summary. *)
Definition computePreservedGUIDs (summary : ModuleSummaryIndex) : gset GUID :=
  map_fold (λ (g : GUID) (FS : FunctionSummary) (Set_ : gset GUID),
              if isPreserved FS then {[g]} ∪ Set_ else Set_)
           {[getGUIDFromUniqueName "main"]}
           (functions summary).

Inductive ReasonTy := Preserved | StaticReferenced | IndirectReferenced.

(** A trace node.  In the source a node is shared between its children and
    renamed in place by [setName]; the rename happens when the node is popped,
    once, and before any child of it is created, so a child that holds the
    renamed node holds what the shared pointer would show. *)
#[warnings="-register-all"]
Inductive LivenessTrace :=
  mkTrace (markedBy : option LivenessTrace) (symbol : string)
          (guid : GUID) (reason : ReasonTy).

Definition markedBy (t : LivenessTrace) : option LivenessTrace :=
  let '(mkTrace p _ _ _) := t in p.
Definition symbol (t : LivenessTrace) : string :=
  let '(mkTrace _ s _ _) := t in s.
Definition guid (t : LivenessTrace) : GUID :=
  let '(mkTrace _ _ g _) := t in g.
Definition reason (t : LivenessTrace) : ReasonTy :=
  let '(mkTrace _ _ _ r) := t in r.

(** The constructor leaves [symbol] empty. *)
Definition newTrace (p : option LivenessTrace) (g : GUID) (r : ReasonTy) :=
  mkTrace p "" g r.

Definition setName (t : LivenessTrace) (name : string) : LivenessTrace :=
  mkTrace (markedBy t) name (guid t) (reason t).

Definition empty (s : string) : bool :=
  match s with EmptyString => true | _ => false end.

(** [os << guid] prints the 64-bit value in decimal. *)
Definition show_guid (g : GUID) : string := pretty g.

(** The [while (target)] loop of [dump], one line per ancestor. *)
Fixpoint dump_chain (target : LivenessTrace) : string :=
  let '(mkTrace p s g _) := target in
  " - " +:+ (if empty s then "**missing name**" else s)
        +:+ " (" +:+ show_guid g +:+ ")" +:+ "
" +:+ match p with
      | None => ""
      | Some target' => dump_chain target'
      end.

Definition dump_parents (target : option LivenessTrace) : string :=
  match target with
  | None => ""
  | Some t => dump_chain t
  end.

Definition dump (t : LivenessTrace) : string :=
  (if empty (symbol t) then
     "**missing name**" +:+ " (" +:+ show_guid (guid t) +:+ ")"
   else symbol t)
  +:+ "is referenced by:
" +:+ dump_parents (markedBy t).

Definition createVFuncSlot (call : Call) : M VFuncSlot :=
  match getKind call with
  | Witness => ret (mkSlot SlotWitness (getCallee call))
  | VTable => ret (mkSlot SlotVTable (getCallee call))
  | Direct => abort SlotForStaticCall
  end.

Record LoopState := mkLoop {
  (* the SmallVector, back of the vector first *)
  Worklist : list LivenessTrace;
  UseMarkedTypes : gset GUID;
  (* an [unsigned] *)
  LiveSymbols : N;
  dumpTarget : option LivenessTrace;
  summary : ModuleSummaryIndex;
}.

Definition wrap32 (n : N) : N := n mod 2 ^ 32.

(** One iteration of [for (auto typeRef : FS->typeRefs())]. *)
Definition markType (acc : gset GUID * ModuleSummaryIndex) (typeRef : TypeRef)
  : gset GUID * ModuleSummaryIndex :=
  if decide (Guid typeRef ∈ acc.1) then acc
  else ({[Guid typeRef]} ∪ acc.1, markUsedType acc.2 (Guid typeRef)).

(** One iteration of [for (auto Call : FS->calls())]. *)
Definition pushCall (idx : ModuleSummaryIndex) (trace : LivenessTrace)
    (wl : list LivenessTrace) (call : Call) : M (list LivenessTrace) :=
  match getKind call with
  | Direct =>
      ret (newTrace (Some trace) (getCallee call) StaticReferenced :: wl)
  | Witness | VTable =>
      slot <- createVFuncSlot call ;;
      ret (fold_left
             (λ wl Impl, newTrace (Some trace) Impl IndirectReferenced :: wl)
             (getImplementations idx slot) wl)
  end.

Section Liveness.

(** The command-line option [-lto-print-live-trace]. *)
Variable LTOPrintLiveTrace : string.

(** One iteration of [while (!Worklist.empty())]; [None] leaves the loop. *)
Definition step (st : LoopState) : M (option LoopState) :=
  match Worklist st with
  | [] => ret None
  | trace0 :: wl =>
      match getFunctionSummary (summary st) (guid trace0) with
      | None => abort BadGUID
      | Some fs =>
          let named := negb (empty (getName fs)) in
          let trace := if named then setName trace0 (getName fs) else trace0 in
          let target :=
            if named && bool_decide (LTOPrintLiveTrace = getName fs)
            then Some trace else dumpTarget st in
          if isLive fs then
            ret (Some (mkLoop wl (UseMarkedTypes st) (LiveSymbols st)
                              target (summary st)))
          else
            let s1 := withFunctions (summary st)
                        (<[guid trace0 := setLive fs true]>
                           (functions (summary st))) in
            let '(marked, s2) :=
              fold_left markType (typeRefs fs) (UseMarkedTypes st, s1) in
            wl' <- forM (pushCall s2 trace) (calls fs) wl ;;
            ret (Some (mkLoop wl' marked (wrap32 (LiveSymbols st + 1))
                              target s2))
      end
  end.

Inductive Outcome :=
| Completed (st : LoopState)
| Aborted (e : Fatal)
| OutOfFuel.

Fixpoint run (fuel : nat) (st : LoopState) : Outcome :=
  match fuel with
  | O => OutOfFuel
  | S fuel' =>
      match step st with
      | inl e => Aborted e
      | inr None => Completed st
      | inr (Some st') => run fuel' st'
      end
  end.

(** The worklist entries one call contributes. *)
Definition targets (idx : ModuleSummaryIndex) (call : Call) : list GUID :=
  match getKind call with
  | Direct => [getCallee call]
  | Witness => getImplementations idx (mkSlot SlotWitness (getCallee call))
  | VTable => getImplementations idx (mkSlot SlotVTable (getCallee call))
  end.

Definition succs (idx : ModuleSummaryIndex) (FS : FunctionSummary)
  : list GUID := calls FS ≫= targets idx.

(** Pushes still owed by a summary: none once it is live. *)
Definition owed (idx : ModuleSummaryIndex) (FS : FunctionSummary) : nat :=
  if isLive FS then O else length (succs idx FS).

Definition potential (idx : ModuleSummaryIndex) : nat :=
  map_fold (λ (_ : GUID) FS acc, (owed idx FS + acc)%nat) O (functions idx).

Definition initialState (idx : ModuleSummaryIndex) (PreservedGUIDs : list GUID)
  : LoopState :=
  mkLoop (fold_left (λ wl g, newTrace None g Preserved :: wl)
                    PreservedGUIDs [])
         ∅ 0 None idx.

(** [markDeadSymbols]: [PreservedGUIDs] is the root set in the order the
    [DenseSet] iterates it.  Every iteration either pops an entry of a live
    function or pays off the pushes owed by the function it marks, so the
    loop is run for one more step than the entries that can ever exist. *)
Definition markDeadSymbols (idx : ModuleSummaryIndex)
    (PreservedGUIDs : list GUID) : Outcome :=
  run (S (length PreservedGUIDs + potential idx))
      (initialState idx PreservedGUIDs).

(** What [markDeadSymbols] writes to [llvm::errs()]. *)
Definition traceOutput (st : LoopState) : string :=
  match dumpTarget st with
  | Some t => dump t
  | None => ""
  end.

End Liveness.

(** What an iteration that stays in the loop does. *)
Inductive popped (st st' : LoopState) : Prop :=
| popped_live t wl fs :
    Worklist st = t :: wl →
    functions (summary st) !! guid t = Some fs →
    isLive fs = true →
    Worklist st' = wl →
    summary st' = summary st →
    LiveSymbols st' = LiveSymbols st →
    UseMarkedTypes st' = UseMarkedTypes st →
    popped st st'
| popped_dead t wl fs new added :
    Worklist st = t :: wl →
    functions (summary st) !! guid t = Some fs →
    isLive fs = false →
    Worklist st' = new ++ wl →
    map guid new = reverse (succs (summary st) fs) →
    summary st' =
      mkIndex (moduleName (summary st))
              (<[guid t := setLive fs true]> (functions (summary st)))
              (implementations (summary st))
              (usedTypes (summary st) ++ added) →
    NoDup added →
    (∀ x, x ∈ added → x ∉ UseMarkedTypes st) →
    UseMarkedTypes st' = UseMarkedTypes st ∪ list_to_set added →
    LiveSymbols st' = wrap32 (LiveSymbols st + 1) →
    popped st st'.

(** The measure that every iteration decreases. *)
Definition measure (st : LoopState) : nat :=
  (length (Worklist st) + potential (summary st))%nat.

(** ** What the worklist visits *)

(** The GUIDs that are ever put on the worklist: the roots, and the targets
    of every call of a function that the run marks (one that is on the
    worklist, has a summary and was not live before). *)
Inductive pushed (idx : ModuleSummaryIndex) (roots : list GUID) : GUID → Prop :=
| pushed_root g :
    g ∈ roots → pushed idx roots g
| pushed_call g fs g' :
    pushed idx roots g →
    functions idx !! g = Some fs →
    isLive fs = false →
    g' ∈ succs idx fs →
    pushed idx roots g'.

Definition liveIn (idx : ModuleSummaryIndex) (g : GUID) : Prop :=
  ∃ fs, functions idx !! g = Some fs ∧ isLive fs = true.

Definition markIn (L : gset GUID) (g : GUID) (fs : FunctionSummary)
  : FunctionSummary := if decide (g ∈ L) then setLive fs true else fs.

Section LoopInvariant.

Variable idx0 : ModuleSummaryIndex.
Variable roots : list GUID.

(** The loop invariant; [L] is the set of GUIDs marked so far. *)
Record Inv (st : LoopState) (L : gset GUID) : Prop := {
  inv_module : moduleName (summary st) = moduleName idx0;
  inv_impls : implementations (summary st) = implementations idx0;
  inv_funs : ∀ g,
    functions (summary st) !! g = markIn L g <$> functions idx0 !! g;
  inv_marked : ∀ g, g ∈ L →
    ∃ fs, functions idx0 !! g = Some fs ∧ isLive fs = false
          ∧ pushed idx0 roots g;
  inv_worklist : ∀ t, t ∈ Worklist st → pushed idx0 roots (guid t);
  inv_roots : ∀ g, g ∈ roots →
    g ∈ map guid (Worklist st) ∨ liveIn (summary st) g;
  inv_closed : ∀ g fs g',
    g ∈ L → functions idx0 !! g = Some fs → g' ∈ succs idx0 fs →
    g' ∈ map guid (Worklist st) ∨ liveIn (summary st) g';
  inv_count : LiveSymbols st = wrap32 (N.of_nat (size L));
  inv_types : ∃ added,
    usedTypes (summary st) = usedTypes idx0 ++ added
    ∧ NoDup added ∧ ∀ x, x ∈ added ↔ x ∈ UseMarkedTypes st;
}.

End LoopInvariant.

(** ** Call-graph reachability *)

(** One edge of the call graph: a [Direct] call steps to its callee, a
    [Witness] or [VTable] call to each implementation of its slot. *)
Definition edge (idx : ModuleSummaryIndex) (g g' : GUID) : Prop :=
  ∃ fs call, functions idx !! g = Some fs ∧ call ∈ calls fs
             ∧ g' ∈ targets idx call.

Definition reachable (idx : ModuleSummaryIndex) (roots : list GUID) (g : GUID)
  : Prop := ∃ r, r ∈ roots ∧ rtc (edge idx) r g.

(** The GUIDs whose summary is live. *)
Definition liveGUIDs (idx : ModuleSummaryIndex) : gset GUID :=
  dom (filter (λ p : GUID * FunctionSummary, isLive p.2 = true) (functions idx)).

(** ** Relations between two states of the loop *)

(** One iteration of the loop that stays in the loop. *)
Definition steps_to (tr : string) (st st' : LoopState) : Prop :=
  step tr st = inr (Some st').

(** The GUIDs whose flag is false in [m] and true in [m']. *)
Definition newlyLive (m m' : gmap GUID FunctionSummary) : gset GUID :=
  filter (λ g, (isLive <$> m !! g) = Some false
               ∧ (isLive <$> m' !! g) = Some true) (dom m).

(** Flags only go from false to true, and nothing else changes. *)
Definition flagsGrown (m m' : gmap GUID FunctionSummary) : Prop :=
  ∀ g, match m !! g with
       | None => m' !! g = None
       | Some fs => m' !! g = Some fs
                    ∨ (isLive fs = false ∧ m' !! g = Some (setLive fs true))
       end.

(** ** Verdicts *)

(** What a run decides: the set of live GUIDs, or the fatal exit it took. *)
Definition verdict (o : Outcome) : option (M (gset GUID)) :=
  match o with
  | Completed st => Some (inr (liveGUIDs (summary st)))
  | Aborted e => Some (inl e)
  | OutOfFuel => None
  end.

(** Two indices with the same summaries whose implementation sets have the
    same members, whatever order they are iterated in. *)
Definition sameIndex (idx idx' : ModuleSummaryIndex) : Prop :=
  functions idx' = functions idx
  ∧ ∀ slot g, g ∈ getImplementations idx slot
              ↔ g ∈ getImplementations idx' slot.

(** ** The producer's input *)

(** Modelled from the spec: the SIL classes ([SILModule], [SILFunction],
    [SILInstruction], [SILDeclRef], [SILWitnessTable], [SILVTable],
    [SILProperty], [KeyPathPatternComponent]) are declared outside these
    sources.  Only what the indexer reads from them is kept; a module is
    identified by its name and a [SILFunction*] by the function's name. *)
Module SIL.

Abbreviation ModuleDecl := string.

Inductive SILFunctionTypeRepresentation :=
| Thick | Block | Thin | CFunctionPointer | Method | ObjCMethod
| WitnessMethod | Closure.

(** [SILDeclRef::Kind]. *)
Inductive Kind :=
| Func | Allocator | Initializer | EnumElement | Destroyer | Deallocator
| GlobalAccessor | DefaultArgGenerator | StoredPropertyInitializer
| PropertyWrapperBackingInitializer | IVarInitializer | IVarDestroyer.

(** What [decl->getDeclContext()] is. *)
Inductive DeclContext := ClassDecl | ProtocolDecl | OtherDecl.

Record SILDeclRef := mkDeclRef {
  kind : Kind;
  mangle : string;
  getDeclContext : DeclContext;
  getModuleContext : ModuleDecl;
}.

(** What [visitReferencedFunctionsAndMethods] visits. *)
Inductive KeyPathRef :=
| RefFunction (F : string)
| RefMethod (method : SILDeclRef).

Record KeyPathPatternComponent := mkComponent {
  referenced : list KeyPathRef;
}.

Inductive SILInstruction :=
| FunctionRefInst (getReferencedFunctionOrNull : option string)
| WitnessMethodInst (getMember : SILDeclRef)
| MethodInst (getMember : SILDeclRef)
| KeyPathInst (getComponents : list KeyPathPatternComponent)
| OtherInst.

Record SILFunction := mkFunction {
  getName : string;
  getRepresentation : SILFunctionTypeRepresentation;
  hasCReferences : bool;
  blocks : list (list SILInstruction);
}.

Record SILProperty := mkProperty {
  getComponent : option KeyPathPatternComponent;
}.

Inductive WitnessEntry :=
| Invalid
| MethodWitness (Requirement : SILDeclRef) (Witness : option string)
| AssociatedType
| AssociatedTypeProtocol
| BaseProtocol.

Record SILWitnessTable := mkWitnessTable {
  wtParentModule : ModuleDecl;        (* getDeclContext()->getParentModule() *)
  protocolParentModule : ModuleDecl;  (* getProtocol()->getParentModule() *)
  wtEntries : list WitnessEntry;
}.

Inductive VTableEntryKind := Normal | NormalNonOverridden | Inherited | Override.

Record SILVTableEntry := mkVTableEntry {
  getMethod : SILDeclRef;
  getImplementation : string;
  getKind : VTableEntryKind;
}.

Record SILVTable := mkVTable {
  vtEntries : list SILVTableEntry;
}.

Record SILModule := mkModule {
  getSwiftModule : ModuleDecl;
  getFunctions : list SILFunction;
  getPropertyList : list SILProperty;
  getWitnessTableList : list SILWitnessTable;
  getVTables : list SILVTable;
}.

Global Instance Kind_eq_dec : EqDecision Kind.
Proof. solve_decision. Defined.

Global Instance Representation_eq_dec :
  EqDecision SILFunctionTypeRepresentation.
Proof. solve_decision. Defined.

Global Instance VTableEntryKind_eq_dec : EqDecision VTableEntryKind.
Proof. solve_decision. Defined.

End SIL.

(** ** The indexer (lib/Serialization/ModuleSummaryIndexer.cpp) *)

(** [VirtualMethodSlot(Ref, Kind)]: the slot of a declaration is keyed by the
    GUID of its mangled name. *)
Definition VirtualMethodSlot (Ref : SIL.SILDeclRef) (Kind : SlotKind)
  : VFuncSlot := mkSlot Kind (getGUIDFromUniqueName (SIL.mangle Ref)).

Definition indexDirectFunctionCall (TheSummary : FunctionSummary)
    (Callee : string) : FunctionSummary :=
  let guid := getGUIDFromUniqueName Callee in
  addCall TheSummary (mkCall guid Callee Direct).

Definition indexIndirectFunctionCall (TheSummary : FunctionSummary)
    (Callee : SIL.SILDeclRef) (Kind : CallKind) : FunctionSummary :=
  let mangledName := SIL.mangle Callee in
  let guid := getGUIDFromUniqueName mangledName in
  addCall TheSummary (mkCall guid mangledName Kind).

(** The two visitors of a key-path component inside [indexInstruction]. *)
Definition indexKeyPathRef (TheSummary : FunctionSummary) (r : SIL.KeyPathRef)
  : M FunctionSummary :=
  match r with
  | SIL.RefFunction F => ret (indexDirectFunctionCall TheSummary F)
  | SIL.RefMethod method =>
      match SIL.getDeclContext method with
      | SIL.ClassDecl => ret (indexIndirectFunctionCall TheSummary method VTable)
      | SIL.ProtocolDecl =>
          ret (indexIndirectFunctionCall TheSummary method Witness)
      | SIL.OtherDecl => abort KeyPathBadContext
      end
  end.

Definition indexInstruction (TheSummary : FunctionSummary)
    (I : SIL.SILInstruction) : M FunctionSummary :=
  match I with
  | SIL.FunctionRefInst callee =>
      match callee with
      | None => abort NullCallee
      | Some callee => ret (indexDirectFunctionCall TheSummary callee)
      end
  | SIL.WitnessMethodInst member =>
      ret (indexIndirectFunctionCall TheSummary member Witness)
  | SIL.MethodInst member =>
      ret (indexIndirectFunctionCall TheSummary member VTable)
  | SIL.KeyPathInst components =>
      forM (λ s component, forM indexKeyPathRef (SIL.referenced component) s)
           components TheSummary
  | SIL.OtherInst => ret TheSummary
  end.

Definition shouldPreserveFunction (F : SIL.SILFunction) : bool :=
  if decide (SIL.getRepresentation F = SIL.ObjCMethod) then true
  else if SIL.hasCReferences F then true
  else false.

Definition indexFunction (F : SIL.SILFunction) : M FunctionSummary :=
  let guid := getGUIDFromUniqueName (SIL.getName F) in
  let TheSummary := newFunctionSummary guid in
  let TheSummary := setDebugName TheSummary (SIL.getName F) in
  TheSummary <- forM (λ s BB, forM indexInstruction BB s)
                     (SIL.blocks F) TheSummary ;;
  ret (setPreserved TheSummary (shouldPreserveFunction F)).

(** [ensurePreserved(const SILFunction &)]. *)
Definition ensurePreserved (TheSummary : ModuleSummaryIndex) (F : string)
  : M ModuleSummaryIndex :=
  let guid := getGUIDFromUniqueName F in
  match getFunctionSummary TheSummary guid with
  | None => abort MissingSummary
  | Some fs =>
      ret (withFunctions TheSummary
             (<[guid := setPreserved fs true]> (functions TheSummary)))
  end.

Definition preserveImpl (TheSummary : ModuleSummaryIndex) (Impl : GUID)
  : M ModuleSummaryIndex :=
  match getFunctionSummary TheSummary Impl with
  | None => abort MissingSummary
  | Some fs =>
      ret (withFunctions TheSummary
             (<[Impl := setPreserved fs true]> (functions TheSummary)))
  end.

(** [ensurePreserved(const SILDeclRef &, VirtualMethodSlot::KindTy)]; the
    implementations are read once, before the loop. *)
Definition ensurePreservedRef (TheSummary : ModuleSummaryIndex)
    (Ref : SIL.SILDeclRef) (Kind : SlotKind) : M ModuleSummaryIndex :=
  let slot := VirtualMethodSlot Ref Kind in
  let Impls := getImplementations TheSummary slot in
  match Impls with
  | [] => ret TheSummary
  | _ => forM preserveImpl Impls TheSummary
  end.

Definition preserveKeyPathRef (TheSummary : ModuleSummaryIndex)
    (r : SIL.KeyPathRef) : M ModuleSummaryIndex :=
  match r with
  | SIL.RefFunction F => ensurePreserved TheSummary F
  | SIL.RefMethod method =>
      match SIL.getDeclContext method with
      | SIL.ClassDecl => ensurePreservedRef TheSummary method SlotVTable
      | SIL.ProtocolDecl => ensurePreservedRef TheSummary method SlotWitness
      | SIL.OtherDecl => abort KeyPathBadContext
      end
  end.

Definition preserveKeyPathFunctions (TheSummary : ModuleSummaryIndex)
    (P : SIL.SILProperty) : M ModuleSummaryIndex :=
  match SIL.getComponent P with
  | None => ret TheSummary
  | Some component =>
      forM preserveKeyPathRef (SIL.referenced component) TheSummary
  end.

Section Indexer.

Variable Mod : SIL.SILModule.

Definition indexWitnessEntry (isPossibllyUsedExternally : bool)
    (TheSummary : ModuleSummaryIndex) (entry : SIL.WitnessEntry)
  : M ModuleSummaryIndex :=
  match entry with
  | SIL.MethodWitness Requirement (Some witness) =>
      let slot := VirtualMethodSlot Requirement SlotWitness in
      let TheSummary :=
        addImplementation TheSummary slot (getGUIDFromUniqueName witness) in
      if isPossibllyUsedExternally then ensurePreserved TheSummary witness
      else ret TheSummary
  | _ => ret TheSummary
  end.

Definition indexWitnessTable (TheSummary : ModuleSummaryIndex)
    (WT : SIL.SILWitnessTable) : M ModuleSummaryIndex :=
  let isPossibllyUsedExternally :=
    negb (bool_decide (SIL.wtParentModule WT = SIL.getSwiftModule Mod))
    || negb (bool_decide (SIL.protocolParentModule WT = SIL.getSwiftModule Mod)) in
  forM (indexWitnessEntry isPossibllyUsedExternally)
       (SIL.wtEntries WT) TheSummary.

Definition isRuntimeCalled (entry : SIL.SILVTableEntry) : bool :=
  bool_decide (SIL.kind (SIL.getMethod entry) = SIL.Deallocator)
  || bool_decide (SIL.kind (SIL.getMethod entry) = SIL.IVarDestroyer).

Definition isExternalOverride (entry : SIL.SILVTableEntry) : bool :=
  let methodModule := SIL.getModuleContext (SIL.getMethod entry) in
  let isExternalMethod :=
    negb (bool_decide (methodModule = SIL.getSwiftModule Mod)) in
  bool_decide (SIL.getKind entry = SIL.Override) && isExternalMethod.

Definition indexVTableEntry (TheSummary : ModuleSummaryIndex)
    (entry : SIL.SILVTableEntry) : M ModuleSummaryIndex :=
  let Impl := SIL.getImplementation entry in
  TheSummary <- (if isRuntimeCalled entry
                 then ensurePreserved TheSummary Impl
                 else ret TheSummary) ;;
  TheSummary <- (if isExternalOverride entry
                 then ensurePreserved TheSummary Impl
                 else ret TheSummary) ;;
  let slot := VirtualMethodSlot (SIL.getMethod entry) SlotVTable in
  ret (addImplementation TheSummary slot (getGUIDFromUniqueName Impl)).

Definition indexVTable (TheSummary : ModuleSummaryIndex)
    (VT : SIL.SILVTable) : M ModuleSummaryIndex :=
  forM indexVTableEntry (SIL.vtEntries VT) TheSummary.

(** [ModuleSummaryIndexer::indexModule]. *)
Definition indexModule : M ModuleSummaryIndex :=
  let TheSummary := setModuleName emptyIndex (SIL.getSwiftModule Mod) in
  TheSummary <- forM (λ TheSummary F,
                        fs <- indexFunction F ;;
                        let fs := setPreserved fs (shouldPreserveFunction F) in
                        ret (addFunctionSummary TheSummary fs))
                     (SIL.getFunctions Mod) TheSummary ;;
  TheSummary <- forM preserveKeyPathFunctions
                     (SIL.getPropertyList Mod) TheSummary ;;
  TheSummary <- forM indexWitnessTable
                     (SIL.getWitnessTableList Mod) TheSummary ;;
  forM indexVTable (SIL.getVTables Mod) TheSummary.

(** The variant the specification describes: the preserved flag is written
    once, by [indexFunction], and [indexModule] does not write it again. *)
Definition indexModule_single_write : M ModuleSummaryIndex :=
  let TheSummary := setModuleName emptyIndex (SIL.getSwiftModule Mod) in
  TheSummary <- forM (λ TheSummary F,
                        fs <- indexFunction F ;;
                        ret (addFunctionSummary TheSummary fs))
                     (SIL.getFunctions Mod) TheSummary ;;
  TheSummary <- forM preserveKeyPathFunctions
                     (SIL.getPropertyList Mod) TheSummary ;;
  TheSummary <- forM indexWitnessTable
                     (SIL.getWitnessTableList Mod) TheSummary ;;
  forM indexVTable (SIL.getVTables Mod) TheSummary.

End Indexer.

(** ** What the table passes add to an index *)

Definition preservedIn (idx : ModuleSummaryIndex) (g : GUID) : Prop :=
  ∃ fs, functions idx !! g = Some fs ∧ isPreserved fs = true.

(** Nothing is taken away: implementations stay registered, summaries stay
    present, preserved summaries stay preserved. *)
Definition extends (idx idx' : ModuleSummaryIndex) : Prop :=
  (∀ slot g, g ∈ getImplementations idx slot → g ∈ getImplementations idx' slot)
  ∧ (∀ g, is_Some (functions idx !! g) → is_Some (functions idx' !! g))
  ∧ (∀ g, preservedIn idx g → preservedIn idx' g).

Definition implGUID (entry : SIL.SILVTableEntry) : GUID :=
  getGUIDFromUniqueName (SIL.getImplementation entry).

(** ** Small indices used to run the engine *)

Module Examples.

Definition G : string → GUID := getGUIDFromUniqueName.

Definition fn (name : string) (cs : list Call) (live preserved : bool)
  : FunctionSummary := mkFunctionSummary (G name) name live preserved cs [].

Definition direct (name : string) : Call := mkCall (G name) name Direct.

(** [main] calls [f] directly; no summary defines [f]. *)
Definition external_callee : ModuleSummaryIndex :=
  mkIndex "combined" {[ G "main" := fn "main" [direct "f"] false false ]} ∅ [].

(** [f] is preserved, nothing defines [main]. *)
Definition no_main : ModuleSummaryIndex :=
  mkIndex "combined" {[ G "f" := fn "f" [] false true ]} ∅ [].

(** An index read back from an annotated summary file: [f] is already
    marked live, and nothing refers to it. *)
Definition already_live : ModuleSummaryIndex :=
  mkIndex "combined"
          (<[ G "f" := fn "f" [] true false ]>
             {[ G "main" := fn "main" [] false false ]}) ∅ [].

(** [main] calls [f1] calls [f2] calls [f3]; [f1] uses two types. *)
Definition chain : ModuleSummaryIndex :=
  mkIndex "combined"
    (list_to_map
       [(G "main", fn "main" [direct "f1"] false false);
        (G "f1", mkFunctionSummary (G "f1") "f1" false false [direct "f2"]
                   [mkTypeRef 7 "T"; mkTypeRef 7 "T"; mkTypeRef 9 "U"]);
        (G "f2", fn "f2" [direct "f3"] false false);
        (G "f3", fn "f3" [] false false);
        (G "g", fn "g" [] false false)])
    ∅ [].

(** The state [markDeadSymbols] leaves, for the runs that complete. *)
Definition final (o : Outcome) : LoopState :=
  match o with
  | Completed st => st
  | _ => initialState emptyIndex []
  end.

End Examples.

Module DispatchExample.
Import Examples.

(** [main] calls the requirement [P.m] through a witness table with two
    conformances; [keep] is preserved. *)
Definition dispatch (impls : list GUID) : ModuleSummaryIndex :=
  mkIndex "combined"
    (list_to_map
       [(G "main", fn "main" [mkCall (G "P.m") "P.m" Witness] false false);
        (G "A.m", fn "A.m" [] false false);
        (G "B.m", fn "B.m" [] false false);
        (G "keep", fn "keep" [] false true)])
    {[ mkSlot SlotWitness (G "P.m") := impls ]} [].

End DispatchExample.

Module IndexerExample.
Import Examples.

(** Methods: [C.m] is declared in module M1; [D.deinit] and [E.n] in M2. *)
Definition C_m : SIL.SILDeclRef := SIL.mkDeclRef SIL.Func "C.m" SIL.ClassDecl "M1".
Definition D_deinit : SIL.SILDeclRef :=
  SIL.mkDeclRef SIL.Deallocator "D.deinit" SIL.ClassDecl "M2".
Definition E_n : SIL.SILDeclRef := SIL.mkDeclRef SIL.Func "E.n" SIL.ClassDecl "M2".

Definition plain (name : string) (body : list SIL.SILInstruction)
  : SIL.SILFunction := SIL.mkFunction name SIL.Thin false [body].

Definition vtable : SIL.SILVTable :=
  SIL.mkVTable
    [SIL.mkVTableEntry C_m "D.m.impl" SIL.Override;
     SIL.mkVTableEntry D_deinit "D.deinit.impl" SIL.Normal;
     SIL.mkVTableEntry E_n "E.n.impl" SIL.Normal].

(** Module M2: a key-path property names the function [getter] and the
    class method [E.n], whose only implementation is [E.n.impl]. *)
Definition M2 : SIL.SILModule :=
  SIL.mkModule "M2"
    [plain "main" [SIL.FunctionRefInst (Some "getter"); SIL.MethodInst E_n];
     plain "getter" [];
     plain "D.m.impl" [];
     plain "D.deinit.impl" [];
     plain "E.n.impl" [];
     SIL.mkFunction "objc" SIL.ObjCMethod false []]
    [SIL.mkProperty
       (Some (SIL.mkComponent [SIL.RefFunction "getter"; SIL.RefMethod E_n]))]
    []
    [vtable].

Definition result (r : M ModuleSummaryIndex) : ModuleSummaryIndex :=
  match r with
  | inr idx => idx
  | inl _ => emptyIndex
  end.

End IndexerExample.

(** ** Liveness traces *)

(** The reason recorded for an entry pushed for [call]. *)
Definition reasonFor (call : Call) : ReasonTy :=
  match getKind call with
  | Direct => StaticReferenced
  | Witness | VTable => IndirectReferenced
  end.

(** A trace that tells a true story: it starts at a root, marked [Preserved],
    and every further node was pushed for a call of its parent's summary,
    whose name the parent carries. *)
Inductive validTrace (idx : ModuleSummaryIndex) (roots : list GUID)
  : LivenessTrace → Prop :=
| valid_root g s :
    g ∈ roots → validTrace idx roots (mkTrace None s g Preserved)
| valid_child p s g call fs :
    validTrace idx roots p →
    functions idx !! guid p = Some fs →
    symbol p = getName fs →
    call ∈ calls fs →
    g ∈ targets idx call →
    validTrace idx roots (mkTrace (Some p) s g (reasonFor call)).

(** The functions that a run from [idx] has marked when it is in [st]. *)
Definition markedIn (idx : ModuleSummaryIndex) (st : LoopState)
    (g : GUID) (fs : FunctionSummary) : Prop :=
  functions idx !! g = Some fs ∧ isLive fs = false ∧ liveIn (summary st) g.

(** What the loop keeps true of its traces and of the types it has seen. *)
Record TraceInv (tr : string) (idx : ModuleSummaryIndex) (roots : list GUID)
    (st : LoopState) : Prop := {
  tinv_worklist : ∀ t, t ∈ Worklist st →
    validTrace idx roots t ∧ symbol t = "";
  tinv_target : ∀ t, dumpTarget st = Some t →
    validTrace idx roots t ∧ symbol t = tr ∧ tr ≠ ""
    ∧ ∃ fs, functions idx !! guid t = Some fs ∧ getName fs = tr;
  tinv_target_live : ∀ t, dumpTarget st = Some t →
    liveIn (summary st) (guid t);
  tinv_types : ∀ x, x ∈ UseMarkedTypes st ↔
    ∃ g fs typeRef, markedIn idx st g fs
                    ∧ typeRef ∈ typeRefs fs ∧ Guid typeRef = x;
  tinv_found : ∀ g fs, markedIn idx st g fs →
    getName fs = tr → tr ≠ "" → is_Some (dumpTarget st);
}.

(** ** The driver (tools/driver/cross_module_opt_main.cpp) *)

Inductive Diagnostic :=
| error_mode_requires_an_input_file
| error_no_such_file_or_directory (Filename : string).

(** How [cross_module_opt_main] ends: it returns, with the diagnostics it has
    emitted, the index it has written and the trace it has printed; or
    [llvm::report_fatal_error] or an [llvm_unreachable] stops the process. *)
Inductive DriverResult :=
| Return (code : Z) (diags : list Diagnostic)
         (written : option ModuleSummaryIndex) (errs : string)
| ReportFatalError (msg : string)
| Unreachable (e : Fatal)
| Unfinished.

Inductive LoadResult :=
| Loaded (TheSummary : ModuleSummaryIndex)
| NoSuchFile (Filename : string)
| HasErr.

Section Driver.

(** The file system, the deserializer ([loadModuleSummaryIndex] reports an
    error or fills the index it is given) and the order in which a
    [DenseSet] is iterated are not part of these sources. *)
Variable MemoryBuffer : Type.
Variable getFile : string → option MemoryBuffer.
Variable loadModuleSummaryIndex :
  MemoryBuffer → ModuleSummaryIndex → bool * ModuleSummaryIndex.
Variable iterate : gset GUID → list GUID.

(** [for (auto Filename : InputFilenames)]. *)
Fixpoint loadInputs (InputFilenames : list string)
    (TheSummary : ModuleSummaryIndex) : LoadResult :=
  match InputFilenames with
  | [] => Loaded TheSummary
  | Filename :: rest =>
      match getFile Filename with
      | None => NoSuchFile Filename
      | Some ErrOrBuf =>
          let '(hasErr, TheSummary) :=
            loadModuleSummaryIndex ErrOrBuf TheSummary in
          if hasErr then HasErr else loadInputs rest TheSummary
      end
  end.

Definition cross_module_opt_main (LTOPrintLiveTrace : string)
    (InputFilenames : list string) : DriverResult :=
  match InputFilenames with
  | [] => Return 1 [error_mode_requires_an_input_file] None ""
  | _ =>
      match loadInputs InputFilenames emptyIndex with
      | NoSuchFile Filename =>
          Return 1 [error_no_such_file_or_directory Filename] None ""
      | HasErr => ReportFatalError "Invalid module summary"
      | Loaded TheSummary =>
          let TheSummary := setModuleName TheSummary "combined" in
          let PreservedGUIDs := computePreservedGUIDs TheSummary in
          match markDeadSymbols LTOPrintLiveTrace TheSummary
                                (iterate PreservedGUIDs) with
          | Completed st => Return 0 [] (Some (summary st)) (traceOutput st)
          | Aborted e => Unreachable e
          | OutOfFuel => Unfinished
          end
      end
  end.

End Driver.

Module DriverExample.

(** A file system with two summary files, and a loader that adds the
    summaries of a file to the index. *)
Definition files : string → option ModuleSummaryIndex :=
  λ name, if decide (name = "a.modsum") then Some Examples.chain
          else if decide (name = "b.modsum")
               then Some Examples.no_main else None.

Definition load (buf idx : ModuleSummaryIndex) : bool * ModuleSummaryIndex :=
  (false, withFunctions idx (functions idx ∪ functions buf)).

End DriverExample.

(** ** What the indexer emits, said without the loops *)

(** The call a key-path reference stands for; none for a method that is
    declared neither in a class nor in a protocol. *)
Definition referenceCalls (r : SIL.KeyPathRef) : list Call :=
  match r with
  | SIL.RefFunction F => [mkCall (getGUIDFromUniqueName F) F Direct]
  | SIL.RefMethod method =>
      let name := SIL.mangle method in
      match SIL.getDeclContext method with
      | SIL.ClassDecl => [mkCall (getGUIDFromUniqueName name) name VTable]
      | SIL.ProtocolDecl => [mkCall (getGUIDFromUniqueName name) name Witness]
      | SIL.OtherDecl => []
      end
  end.

Definition instructionCalls (I : SIL.SILInstruction) : list Call :=
  match I with
  | SIL.FunctionRefInst (Some callee) =>
      [mkCall (getGUIDFromUniqueName callee) callee Direct]
  | SIL.FunctionRefInst None => []
  | SIL.WitnessMethodInst member =>
      [mkCall (getGUIDFromUniqueName (SIL.mangle member))
              (SIL.mangle member) Witness]
  | SIL.MethodInst member =>
      [mkCall (getGUIDFromUniqueName (SIL.mangle member))
              (SIL.mangle member) VTable]
  | SIL.KeyPathInst components =>
      components ≫= (λ component, SIL.referenced component ≫= referenceCalls)
  | SIL.OtherInst => []
  end.

(** The instructions that [indexInstruction] accepts. *)
Definition referenceOk (r : SIL.KeyPathRef) : bool :=
  match r with
  | SIL.RefFunction _ => true
  | SIL.RefMethod method =>
      match SIL.getDeclContext method with
      | SIL.OtherDecl => false
      | _ => true
      end
  end.

Definition instructionOk (I : SIL.SILInstruction) : bool :=
  match I with
  | SIL.FunctionRefInst None => false
  | SIL.KeyPathInst components =>
      forallb (λ component, forallb referenceOk (SIL.referenced component))
              components
  | _ => true
  end.

Definition functionOk (F : SIL.SILFunction) : bool :=
  forallb (forallb instructionOk) (SIL.blocks F).

(** The two kinds of facts a module summary states besides its call graph:
    a function is preserved, a slot has an implementation. *)
Inductive Fact :=
| IsPreserved (g : GUID)
| Implements (slot : VFuncSlot) (g : GUID).

Definition holds (idx : ModuleSummaryIndex) (fact : Fact) : Prop :=
  match fact with
  | IsPreserved g =>
      ∃ fs, functions idx !! g = Some fs ∧ isPreserved fs = true
  | Implements slot g => g ∈ getImplementations idx slot
  end.

(** The facts that preserving the functions of one key-path reference adds
    to [idx]: the referenced function, or the implementations that [idx] has
    for the slot of the referenced method. *)
Definition referenceAdds (idx : ModuleSummaryIndex) (r : SIL.KeyPathRef)
    (fact : Fact) : Prop :=
  match r with
  | SIL.RefFunction F => fact = IsPreserved (getGUIDFromUniqueName F)
  | SIL.RefMethod method =>
      match SIL.getDeclContext method with
      | SIL.ClassDecl =>
          ∃ g, g ∈ getImplementations idx (VirtualMethodSlot method SlotVTable)
               ∧ fact = IsPreserved g
      | SIL.ProtocolDecl =>
          ∃ g, g ∈ getImplementations idx (VirtualMethodSlot method SlotWitness)
               ∧ fact = IsPreserved g
      | SIL.OtherDecl => False
      end
  end.

Definition propertyAdds (idx : ModuleSummaryIndex) (P : SIL.SILProperty)
    (fact : Fact) : Prop :=
  ∃ component r, SIL.getComponent P = Some component
                 ∧ r ∈ SIL.referenced component ∧ referenceAdds idx r fact.

(** The facts one witness-table entry and one v-table entry add. *)
Definition isPossiblyUsedExternally (Mod : SIL.SILModule)
    (WT : SIL.SILWitnessTable) : bool :=
  negb (bool_decide (SIL.wtParentModule WT = SIL.getSwiftModule Mod))
  || negb (bool_decide (SIL.protocolParentModule WT = SIL.getSwiftModule Mod)).

Definition witnessEntryAdds (external : bool) (entry : SIL.WitnessEntry)
    (fact : Fact) : Prop :=
  match entry with
  | SIL.MethodWitness Requirement (Some witness) =>
      match fact with
      | IsPreserved g =>
          external = true ∧ g = getGUIDFromUniqueName witness
      | Implements slot g =>
          slot = VirtualMethodSlot Requirement SlotWitness
          ∧ g = getGUIDFromUniqueName witness
      end
  | _ => False
  end.

Definition witnessTableAdds (Mod : SIL.SILModule) (WT : SIL.SILWitnessTable)
    (fact : Fact) : Prop :=
  ∃ entry, entry ∈ SIL.wtEntries WT
           ∧ witnessEntryAdds (isPossiblyUsedExternally Mod WT) entry fact.

Definition vtableEntryAdds (Mod : SIL.SILModule) (entry : SIL.SILVTableEntry)
    (fact : Fact) : Prop :=
  match fact with
  | IsPreserved g =>
      isRuntimeCalled entry || isExternalOverride Mod entry = true
      ∧ g = implGUID entry
  | Implements slot g =>
      slot = VirtualMethodSlot (SIL.getMethod entry) SlotVTable
      ∧ g = implGUID entry
  end.

Definition vtableAdds (Mod : SIL.SILModule) (VT : SIL.SILVTable)
    (fact : Fact) : Prop :=
  ∃ entry, entry ∈ SIL.vtEntries VT ∧ vtableEntryAdds Mod entry fact.

(** Nothing but preserved flags, set from false to true, tells the function
    maps of two indices apart. *)
Definition preservedGrown (idx idx' : ModuleSummaryIndex) : Prop :=
  moduleName idx' = moduleName idx
  ∧ usedTypes idx' = usedTypes idx
  ∧ ∀ g, match functions idx !! g with
         | None => functions idx' !! g = None
         | Some fs => functions idx' !! g = Some fs
                      ∨ functions idx' !! g = Some (setPreserved fs true)
         end.

(** The first loop of [indexModule], on its own. *)
Definition indexFunctions (Mod : SIL.SILModule) : M ModuleSummaryIndex :=
  forM (λ TheSummary F,
          fs <- indexFunction F ;;
          let fs := setPreserved fs (shouldPreserveFunction F) in
          ret (addFunctionSummary TheSummary fs))
       (SIL.getFunctions Mod)
       (setModuleName emptyIndex (SIL.getSwiftModule Mod)).

(** A pass over the index: each step changes nothing but preserved flags and
    implementations, adds the facts [adds] says, and goes through exactly
    when [ok] holds, [K] being the GUIDs that have a summary and [J] what the
    steps rely on and keep. *)
Definition Pass {A} (J : ModuleSummaryIndex → Prop) (K : GUID → Prop)
    (body : ModuleSummaryIndex → A → M ModuleSummaryIndex)
    (adds : A → Fact → Prop) (ok : A → Prop) : Prop :=
  (∀ s a s', J s → body s a = inr s' →
     J s' ∧ preservedGrown s s'
     ∧ ∀ fact, holds s' fact ↔ holds s fact ∨ adds a fact)
  ∧ (∀ s a, J s → (∀ g, is_Some (functions s !! g) ↔ K g) →
       (∃ s', body s a = inr s') ↔ ok a).

(** What the passes after the first need in order to go through, [K] being
    the GUIDs that have a summary. *)
Definition referenceDefined (idx : ModuleSummaryIndex) (K : GUID → Prop)
    (r : SIL.KeyPathRef) : Prop :=
  match r with
  | SIL.RefFunction F => K (getGUIDFromUniqueName F)
  | SIL.RefMethod method =>
      match SIL.getDeclContext method with
      | SIL.ClassDecl =>
          Forall K (getImplementations idx
                      (VirtualMethodSlot method SlotVTable))
      | SIL.ProtocolDecl =>
          Forall K (getImplementations idx
                      (VirtualMethodSlot method SlotWitness))
      | SIL.OtherDecl => False
      end
  end.

Definition propertyDefined (idx : ModuleSummaryIndex) (K : GUID → Prop)
    (P : SIL.SILProperty) : Prop :=
  ∀ component, SIL.getComponent P = Some component →
               Forall (referenceDefined idx K) (SIL.referenced component).

Definition witnessEntryDefined (K : GUID → Prop) (external : bool)
    (entry : SIL.WitnessEntry) : Prop :=
  match entry with
  | SIL.MethodWitness _ (Some witness) =>
      external = true → K (getGUIDFromUniqueName witness)
  | _ => True
  end.

Definition witnessTableDefined (Mod : SIL.SILModule) (K : GUID → Prop)
    (WT : SIL.SILWitnessTable) : Prop :=
  Forall (witnessEntryDefined K (isPossiblyUsedExternally Mod WT))
         (SIL.wtEntries WT).

Definition vtableEntryDefined (Mod : SIL.SILModule) (K : GUID → Prop)
    (entry : SIL.SILVTableEntry) : Prop :=
  isRuntimeCalled entry || isExternalOverride Mod entry = true →
  K (implGUID entry).

Definition vtableDefined (Mod : SIL.SILModule) (K : GUID → Prop)
    (VT : SIL.SILVTable) : Prop :=
  Forall (vtableEntryDefined Mod K) (SIL.vtEntries VT).

(** The GUIDs of the functions of a module. *)
Definition moduleKeys (Mod : SIL.SILModule) (g : GUID) : Prop :=
  ∃ F, F ∈ SIL.getFunctions Mod ∧ g = getGUIDFromUniqueName (SIL.getName F).

(** The summary [indexFunction] builds for a function it accepts. *)
Definition functionSummaryOf (F : SIL.SILFunction) : FunctionSummary :=
  mkFunctionSummary (getGUIDFromUniqueName (SIL.getName F)) (SIL.getName F)
                    false (shouldPreserveFunction F)
                    (SIL.blocks F ≫= (λ BB, BB ≫= instructionCalls)) [].

(** The first function of the list whose name has the GUID [g]. *)
Fixpoint lookupFunction (g : GUID) (l : list SIL.SILFunction)
  : option SIL.SILFunction :=
  match l with
  | [] => None
  | F :: l' =>
      if decide (getGUIDFromUniqueName (SIL.getName F) = g) then Some F
      else lookupFunction g l'
  end.

Module TableExample.

(** The summaries of the functions of M2, before any table is indexed. *)
Definition functionsOnly : ModuleSummaryIndex :=
  IndexerExample.result
    (indexModule (SIL.mkModule "M2" (SIL.getFunctions IndexerExample.M2)
                               [] [] [])).

Definition P_get : SIL.SILDeclRef :=
  SIL.mkDeclRef SIL.Func "P.get" SIL.ProtocolDecl "Other".

(** A conformance of a type of M2 to a protocol of another module. *)
Definition witnessTable : SIL.SILWitnessTable :=
  SIL.mkWitnessTable "M2" "Other"
    [SIL.AssociatedType;
     SIL.MethodWitness P_get (Some "getter");
     SIL.MethodWitness P_get None].

Definition property : SIL.SILProperty :=
  SIL.mkProperty
    (Some (SIL.mkComponent [SIL.RefFunction "getter";
                            SIL.RefMethod IndexerExample.E_n])).

End TableExample.


(** * Properties *)

(** ** GUIDs of known names *)

Example guid_main : getGUIDFromUniqueName "main" = 15822663052811949562.
Proof. vm_compute. reflexivity. Qed.

Example guid_empty : getGUIDFromUniqueName "" = 338333539836370388.
Proof. vm_compute. reflexivity. Qed.

Example guid_two_blocks :
  getGUIDFromUniqueName
    "aaaaaaaaaaaaaaaaaaaaaaaaaaaaaaaaaaaaaaaaaaaaaaaaaaaaaaaaaaaaaaaaaaaaaa"
  = 13906002343573085199.
Proof. vm_compute. reflexivity. Qed.

(** Membership goals over unions and singletons. *)
Ltac set_simple := set_unfold; intuition congruence.

(** ** Facts about the summary model *)

Lemma setLive_true_id (fs : FunctionSummary) :
  isLive fs = true → setLive fs true = fs.
Proof. destruct fs; simpl; intros ->; reflexivity. Qed.

Lemma length_list_bind {A B} (f : A → list B) (l : list A) :
  length (l ≫= f) = sum_list (map (λ a, length (f a)) l).
Proof.
  induction l as [|a l IH]; [reflexivity|].
  cbn. rewrite length_app. f_equal. exact IH.
Qed.

(** ** The loop body, case by case *)

Section StepFacts.

Variable LTOPrintLiveTrace : string.
Abbreviation step := (step LTOPrintLiveTrace).
Abbreviation run := (run LTOPrintLiveTrace).

(** The calls loop never aborts; it stacks one entry per target, the last
    target on top. *)
Lemma forM_pushCall idx trace cs wl :
  ∃ new, forM (pushCall idx trace) cs wl = inr (new ++ wl)
         ∧ map guid new = reverse (cs ≫= targets idx).
Proof.
  revert wl. induction cs as [|c cs IH]; intros wl.
  - exists []. split; reflexivity.
  - assert (∃ new1, pushCall idx trace wl c = inr (new1 ++ wl)
                    ∧ map guid new1 = reverse (targets idx c)) as (new1 & E1 & G1).
    { assert (∀ (l : list GUID) (acc : list LivenessTrace),
               ∃ n, fold_left (λ wl Impl,
                        newTrace (Some trace) Impl IndirectReferenced :: wl) l acc
                    = n ++ acc ∧ map guid n = reverse l) as Hfold.
      { induction l as [|x l IHl]; intros acc; [by exists []|].
        destruct (IHl (newTrace (Some trace) x IndirectReferenced :: acc))
          as (n & En & Gn).
        exists (n ++ [newTrace (Some trace) x IndirectReferenced]). split.
        - simpl. rewrite En, <- app_assoc. reflexivity.
        - rewrite map_app, Gn, reverse_cons. reflexivity. }
      unfold pushCall, targets, createVFuncSlot.
      destruct (getKind c); simpl.
      - exists [newTrace (Some trace) (getCallee c) StaticReferenced].
        split; reflexivity.
      - destruct (Hfold (getImplementations idx (mkSlot SlotVTable (getCallee c))) wl)
          as (n & -> & Gn). by exists n.
      - destruct (Hfold (getImplementations idx (mkSlot SlotWitness (getCallee c))) wl)
          as (n & -> & Gn). by exists n. }
    destruct (IH (new1 ++ wl)) as (new2 & E2 & G2).
    exists (new2 ++ new1). split.
    + simpl. rewrite E1. simpl. rewrite E2, <- app_assoc. reflexivity.
    + rewrite map_app, G1, G2, bind_cons, reverse_app. reflexivity.
Qed.

(** The type loop only appends to [usedTypes], each GUID once and only if
    it was not marked before. *)
Lemma fold_markType trs marked idx :
  ∃ added,
    fold_left markType trs (marked, idx)
    = (marked ∪ list_to_set added,
       mkIndex (moduleName idx) (functions idx) (implementations idx)
               (usedTypes idx ++ added))
    ∧ NoDup added ∧ (∀ x, x ∈ added → x ∉ marked).
Proof.
  revert marked idx. induction trs as [|t trs IH]; intros marked idx.
  - exists []. simpl. rewrite app_nil_r, union_empty_r_L.
    destruct idx; repeat split; [constructor | intros x Hx; by apply elem_of_nil in Hx].
  - simpl. unfold markType at 2. simpl. destruct (decide (Guid t ∈ marked)) as [Hin|Hout].
    + exact (IH marked idx).
    + destruct (IH ({[Guid t]} ∪ marked) (markUsedType idx (Guid t)))
        as (added & E & ND & Hfresh).
      exists (Guid t :: added). split; [|split].
      * rewrite E. simpl. rewrite <- app_assoc. f_equal.
        apply set_eq. intros y. set_unfold. tauto.
      * constructor; [|exact ND]. intros Hx. apply Hfresh in Hx. set_simple.
      * intros x Hx. apply elem_of_cons in Hx as [->|Hx]; [exact Hout|].
        apply Hfresh in Hx. set_simple.
Qed.

Lemma step_None st : step st = inr None ↔ Worklist st = [].
Proof.
  unfold step. destruct (Worklist st) as [|t wl]; [done|].
  split; [|done]. destruct (getFunctionSummary _ _) as [fs|]; [|done].
  destruct (isLive fs); [done|].
  destruct (fold_left _ _ _) as [marked s2].
  destruct (forM_pushCall s2
              (if negb (empty (getName fs)) then setName t (getName fs) else t)
              (calls fs) wl) as (new & -> & _). done.
Qed.

Lemma step_abort st e :
  step st = inl e →
  e = BadGUID ∧ ∃ t wl, Worklist st = t :: wl
                        ∧ functions (summary st) !! guid t = None.
Proof.
  unfold step. destruct (Worklist st) as [|t wl]; [done|].
  unfold getFunctionSummary.
  destruct (functions (summary st) !! guid t) as [fs|] eqn:Hfs.
  - destruct (isLive fs); [done|].
    destruct (fold_left _ _ _) as [marked s2].
    destruct (forM_pushCall s2
                (if negb (empty (getName fs)) then setName t (getName fs) else t)
                (calls fs) wl) as (new & -> & _). done.
  - intros [= <-]. eauto.
Qed.

(** What an iteration that stays in the loop does. *)
Lemma step_Some st st' : step st = inr (Some st') → popped st st'.
Proof.
  unfold step. destruct (Worklist st) as [|t wl] eqn:Hwl; [done|].
  unfold getFunctionSummary.
  destruct (functions (summary st) !! guid t) as [fs|] eqn:Hfs; [|done].
  destruct (isLive fs) eqn:Hlive.
  - intros [= <-]. by eapply popped_live.
  - destruct (fold_markType (typeRefs fs) (UseMarkedTypes st)
                (withFunctions (summary st)
                   (<[guid t:=setLive fs true]> (functions (summary st)))))
      as (added & -> & ND & Hfresh).
    match goal with |- context [forM (pushCall ?s ?tr) _ _] =>
      destruct (forM_pushCall s tr (calls fs) wl) as (new & -> & Hg) end.
    simpl. intros [= <-].
    eapply popped_dead; eauto.
Qed.

End StepFacts.

(** ** Termination of the worklist loop *)

Lemma potential_ext idx idx' :
  functions idx' = functions idx →
  implementations idx' = implementations idx →
  potential idx' = potential idx.
Proof.
  unfold potential, owed, succs, targets, getImplementations.
  intros -> ->. reflexivity.
Qed.

Lemma potential_insert idx g fs :
  functions idx !! g = None →
  potential (withFunctions idx (<[g:=fs]> (functions idx)))
  = (owed idx fs + potential idx)%nat.
Proof.
  intros Hg. unfold potential. simpl.
  rewrite map_fold_insert_L; [reflexivity| |exact Hg].
  intros. lia.
Qed.

(** Marking a function pays off exactly the pushes it owed. *)
Lemma potential_marked idx g fs :
  functions idx !! g = Some fs →
  isLive fs = false →
  (potential (withFunctions idx (<[g:=setLive fs true]> (functions idx)))
   + length (succs idx fs))%nat = potential idx.
Proof.
  intros Hg Hdead.
  pose (idx0 := withFunctions idx (delete g (functions idx))).
  assert (functions idx0 !! g = None) as Hnone by apply lookup_delete_eq.
  assert (potential (withFunctions idx (<[g:=setLive fs true]> (functions idx)))
          = potential (withFunctions idx0
                         (<[g:=setLive fs true]> (functions idx0)))) as ->.
  { apply potential_ext; simpl; [by rewrite insert_delete_eq | done]. }
  assert (potential idx
          = potential (withFunctions idx0 (<[g:=fs]> (functions idx0)))) as ->.
  { apply potential_ext; simpl; [by rewrite insert_delete_eq, insert_id | done]. }
  rewrite !potential_insert by done.
  unfold owed. simpl. rewrite Hdead.
  unfold succs, targets, getImplementations. simpl. lia.
Qed.

Section Termination.

Variable LTOPrintLiveTrace : string.
Abbreviation step := (step LTOPrintLiveTrace).
Abbreviation run := (run LTOPrintLiveTrace).
Abbreviation markDeadSymbols := (markDeadSymbols LTOPrintLiveTrace).

Lemma popped_measure st st' :
  popped st st' → S (measure st') = measure st.
Proof.
  unfold measure.
  intros [t wl fs Hwl Hfs Hlive -> -> _ _
         |t wl fs new added Hwl Hfs Hdead -> Hnew Hsum _ _ _ _]; rewrite Hwl; simpl.
  - reflexivity.
  - rewrite length_app.
    assert (length new = length (succs (summary st) fs)) as ->.
    { rewrite <- (length_map guid), Hnew. apply length_reverse. }
    rewrite <- (potential_marked (summary st) (guid t) fs Hfs Hdead).
    rewrite (potential_ext (withFunctions (summary st)
               (<[guid t:=setLive fs true]> (functions (summary st))))
               (summary st')) by (rewrite Hsum; reflexivity).
    lia.
Qed.

Lemma run_terminates fuel st :
  (measure st < fuel)%nat → run fuel st ≠ OutOfFuel.
Proof.
  revert st. induction fuel as [|fuel IH]; intros st Hlt; [lia|].
  simpl. destruct (step st) as [e|[st'|]] eqn:Hstep; [done| |done].
  apply IH. apply step_Some, popped_measure in Hstep. lia.
Qed.

Lemma initial_worklist (l : list GUID) (wl : list LivenessTrace) :
  map guid (fold_left (λ wl g, newTrace None g Preserved :: wl) l wl)
  = reverse l ++ map guid wl.
Proof.
  revert wl. induction l as [|g l IH]; intros wl; [reflexivity|].
  simpl. rewrite IH, reverse_cons, <- app_assoc. reflexivity.
Qed.

Lemma initialState_guids idx roots :
  map guid (Worklist (initialState idx roots)) = reverse roots.
Proof.
  unfold initialState. simpl.
  rewrite initial_worklist, app_nil_r. reflexivity.
Qed.

(** The loop of [markDeadSymbols] always comes to an end. *)
Lemma markDeadSymbols_terminates idx roots :
  markDeadSymbols idx roots ≠ OutOfFuel.
Proof.
  apply run_terminates. unfold measure.
  rewrite <- (length_map guid), initialState_guids, length_reverse.
  simpl. lia.
Qed.

End Termination.

(** ** The loop invariant *)

Lemma succs_ext idx idx' fs :
  implementations idx' = implementations idx → succs idx' fs = succs idx fs.
Proof.
  unfold succs, targets, getImplementations. intros ->. reflexivity.
Qed.

Lemma wrap32_succ (a n : N) :
  wrap32 (wrap32 (a + n) + 1) = wrap32 (a + (n + 1)).
Proof.
  unfold wrap32. rewrite N.Div0.add_mod_idemp_l. f_equal. lia.
Qed.

Section Invariant.

Variable LTOPrintLiveTrace : string.
Variable idx0 : ModuleSummaryIndex.
Variable roots : list GUID.

Lemma Inv_initial : Inv idx0 roots (initialState idx0 roots) ∅.
Proof.
  split; simpl; try done.
  - intros g. unfold markIn. destruct (functions idx0 !! g); simpl; [|done].
    by rewrite decide_False by set_simple.
  - intros t Ht. apply pushed_root.
    apply (list_elem_of_fmap_2 guid) in Ht.
    change (guid t ∈ map guid (Worklist (initialState idx0 roots))) in Ht.
    rewrite initialState_guids in Ht. by rewrite elem_of_reverse in Ht.
  - intros g Hg. left.
    change (g ∈ map guid (Worklist (initialState idx0 roots))).
    rewrite initialState_guids. by rewrite elem_of_reverse.
  - exists []. rewrite app_nil_r. split; [done|]. split; [constructor|].
    intros x. split; intros Hx; [by apply elem_of_nil in Hx|set_simple].
Qed.

Lemma Inv_lookup st L g fs :
  Inv idx0 roots st L → functions (summary st) !! g = Some fs →
  ∃ fs0, functions idx0 !! g = Some fs0 ∧ fs = markIn L g fs0.
Proof.
  intros HI Hg. rewrite (inv_funs _ _ _ _ HI) in Hg.
  destruct (functions idx0 !! g) as [fs0|]; [|done].
  simpl in Hg. injection Hg as <-. eauto.
Qed.

Lemma Inv_dead st L g fs :
  Inv idx0 roots st L → functions (summary st) !! g = Some fs → isLive fs = false →
  (g ∉ L) ∧ functions idx0 !! g = Some fs.
Proof.
  intros HI Hg Hdead.
  destruct (Inv_lookup _ _ _ _ HI Hg) as (fs0 & H0 & ->).
  unfold markIn in *. destruct (decide (g ∈ L)); [done|]. by split.
Qed.

Lemma liveIn_insert idx idx' g fs g' :
  functions idx' = <[g:=setLive fs true]> (functions idx) →
  functions idx !! g = Some fs →
  liveIn idx g' → liveIn idx' g'.
Proof.
  intros E Hg (fs' & Hg' & Hlive). unfold liveIn. rewrite E.
  destruct (decide (g = g')) as [->|Hne].
  - rewrite lookup_insert_eq. eauto.
  - rewrite lookup_insert_ne by done. eauto.
Qed.

Lemma Inv_popped st st' L :
  Inv idx0 roots st L → popped st st' → ∃ L', Inv idx0 roots st' L'.
Proof.
  intros HI [t wl fs Hwl Hfs Hlive Hwl' Hsum Hcnt Hty
            |t wl fs new added Hwl Hfs Hdead Hwl' Hnew Hsum ND Hfresh Hty Hcnt].
  - (* the popped entry is already live *)
    assert (liveIn (summary st) (guid t)) as Ht by (by exists fs).
    assert (∀ g, g ∈ map guid (Worklist st) ∨ liveIn (summary st) g →
                 g ∈ map guid wl ∨ liveIn (summary st) g) as Hshrink.
    { intros g [Hg|Hg]; [|by right]. rewrite Hwl in Hg. simpl in Hg.
      apply elem_of_cons in Hg as [->|Hg]; [by right|by left]. }
    exists L. destruct HI. split; rewrite ?Hwl', ?Hsum, ?Hcnt, ?Hty; try done.
    + intros t' Ht'. apply inv_worklist0. rewrite Hwl. by right.
    + intros g Hg. by apply Hshrink, inv_roots0.
    + intros g fs' g' ? ? ?. by eapply Hshrink, inv_closed0.
  - (* the popped entry is marked *)
    destruct (Inv_dead _ _ _ _ HI Hfs Hdead) as [HnL Hfs0].
    assert (functions (summary st') =
            <[guid t:=setLive fs true]> (functions (summary st))) as Efun
      by (by rewrite Hsum).
    assert (implementations (summary st') = implementations idx0) as Eimp
      by (rewrite Hsum; simpl; apply (inv_impls _ _ _ _ HI)).
    assert (succs (summary st) fs = succs idx0 fs) as Esucc
      by (apply succs_ext, (inv_impls _ _ _ _ HI)).
    assert (liveIn (summary st') (guid t)) as Ht.
    { exists (setLive fs true). rewrite Efun, lookup_insert_eq. done. }
    assert (∀ g, g ∈ map guid (Worklist st) ∨ liveIn (summary st) g →
                 g ∈ map guid (new ++ wl) ∨ liveIn (summary st') g) as Hgrow.
    { intros g [Hg|Hg].
      - rewrite Hwl in Hg. simpl in Hg.
        apply elem_of_cons in Hg as [->|Hg]; [by right|left].
        rewrite map_app. apply elem_of_app. by right.
      - right. by eapply liveIn_insert. }
    exists ({[guid t]} ∪ L). destruct HI. split; rewrite ?Hwl'.
    + by rewrite Hsum.
    + done.
    + intros g. rewrite Efun. destruct (decide (guid t = g)) as [<-|Hne].
      * rewrite lookup_insert_eq, Hfs0. simpl. unfold markIn.
        by rewrite decide_True by set_simple.
      * rewrite lookup_insert_ne, inv_funs0 by done.
        destruct (functions idx0 !! g); simpl; [|done]. f_equal.
        unfold markIn. destruct (decide (g ∈ L)).
        -- by rewrite decide_True by set_simple.
        -- by rewrite decide_False by set_simple.
    + intros g Hg. apply elem_of_union in Hg as [Hg|Hg].
      * apply elem_of_singleton in Hg as ->. exists fs. repeat split; try done.
        apply inv_worklist0. rewrite Hwl. by left.
      * by apply inv_marked0.
    + intros t' Ht'. apply elem_of_app in Ht' as [Ht'|Ht'].
      * apply (pushed_call _ _ (guid t) fs); try done.
        -- apply inv_worklist0. rewrite Hwl. by left.
        -- rewrite <- Esucc, <- elem_of_reverse, <- Hnew.
           by apply (list_elem_of_fmap_2 guid).
      * apply inv_worklist0. rewrite Hwl. by right.
    + intros g Hg. by apply Hgrow, inv_roots0.
    + intros g fs' g' Hg Hfs' Hg'. apply elem_of_union in Hg as [Hg|Hg].
      * apply elem_of_singleton in Hg as ->.
        rewrite Hfs0 in Hfs'. injection Hfs' as <-. left.
        rewrite map_app. apply elem_of_app. left.
        rewrite Hnew, Esucc. by rewrite elem_of_reverse.
      * by eapply Hgrow, inv_closed0.
    + rewrite Hcnt, inv_count0, size_union, size_singleton by set_simple.
      rewrite <- (N.add_0_l (N.of_nat (size L))), wrap32_succ.
      f_equal. lia.
    + destruct inv_types0 as (added0 & E0 & ND0 & Hin0).
      exists (added0 ++ added). rewrite Hsum, Hty. simpl. split; [|split].
      * by rewrite E0, <- app_assoc.
      * apply NoDup_app. repeat split; try done.
        intros x Hx Hx'. apply Hfresh in Hx'. by apply Hx', Hin0.
      * intros x. rewrite elem_of_app, elem_of_union, elem_of_list_to_set.
        by rewrite Hin0.
Qed.

End Invariant.

(** ** The result of a run *)

Section Correctness.

Variable LTOPrintLiveTrace : string.
Variable idx0 : ModuleSummaryIndex.
Variable roots : list GUID.

Lemma run_Inv fuel st L :
  Inv idx0 roots st L →
  match run LTOPrintLiveTrace fuel st with
  | Completed st' => Worklist st' = [] ∧ ∃ L', Inv idx0 roots st' L'
  | Aborted e =>
      e = BadGUID ∧ ∃ g, pushed idx0 roots g ∧ functions idx0 !! g = None
  | OutOfFuel => True
  end.
Proof.
  revert st L. induction fuel as [|fuel IH]; intros st L HI; [done|].
  simpl. destruct (step LTOPrintLiveTrace st) as [e|[st'|]] eqn:Hstep.
  - apply step_abort in Hstep as (-> & t & wl & Hwl & Hnone).
    split; [done|]. exists (guid t). split.
    + apply (inv_worklist _ _ _ _ HI). rewrite Hwl. by left.
    + rewrite (inv_funs _ _ _ _ HI) in Hnone.
      by destruct (functions idx0 !! guid t).
  - apply step_Some in Hstep.
    destruct (Inv_popped _ _ _ _ _ HI Hstep) as [L' HI'].
    by apply (IH st' L').
  - apply step_None in Hstep. eauto.
Qed.

(** Once the worklist is empty everything that was pushed is live. *)
Lemma Inv_final st L :
  Inv idx0 roots st L → Worklist st = [] →
  ∀ g, pushed idx0 roots g → liveIn (summary st) g.
Proof.
  intros HI Hwl g Hg. induction Hg as [g Hg|g fs g' _ IH Hfs Hdead Hg'].
  - destruct (inv_roots _ _ _ _ HI g Hg) as [Hin|Hlive]; [|done].
    rewrite Hwl in Hin. by apply elem_of_nil in Hin.
  - assert (g ∈ L) as HgL.
    { destruct IH as (fs' & Hfs' & Hlive).
      rewrite (inv_funs _ _ _ _ HI), Hfs in Hfs'. simpl in Hfs'.
      injection Hfs' as <-. unfold markIn in Hlive.
      destruct (decide (g ∈ L)); [done|congruence]. }
    destruct (inv_closed _ _ _ _ HI g fs g' HgL Hfs Hg') as [Hin|Hlive]; [|done].
    rewrite Hwl in Hin. by apply elem_of_nil in Hin.
Qed.

Lemma Inv_final_marked st L :
  Inv idx0 roots st L → Worklist st = [] →
  ∀ g, g ∈ L ↔ pushed idx0 roots g
               ∧ ∃ fs, functions idx0 !! g = Some fs ∧ isLive fs = false.
Proof.
  intros HI Hwl g. split.
  - intros HgL. destruct (inv_marked _ _ _ _ HI g HgL) as (fs & ? & ? & ?).
    eauto.
  - intros (Hg & fs & Hfs & Hdead).
    destruct (Inv_final _ _ HI Hwl g Hg) as (fs' & Hfs' & Hlive).
    rewrite (inv_funs _ _ _ _ HI), Hfs in Hfs'. simpl in Hfs'.
    injection Hfs' as <-. unfold markIn in Hlive.
    destruct (decide (g ∈ L)); [done|congruence].
Qed.

(** The run either completes, and then exactly the pushed GUIDs have been
    marked, or it stops at the "Bad GUID" exit on a pushed GUID that has no
    summary. *)
Lemma markDeadSymbols_spec :
  match markDeadSymbols LTOPrintLiveTrace idx0 roots with
  | Completed st =>
      Worklist st = [] ∧
      ∃ L, Inv idx0 roots st L
           ∧ ∀ g, g ∈ L ↔ pushed idx0 roots g
                ∧ ∃ fs, functions idx0 !! g = Some fs ∧ isLive fs = false
  | Aborted e =>
      e = BadGUID ∧ ∃ g, pushed idx0 roots g ∧ functions idx0 !! g = None
  | OutOfFuel => False
  end.
Proof.
  pose proof (markDeadSymbols_terminates LTOPrintLiveTrace idx0 roots) as Hterm.
  pose proof (run_Inv (S (length roots + potential idx0))
                (initialState idx0 roots) ∅ (Inv_initial idx0 roots)) as Hrun.
  unfold markDeadSymbols in *.
  destruct (run _ _ _) as [st|e|]; [|done|done].
  destruct Hrun as (Hwl & L & HI). split; [done|]. exists L. split; [done|].
  by apply (Inv_final_marked st).
Qed.

(** A completed run found a summary for every pushed GUID. *)
Lemma Completed_present st :
  markDeadSymbols LTOPrintLiveTrace idx0 roots = Completed st →
  ∀ g, pushed idx0 roots g → is_Some (functions idx0 !! g).
Proof.
  intros Hrun g Hg. pose proof markDeadSymbols_spec as Hspec.
  rewrite Hrun in Hspec. destruct Hspec as (Hwl & L & HI & _).
  destruct (Inv_final _ _ HI Hwl g Hg) as (fs & Hfs & _).
  rewrite (inv_funs _ _ _ _ HI) in Hfs.
  destruct (functions idx0 !! g); [eauto|done].
Qed.

(** The run stops at "Bad GUID" exactly when some pushed GUID has no
    summary. *)
Lemma Aborted_iff :
  markDeadSymbols LTOPrintLiveTrace idx0 roots = Aborted BadGUID
  ↔ ∃ g, pushed idx0 roots g ∧ functions idx0 !! g = None.
Proof.
  pose proof markDeadSymbols_spec as Hspec. split.
  - intros Hrun. rewrite Hrun in Hspec. by destruct Hspec.
  - intros (g & Hg & Hnone).
    destruct (markDeadSymbols _ _ _) as [st|e|] eqn:Hrun; [|by destruct Hspec as [-> _]|done].
    destruct (Completed_present _ Hrun g Hg) as [fs Hfs]. congruence.
Qed.

(** The function map after a completed run. *)
Lemma Completed_functions st :
  markDeadSymbols LTOPrintLiveTrace idx0 roots = Completed st →
  ∀ g fs, functions idx0 !! g = Some fs →
    (pushed idx0 roots g → functions (summary st) !! g = Some (setLive fs true))
    ∧ (¬ pushed idx0 roots g → functions (summary st) !! g = Some fs).
Proof.
  intros Hrun g fs Hfs. pose proof markDeadSymbols_spec as Hspec.
  rewrite Hrun in Hspec. destruct Hspec as (Hwl & L & HI & HL).
  rewrite (inv_funs _ _ _ _ HI), Hfs. simpl. unfold markIn. split; intros Hg.
  - destruct (decide (g ∈ L)); [done|]. f_equal. symmetry.
    apply setLive_true_id. destruct (isLive fs) eqn:Hlive; [done|].
    exfalso. apply n, HL. eauto.
  - destruct (decide (g ∈ L)) as [HgL|]; [|done]. apply HL in HgL. tauto.
Qed.

End Correctness.

(** ** Pushed GUIDs are reachable; live GUIDs after a run *)

Lemma pushed_reachable idx roots g :
  pushed idx roots g → reachable idx roots g.
Proof.
  induction 1 as [g Hg|g fs g' _ (r & Hr & Hrg) Hfs _ Hg'].
  - exists g. split; [done|]. apply rtc_refl.
  - exists r. split; [done|]. eapply rtc_r; [exact Hrg|].
    unfold succs in Hg'. apply list_elem_of_bind in Hg' as (call & Hg' & Hcall).
    by exists fs, call.
Qed.

Lemma elem_of_liveGUIDs idx g : g ∈ liveGUIDs idx ↔ liveIn idx g.
Proof.
  unfold liveGUIDs, liveIn. rewrite elem_of_dom. unfold is_Some.
  split; intros (fs & Hfs); exists fs.
  - by apply map_lookup_filter_Some in Hfs.
  - by apply map_lookup_filter_Some.
Qed.

Lemma Completed_liveIn tr idx roots st :
  markDeadSymbols tr idx roots = Completed st →
  ∀ g, liveIn (summary st) g
       ↔ ∃ fs, functions idx !! g = Some fs
               ∧ (isLive fs = true ∨ pushed idx roots g).
Proof.
  intros Hrun g.
  pose proof (markDeadSymbols_spec tr idx roots) as Hspec.
  rewrite Hrun in Hspec. destruct Hspec as (_ & L & HI & HL).
  unfold liveIn. rewrite (inv_funs _ _ _ _ HI).
  destruct (functions idx !! g) as [fs|] eqn:Hfs; simpl.
  - unfold markIn. split.
    + intros (fs' & [= <-] & Hlive). exists fs. split; [done|].
      destruct (decide (g ∈ L)) as [HgL|]; [|by left].
      right. by apply HL.
    + intros (fs' & [= <-] & Hor). eexists. split; [done|].
      destruct (decide (g ∈ L)) as [|HgL]; [done|].
      destruct Hor as [Hlive|Hg]; [done|].
      destruct (isLive fs) eqn:Hdead; [done|].
      exfalso. apply HgL, HL. eauto.
  - split; [by intros (? & ? & _)|by intros (? & ? & _)].
Qed.

(** ** The root set *)

Lemma computePreservedGUIDs_spec idx g :
  g ∈ computePreservedGUIDs idx
  ↔ g = getGUIDFromUniqueName "main"
    ∨ ∃ fs, functions idx !! g = Some fs ∧ isPreserved fs = true.
Proof.
  unfold computePreservedGUIDs.
  apply (map_fold_weak_ind
           (λ (r : gset GUID) (m : gmap GUID FunctionSummary),
              g ∈ r ↔ g = getGUIDFromUniqueName "main"
                      ∨ ∃ fs, m !! g = Some fs ∧ isPreserved fs = true)).
  - rewrite elem_of_singleton. split; [by left|].
    intros [?|(fs & Hfs & _)]; [done|]. by rewrite lookup_empty in Hfs.
  - intros i x m r Hi IH. destruct (decide (i = g)) as [->|Hne].
    + rewrite lookup_insert_eq. destruct (isPreserved x) eqn:Hx.
      * rewrite elem_of_union, elem_of_singleton. split; [|by left].
        intros _. right. by exists x.
      * rewrite IH. split; (intros [?|(fs & Hfs & Hp)]; [by left|]);
          congruence.
    + rewrite lookup_insert_ne by done.
      destruct (isPreserved x); [|done].
      rewrite elem_of_union, elem_of_singleton, IH. split; [|tauto].
      intros [?|?]; [congruence|done].
Qed.

(** ** Absent GUIDs *)

(** C1, as stated, fails: [main] is a root whose only call is a [Direct] call
    to a GUID without a summary, and the run does not complete. *)
Lemma C1_counterexample :
  let idx := Examples.external_callee in
  let call := Examples.direct "f" in
  (∃ fs, functions idx !! Examples.G "main" = Some fs ∧ isLive fs = false
         ∧ call ∈ calls fs)
  ∧ getKind call = Direct
  ∧ functions idx !! getCallee call = None
  ∧ markDeadSymbols "" idx [Examples.G "main"] = Aborted BadGUID
  ∧ ¬ ∃ st, markDeadSymbols "" idx [Examples.G "main"] = Completed st.
Proof.
  cbv zeta. split; [|split; [|split; [|split]]].
  - exists (Examples.fn "main" [Examples.direct "f"] false false).
    split; [vm_compute; reflexivity|]. split; [reflexivity|]. by left.
  - reflexivity.
  - vm_compute. reflexivity.
  - vm_compute. reflexivity.
  - intros [st Hst]. vm_compute in Hst. discriminate.
Qed.

(** C1 (amended): a [Direct] call met during liveness propagation, whose
    callee GUID has no summary in the merged index, is not skipped: the callee
    is put on the worklist like any other and the run stops at the "Bad GUID"
    fatal exit. *)
Theorem C1_absent_direct_callee_aborts
    (tr : string) (idx : ModuleSummaryIndex) (roots : list GUID)
    (g : GUID) (fs : FunctionSummary) (call : Call) :
  pushed idx roots g →
  functions idx !! g = Some fs →
  isLive fs = false →
  call ∈ calls fs →
  getKind call = Direct →
  functions idx !! getCallee call = None →
  markDeadSymbols tr idx roots = Aborted BadGUID.
Proof.
  intros Hg Hfs Hdead Hcall Hkind Hnone.
  apply Aborted_iff. exists (getCallee call). split; [|done].
  apply (pushed_call _ _ g fs); try done.
  unfold succs. apply list_elem_of_bind. exists call. split; [|done].
  unfold targets. rewrite Hkind. by left.
Qed.

Lemma C1_absent_direct_callee_aborts_witness :
  markDeadSymbols "" Examples.external_callee [Examples.G "main"]
  = Aborted BadGUID.
Proof.
  apply (C1_absent_direct_callee_aborts "" Examples.external_callee
           [Examples.G "main"] (Examples.G "main")
           (Examples.fn "main" [Examples.direct "f"] false false)
           (Examples.direct "f")).
  - apply pushed_root. by left.
  - vm_compute. reflexivity.
  - reflexivity.
  - by left.
  - reflexivity.
  - vm_compute. reflexivity.
Defined.

(** C2, as stated, fails: the root set contains the GUID of "main", no
    summary has that GUID, and the run stops at "Bad GUID". *)
Lemma C2_counterexample :
  let idx := Examples.no_main in
  let roots := elements (computePreservedGUIDs idx) in
  getGUIDFromUniqueName "main" ∈ roots
  ∧ functions idx !! getGUIDFromUniqueName "main" = None
  ∧ markDeadSymbols "" idx roots = Aborted BadGUID
  ∧ ¬ ∃ st, markDeadSymbols "" idx roots = Completed st.
Proof.
  cbv zeta. split; [|split; [|split]].
  - apply elem_of_elements, computePreservedGUIDs_spec. by left.
  - vm_compute. reflexivity.
  - vm_compute. reflexivity.
  - intros [st Hst]. vm_compute in Hst. discriminate.
Qed.

(** C2 (amended): the root set computed by [computePreservedGUIDs] always
    contains the GUID of the exact name "main" and the GUID of every
    preserved summary; when no summary has the GUID of "main", the run on
    that root set, in whatever order it is iterated, stops at the "Bad GUID"
    fatal exit. *)
Theorem C2_main_is_a_root (idx : ModuleSummaryIndex) :
  getGUIDFromUniqueName "main" ∈ computePreservedGUIDs idx
  ∧ (∀ g fs, functions idx !! g = Some fs → isPreserved fs = true →
             g ∈ computePreservedGUIDs idx)
  ∧ (∀ tr roots,
       (∀ g, g ∈ roots ↔ g ∈ computePreservedGUIDs idx) →
       functions idx !! getGUIDFromUniqueName "main" = None →
       markDeadSymbols tr idx roots = Aborted BadGUID).
Proof.
  split; [|split].
  - apply computePreservedGUIDs_spec. by left.
  - intros g fs Hfs Hp. apply computePreservedGUIDs_spec. right. eauto.
  - intros tr roots Hroots Hnone. apply Aborted_iff.
    exists (getGUIDFromUniqueName "main"). split; [|done].
    apply pushed_root, Hroots, computePreservedGUIDs_spec. by left.
Qed.

Lemma C2_main_is_a_root_witness :
  markDeadSymbols "" Examples.no_main
    (elements (computePreservedGUIDs Examples.no_main)) = Aborted BadGUID.
Proof.
  apply (proj2 (proj2 (C2_main_is_a_root Examples.no_main))).
  - intros g. apply elem_of_elements.
  - vm_compute. reflexivity.
Defined.

(** ** Soundness of the live flags *)

(** On an index in which no summary is live yet, the flags set by a completed
    run are all accounted for by the roots and the call graph. *)
Lemma fresh_index_live_is_reachable tr idx roots st g :
  (∀ g', ¬ liveIn idx g') →
  markDeadSymbols tr idx roots = Completed st →
  liveIn (summary st) g → reachable idx roots g.
Proof.
  intros Hfresh Hrun Hlive.
  apply (Completed_liveIn _ _ _ _ Hrun) in Hlive as (fs & Hfs & [Hwas|Hg]).
  - exfalso. apply (Hfresh g). by exists fs.
  - by apply pushed_reachable.
Qed.

(** C4, as stated, fails on an index that already carries a live flag: [f]
    is live after the run, is not a root and no call leads to it. *)
Lemma C4_counterexample :
  let idx := Examples.already_live in
  let roots := [Examples.G "main"] in
  ∃ st, markDeadSymbols "" idx roots = Completed st
        ∧ liveIn (summary st) (Examples.G "f")
        ∧ ¬ (Examples.G "f" ∈ roots ∨ reachable idx roots (Examples.G "f")).
Proof.
  cbv zeta.
  exists (Examples.final (markDeadSymbols "" Examples.already_live
                            [Examples.G "main"])).
  split; [vm_compute; reflexivity|]. split.
  - exists (Examples.fn "f" [] true false). split; [vm_compute; reflexivity|done].
  - intros [Hroot|(r & Hr & Hreach)].
    + apply list_elem_of_singleton in Hroot. vm_compute in Hroot. discriminate.
    + apply list_elem_of_singleton in Hr as ->.
      apply rtc_inv in Hreach as [Heq|(g & (fs & call & Hfs & Hcall & _) & _)].
      * vm_compute in Heq. discriminate.
      * vm_compute in Hfs. injection Hfs as <-. by apply elem_of_nil in Hcall.
Qed.

(** C4 (amended): after [markDeadSymbols] completes, every function whose
    live flag is true either had it true before the run, or is in the root
    set, or is reachable from some root by a chain of edges in which a
    [Direct] call steps to its callee GUID and a [Witness]/[VTable] call
    steps to each GUID in [implementations[(kind, callee)]]. *)
Theorem C4_live_is_reachable
    (tr : string) (idx : ModuleSummaryIndex) (roots : list GUID)
    (st : LoopState) (g : GUID) :
  markDeadSymbols tr idx roots = Completed st →
  liveIn (summary st) g →
  liveIn idx g ∨ g ∈ roots ∨ reachable idx roots g.
Proof.
  intros Hrun Hlive.
  apply (Completed_liveIn _ _ _ _ Hrun) in Hlive as (fs & Hfs & [Hwas|Hg]).
  - left. by exists fs.
  - right. right. by apply pushed_reachable.
Qed.

Lemma C4_live_is_reachable_witness :
  liveIn Examples.chain (Examples.G "f3")
  ∨ Examples.G "f3" ∈ [Examples.G "main"]
  ∨ reachable Examples.chain [Examples.G "main"] (Examples.G "f3").
Proof.
  apply (C4_live_is_reachable "" Examples.chain [Examples.G "main"]
           (Examples.final
              (markDeadSymbols "" Examples.chain [Examples.G "main"]))).
  - vm_compute. reflexivity.
  - exists (Examples.fn "f3" [] true false). split; [vm_compute; reflexivity|done].
Defined.

(** ** Monotonicity of the live flags and the live-symbol counter *)

Lemma elem_of_newlyLive m m' g :
  g ∈ newlyLive m m'
  ↔ (isLive <$> m !! g) = Some false ∧ (isLive <$> m' !! g) = Some true.
Proof.
  unfold newlyLive. rewrite elem_of_filter, elem_of_dom. split; [tauto|].
  intros [H1 H2]. split; [done|]. by destruct (m !! g).
Qed.

Lemma flagsGrown_refl m : flagsGrown m m.
Proof. intros g. destruct (m !! g); auto. Qed.

Lemma newlyLive_refl m : newlyLive m m = ∅.
Proof.
  apply set_eq. intros g. rewrite elem_of_newlyLive, elem_of_empty.
  split; [|done]. intros [H1 H2]. congruence.
Qed.

Lemma flagsGrown_mark m0 m g fs :
  flagsGrown m0 m → m !! g = Some fs → isLive fs = false →
  flagsGrown m0 (<[g:=setLive fs true]> m)
  ∧ newlyLive m0 (<[g:=setLive fs true]> m) = {[g]} ∪ newlyLive m0 m
  ∧ g ∉ newlyLive m0 m.
Proof.
  intros Hgrown Hg Hdead.
  assert (m0 !! g = Some fs) as Hg0.
  { specialize (Hgrown g). destruct (m0 !! g) as [fs0|]; [|congruence].
    destruct Hgrown as [?|[_ ?]]; [congruence|].
    assert (fs = setLive fs0 true) as -> by congruence. done. }
  split; [|split].
  - intros x. specialize (Hgrown x). destruct (decide (g = x)) as [<-|Hne].
    + rewrite Hg0, lookup_insert_eq. by right.
    + by rewrite lookup_insert_ne.
  - apply set_eq. intros x.
    rewrite elem_of_union, elem_of_singleton, !elem_of_newlyLive.
    destruct (decide (g = x)) as [<-|Hne].
    + rewrite Hg0, lookup_insert_eq. simpl. rewrite Hdead. tauto.
    + rewrite lookup_insert_ne by done. split; [tauto|].
      intros [?|?]; [congruence|done].
  - rewrite elem_of_newlyLive, Hg. simpl. rewrite Hdead. intros [_ ?]. done.
Qed.

(** C5: between any two states of the loop, a summary is either unchanged or
    has had its live flag, and nothing else, switched from false to true; a
    live summary is left as it is; and the counter of live symbols (an
    [unsigned]) has grown by exactly the number of flags that went from false
    to true. *)
Theorem C5_live_flags_only_grow (tr : string) (st st' : LoopState) :
  LiveSymbols st < 2 ^ 32 →
  rtc (steps_to tr) st st' →
  (∀ g fs, functions (summary st) !! g = Some fs →
           functions (summary st') !! g = Some fs
           ∨ (isLive fs = false
              ∧ functions (summary st') !! g = Some (setLive fs true)))
  ∧ (∀ g fs, functions (summary st) !! g = Some fs → isLive fs = true →
             functions (summary st') !! g = Some fs)
  ∧ LiveSymbols st' =
      wrap32 (LiveSymbols st
              + N.of_nat (size (newlyLive (functions (summary st))
                                          (functions (summary st'))))).
Proof.
  intros Hbound Hsteps.
  assert (flagsGrown (functions (summary st)) (functions (summary st'))
          ∧ LiveSymbols st' =
              wrap32 (LiveSymbols st
                      + N.of_nat (size (newlyLive (functions (summary st))
                                          (functions (summary st'))))))
    as [Hgrown Hcount].
  { revert st' Hsteps.
    apply (rtc_ind_r
             (λ s, flagsGrown (functions (summary st)) (functions (summary s))
                   ∧ LiveSymbols s =
                       wrap32 (LiveSymbols st
                               + N.of_nat (size (newlyLive
                                                   (functions (summary st))
                                                   (functions (summary s))))))).
    - split; [apply flagsGrown_refl|].
      rewrite newlyLive_refl, size_empty, N.add_0_r.
      unfold wrap32. by rewrite N.mod_small.
    - intros y z _ Hstep [IHg IHc]. apply step_Some in Hstep.
      destruct Hstep as [t wl fs _ _ _ _ Hsum Hcnt _
                        |t wl fs new added _ Hfs Hdead _ _ Hsum _ _ _ Hcnt].
      + rewrite Hsum, Hcnt. by split.
      + destruct (flagsGrown_mark _ _ _ _ IHg Hfs Hdead) as (Hg' & Hnew & Hfresh).
        rewrite Hsum. simpl. split; [done|].
        rewrite Hcnt, IHc, Hnew, size_union, size_singleton
          by (by apply disjoint_singleton_l).
        rewrite wrap32_succ. f_equal. lia. }
  split; [|split; [|done]].
  - intros g fs Hfs. specialize (Hgrown g). by rewrite Hfs in Hgrown.
  - intros g fs Hfs Hlive. specialize (Hgrown g). rewrite Hfs in Hgrown.
    destruct Hgrown as [?|[? _]]; [done|congruence].
Qed.

Lemma run_steps tr fuel st st' :
  run tr fuel st = Completed st' → rtc (steps_to tr) st st'.
Proof.
  revert st. induction fuel as [|fuel IH]; intros st; [done|].
  simpl. destruct (step tr st) as [e|[st1|]] eqn:Hstep; [done| |].
  - intros Hrun. eapply rtc_l; [exact Hstep|by apply IH].
  - intros [= <-]. apply rtc_refl.
Qed.

Lemma C5_live_flags_only_grow_witness :
  let idx := Examples.chain in
  let st := initialState idx [Examples.G "main"] in
  let st' := Examples.final (markDeadSymbols "" idx [Examples.G "main"]) in
  LiveSymbols st' =
    wrap32 (LiveSymbols st
            + N.of_nat (size (newlyLive (functions (summary st))
                                        (functions (summary st'))))).
Proof.
  cbv zeta.
  refine (proj2 (proj2 (C5_live_flags_only_grow ""
            (initialState Examples.chain [Examples.G "main"])
            (Examples.final
               (markDeadSymbols "" Examples.chain [Examples.G "main"]))
            _ _))).
  - vm_compute. reflexivity.
  - apply (run_steps "" 5%nat). vm_compute. reflexivity.
Defined.

(** ** Independence of the iteration orders *)

Lemma sameIndex_sym idx idx' : sameIndex idx idx' → sameIndex idx' idx.
Proof. intros [Hf Hi]. split; [done|]. intros slot g. by rewrite Hi. Qed.

Lemma pushed_ext idx idx' roots roots' g :
  sameIndex idx idx' →
  (∀ g, g ∈ roots ↔ g ∈ roots') →
  pushed idx roots g → pushed idx' roots' g.
Proof.
  intros [Hf Hi] Hr. induction 1 as [g Hg|g fs g' _ IH Hfs Hdead Hg'].
  - apply pushed_root. by apply Hr.
  - apply (pushed_call _ _ g fs); try done; [by rewrite Hf|].
    unfold succs in *. apply list_elem_of_bind in Hg' as (call & Hg' & Hcall).
    apply list_elem_of_bind. exists call. split; [|done].
    unfold targets in *. destruct (getKind call); [done|by apply Hi..].
Qed.

(** C6: for a fixed merged index and a fixed root set, the set of GUIDs that
    [markDeadSymbols] marks live (or the fatal exit it takes) does not depend
    on the order in which the root set and the implementation sets are
    iterated; and the run always reaches that verdict. *)
Theorem C6_live_set_is_order_independent
    (tr : string) (idx idx' : ModuleSummaryIndex) (roots roots' : list GUID) :
  sameIndex idx idx' →
  (∀ g, g ∈ roots ↔ g ∈ roots') →
  verdict (markDeadSymbols tr idx roots)
  = verdict (markDeadSymbols tr idx' roots')
  ∧ is_Some (verdict (markDeadSymbols tr idx roots)).
Proof.
  intros Hsame Hroots.
  assert (∀ g, pushed idx roots g ↔ pushed idx' roots' g) as Hpushed.
  { intros g. split; apply pushed_ext; try done. by apply sameIndex_sym. }
  destruct Hsame as [Hf Hi].
  pose proof (markDeadSymbols_spec tr idx roots) as H1.
  pose proof (markDeadSymbols_spec tr idx' roots') as H2.
  destruct (markDeadSymbols tr idx roots) as [st|e|] eqn:Hrun; [| |done];
    (split; [|by eexists]);
    destruct (markDeadSymbols tr idx' roots') as [st'|e'|] eqn:Hrun';
    try done; simpl.
  - do 2 f_equal. apply set_eq. intros g. rewrite !elem_of_liveGUIDs.
    rewrite (Completed_liveIn _ _ _ _ Hrun), (Completed_liveIn _ _ _ _ Hrun').
    rewrite Hf. by setoid_rewrite Hpushed.
  - destruct H2 as (_ & g & Hg & Hnone). apply Hpushed in Hg.
    destruct (Completed_present _ _ _ _ Hrun g Hg) as [fs Hfs]. congruence.
  - destruct H1 as (_ & g & Hg & Hnone). apply Hpushed in Hg.
    destruct (Completed_present _ _ _ _ Hrun' g Hg) as [fs Hfs]. congruence.
  - destruct H1 as [-> _], H2 as [-> _]. done.
Qed.

Lemma C6_live_set_is_order_independent_witness :
  let idx := DispatchExample.dispatch [Examples.G "A.m"; Examples.G "B.m"] in
  let idx' := DispatchExample.dispatch [Examples.G "B.m"; Examples.G "A.m"] in
  let roots := [Examples.G "main"; Examples.G "keep"] in
  let roots' := [Examples.G "keep"; Examples.G "main"] in
  verdict (markDeadSymbols "" idx roots)
  = verdict (markDeadSymbols "" idx' roots')
  ∧ is_Some (verdict (markDeadSymbols "" idx roots)).
Proof.
  cbv zeta. apply C6_live_set_is_order_independent.
  - split; [reflexivity|]. intros slot g.
    unfold getImplementations, DispatchExample.dispatch. simpl.
    destruct (decide (mkSlot SlotWitness (Examples.G "P.m") = slot)) as [<-|Hne].
    + rewrite !lookup_singleton_eq. simpl. rewrite !elem_of_cons. tauto.
    + rewrite !lookup_singleton_ne by done. reflexivity.
  - intros g. rewrite !elem_of_cons. tauto.
Defined.

(** ** The frame of the liveness pass *)

Lemma setLive_same (fs : FunctionSummary) : setLive fs (isLive fs) = fs.
Proof. by destruct fs. Qed.

(** C8: a completed run of [markDeadSymbols] leaves the module name, the
    implementations map and the set of function-map keys as they were, and
    changes nothing in a summary but its live flag (GUID, name, preserved
    flag, calls and type references are kept); [usedTypes] is only extended,
    by GUIDs that are pairwise distinct. *)
Theorem C8_liveness_frame
    (tr : string) (idx : ModuleSummaryIndex) (roots : list GUID)
    (st : LoopState) :
  markDeadSymbols tr idx roots = Completed st →
  moduleName (summary st) = moduleName idx
  ∧ implementations (summary st) = implementations idx
  ∧ dom (functions (summary st)) = dom (functions idx)
  ∧ (∀ g fs, functions idx !! g = Some fs →
       ∃ b, functions (summary st) !! g = Some (setLive fs b))
  ∧ (∀ g fs', functions (summary st) !! g = Some fs' →
       ∃ fs, functions idx !! g = Some fs
             ∧ getGUID fs' = getGUID fs ∧ getName fs' = getName fs
             ∧ isPreserved fs' = isPreserved fs ∧ calls fs' = calls fs
             ∧ typeRefs fs' = typeRefs fs)
  ∧ ∃ added, usedTypes (summary st) = usedTypes idx ++ added ∧ NoDup added.
Proof.
  intros Hrun. pose proof (markDeadSymbols_spec tr idx roots) as Hspec.
  rewrite Hrun in Hspec. destruct Hspec as (_ & L & HI & _).
  split; [apply (inv_module _ _ _ _ HI)|].
  split; [apply (inv_impls _ _ _ _ HI)|].
  split; [|split; [|split]].
  - apply set_eq. intros g.
    rewrite !elem_of_dom, (inv_funs _ _ _ _ HI), fmap_is_Some. done.
  - intros g fs Hfs. rewrite (inv_funs _ _ _ _ HI), Hfs. simpl. unfold markIn.
    destruct (decide (g ∈ L)); [by exists true|].
    exists (isLive fs). by rewrite setLive_same.
  - intros g fs' Hfs'. destruct (Inv_lookup _ _ _ _ _ _ HI Hfs') as (fs & Hfs & ->).
    exists fs. split; [done|]. unfold markIn. by destruct (decide (g ∈ L)).
  - destruct (inv_types _ _ _ _ HI) as (added & E & ND & _). eauto.
Qed.

Lemma C8_liveness_frame_witness :
  let st := Examples.final
              (markDeadSymbols "f3" Examples.chain [Examples.G "main"]) in
  implementations (summary st) = implementations Examples.chain
  ∧ dom (functions (summary st)) = dom (functions Examples.chain)
  ∧ ∃ added, usedTypes (summary st) = usedTypes Examples.chain ++ added
             ∧ NoDup added.
Proof.
  cbv zeta.
  pose proof (C8_liveness_frame "f3" Examples.chain [Examples.G "main"]
                (Examples.final
                   (markDeadSymbols "f3" Examples.chain [Examples.G "main"])))
    as H.
  destruct H as (_ & Himpl & Hdom & _ & _ & Hty).
  - vm_compute. reflexivity.
  - auto.
Defined.

(** ** V-tables *)

Lemma extends_refl idx : extends idx idx.
Proof. by repeat split. Qed.

Lemma extends_trans idx1 idx2 idx3 :
  extends idx1 idx2 → extends idx2 idx3 → extends idx1 idx3.
Proof.
  intros (A1 & B1 & C1) (A2 & B2 & C2). repeat split; auto.
Qed.

Lemma ensurePreserved_Some idx F :
  is_Some (functions idx !! getGUIDFromUniqueName F) →
  ∃ idx', ensurePreserved idx F = inr idx'
          ∧ extends idx idx'
          ∧ preservedIn idx' (getGUIDFromUniqueName F).
Proof.
  intros [fs Hfs]. unfold ensurePreserved, getFunctionSummary. rewrite Hfs.
  eexists. split; [reflexivity|]. split; [repeat split|].
  - done.
  - simpl. intros g Hg. destruct (decide (getGUIDFromUniqueName F = g)) as [<-|Hne].
    + rewrite lookup_insert_eq. eauto.
    + by rewrite lookup_insert_ne.
  - simpl. intros g (fs' & Hg & Hp). unfold preservedIn. simpl.
    destruct (decide (getGUIDFromUniqueName F = g)) as [<-|Hne].
    + rewrite lookup_insert_eq. eauto.
    + rewrite lookup_insert_ne by done. eauto.
  - unfold preservedIn. simpl. rewrite lookup_insert_eq. eauto.
Qed.

Lemma addImplementation_extends idx slot g :
  extends idx (addImplementation idx slot g)
  ∧ g ∈ getImplementations (addImplementation idx slot g) slot.
Proof.
  assert (∀ x, x ∈ getImplementations idx slot →
               x ∈ (if decide (g ∈ getImplementations idx slot)
                    then getImplementations idx slot
                    else getImplementations idx slot ++ [g])) as Hold.
  { intros x Hx. destruct (decide _); [done|]. apply elem_of_app. by left. }
  split; [repeat split|].
  - intros slot' x Hx. unfold addImplementation, getImplementations at 1. simpl.
    destruct (decide (slot = slot')) as [<-|Hne].
    + rewrite lookup_insert_eq. simpl. by apply Hold.
    + by rewrite lookup_insert_ne.
  - done.
  - done.
  - unfold addImplementation, getImplementations at 1. simpl.
    rewrite lookup_insert_eq. simpl.
    destruct (decide _); [done|]. apply elem_of_app. right. by left.
Qed.

Section VTables.

Variable Mod : SIL.SILModule.

Lemma indexVTableEntry_ok idx entry :
  (isRuntimeCalled entry || isExternalOverride Mod entry = true →
   is_Some (functions idx !! implGUID entry)) →
  ∃ idx', indexVTableEntry Mod idx entry = inr idx'
          ∧ extends idx idx'
          ∧ implGUID entry
              ∈ getImplementations idx'
                  (VirtualMethodSlot (SIL.getMethod entry) SlotVTable)
          ∧ (isRuntimeCalled entry || isExternalOverride Mod entry = true →
             preservedIn idx' (implGUID entry)).
Proof.
  intros Hpresent. unfold indexVTableEntry.
  assert (∃ idx1, (if isRuntimeCalled entry
                   then ensurePreserved idx (SIL.getImplementation entry)
                   else ret idx) = inr idx1
                  ∧ extends idx idx1
                  ∧ (isRuntimeCalled entry = true →
                     preservedIn idx1 (implGUID entry)))
    as (idx1 & -> & Hext1 & Hp1).
  { destruct (isRuntimeCalled entry).
    - destruct (ensurePreserved_Some idx (SIL.getImplementation entry))
        as (idx1 & ? & ? & ?); [by apply Hpresent|]. by exists idx1.
    - exists idx. split; [done|]. split; [apply extends_refl|done]. }
  simpl.
  assert (∃ idx2, (if isExternalOverride Mod entry
                   then ensurePreserved idx1 (SIL.getImplementation entry)
                   else ret idx1) = inr idx2
                  ∧ extends idx1 idx2
                  ∧ (isExternalOverride Mod entry = true →
                     preservedIn idx2 (implGUID entry)))
    as (idx2 & -> & Hext2 & Hp2).
  { destruct (isExternalOverride Mod entry).
    - destruct (ensurePreserved_Some idx1 (SIL.getImplementation entry))
        as (idx2 & ? & ? & ?); [|by exists idx2].
      apply Hext1, Hpresent. by rewrite orb_true_r.
    - exists idx1. split; [done|]. split; [apply extends_refl|done]. }
  simpl. eexists. split; [reflexivity|].
  destruct (addImplementation_extends idx2
              (VirtualMethodSlot (SIL.getMethod entry) SlotVTable)
              (implGUID entry)) as [Hext3 Hin].
  split; [|split; [exact Hin|]].
  - eapply extends_trans; [exact Hext1|]. by eapply extends_trans.
  - intros Hor. apply Hext3. apply orb_true_iff in Hor as [H|H].
    + by apply Hext2, Hp1.
    + by apply Hp2.
Qed.

(** C7: [indexVTable] registers, for every entry, the implementation's GUID
    under the slot (VTable, GUID of the method declaration), and marks the
    implementation preserved when the method kind is [Deallocator] or
    [IVarDestroyer] and when the entry is an [Override] of a method declared
    in another module.  The pass goes through when the implementations it
    must preserve have a summary. *)
Theorem C7_indexVTable_entries
    (idx : ModuleSummaryIndex) (VT : SIL.SILVTable) :
  (∀ entry, entry ∈ SIL.vtEntries VT →
     isRuntimeCalled entry || isExternalOverride Mod entry = true →
     is_Some (functions idx !! implGUID entry)) →
  ∃ idx',
    indexVTable Mod idx VT = inr idx'
    ∧ ∀ entry, entry ∈ SIL.vtEntries VT →
        implGUID entry
          ∈ getImplementations idx'
              (mkSlot SlotVTable
                 (getGUIDFromUniqueName (SIL.mangle (SIL.getMethod entry))))
        ∧ (SIL.kind (SIL.getMethod entry) = SIL.Deallocator
           ∨ SIL.kind (SIL.getMethod entry) = SIL.IVarDestroyer →
           preservedIn idx' (implGUID entry))
        ∧ (SIL.getKind entry = SIL.Override
           ∧ SIL.getModuleContext (SIL.getMethod entry)
             ≠ SIL.getSwiftModule Mod →
           preservedIn idx' (implGUID entry)).
Proof.
  unfold indexVTable. generalize (SIL.vtEntries VT). clear VT.
  intros entries. revert idx.
  assert (∀ idx, (∀ entry, entry ∈ entries →
             isRuntimeCalled entry || isExternalOverride Mod entry = true →
             is_Some (functions idx !! implGUID entry)) →
          ∃ idx', forM (indexVTableEntry Mod) entries idx = inr idx'
            ∧ extends idx idx'
            ∧ ∀ entry, entry ∈ entries →
                implGUID entry
                  ∈ getImplementations idx'
                      (VirtualMethodSlot (SIL.getMethod entry) SlotVTable)
                ∧ (isRuntimeCalled entry || isExternalOverride Mod entry = true →
                   preservedIn idx' (implGUID entry))) as Hloop.
  { induction entries as [|e entries IH]; intros idx Hpresent.
    - exists idx. split; [done|]. split; [apply extends_refl|].
      intros entry Hin. by apply elem_of_nil in Hin.
    - destruct (indexVTableEntry_ok idx e) as (idx1 & E1 & Hext1 & Hin1 & Hp1).
      { apply Hpresent. by left. }
      destruct (IH idx1) as (idx' & E' & Hext' & Hall).
      { intros entry Hin Htrig. apply Hext1, Hpresent; [by right|done]. }
      exists idx'. simpl. rewrite E1. simpl. split; [done|].
      split; [by eapply extends_trans|].
      intros entry Hin. apply elem_of_cons in Hin as [->|Hin]; [|by apply Hall].
      split; [by apply Hext'|]. intros Htrig. by apply Hext', Hp1. }
  intros idx Hpresent. destruct (Hloop idx Hpresent) as (idx' & E & _ & Hall).
  exists idx'. split; [done|]. intros entry Hin.
  destruct (Hall entry Hin) as [Himpl Hp]. split; [exact Himpl|]. split.
  - intros Hkind. apply Hp. unfold isRuntimeCalled.
    destruct Hkind as [-> | ->]; by rewrite ?orb_true_r.
  - intros [Hkind Hmod]. apply Hp. unfold isExternalOverride.
    rewrite Hkind, (bool_decide_eq_false_2 _ Hmod). by rewrite orb_true_r.
Qed.

End VTables.

Lemma C7_indexVTable_entries_witness :
  let idx := IndexerExample.result
               (indexModule (SIL.mkModule "M2"
                               (SIL.getFunctions IndexerExample.M2) [] [] [])) in
  ∃ idx',
    indexVTable IndexerExample.M2 idx IndexerExample.vtable = inr idx'
    ∧ ∀ entry, entry ∈ SIL.vtEntries IndexerExample.vtable →
        implGUID entry
          ∈ getImplementations idx'
              (mkSlot SlotVTable
                 (getGUIDFromUniqueName (SIL.mangle (SIL.getMethod entry))))
        ∧ (SIL.kind (SIL.getMethod entry) = SIL.Deallocator
           ∨ SIL.kind (SIL.getMethod entry) = SIL.IVarDestroyer →
           preservedIn idx' (implGUID entry))
        ∧ (SIL.getKind entry = SIL.Override
           ∧ SIL.getModuleContext (SIL.getMethod entry)
             ≠ SIL.getSwiftModule IndexerExample.M2 →
           preservedIn idx' (implGUID entry)).
Proof.
  cbv zeta. apply C7_indexVTable_entries.
  intros entry Hin _. simpl in Hin.
  repeat (apply elem_of_cons in Hin as [->|Hin]);
    [vm_compute; eexists; reflexivity..
    |exfalso; exact (proj1 (elem_of_nil _) Hin)].
Defined.

(** ** Key paths *)

(** While no table has been indexed, preserving the implementations of a
    method finds none. *)
Lemma ensurePreservedRef_no_implementations idx Ref Kind :
  implementations idx = ∅ → ensurePreservedRef idx Ref Kind = inr idx.
Proof.
  intros Hempty. unfold ensurePreservedRef, getImplementations.
  by rewrite Hempty, lookup_empty.
Qed.

(** C3, on module M2: the key-path property refers to the function [getter]
    and to the method [E.n].  [indexModule] goes through; [getter] is
    preserved, but [E.n.impl], the implementation registered under the slot
    (VTable, GUID of [E.n]), is not: the key paths are handled before the
    v-tables have registered any implementation. *)
Theorem C3_keypath_method_not_preserved :
  let idx := IndexerExample.result (indexModule IndexerExample.M2) in
  indexModule IndexerExample.M2 = inr idx
  ∧ (isPreserved <$> functions idx !! getGUIDFromUniqueName "getter")
    = Some true
  ∧ getGUIDFromUniqueName "E.n.impl"
      ∈ getImplementations idx
          (mkSlot SlotVTable (getGUIDFromUniqueName "E.n"))
  ∧ (isPreserved <$> functions idx !! getGUIDFromUniqueName "E.n.impl")
    = Some false.
Proof.
  cbv zeta. split; [vm_compute; reflexivity|].
  split; [vm_compute; reflexivity|].
  split; [|vm_compute; reflexivity].
  assert (getImplementations
            (IndexerExample.result (indexModule IndexerExample.M2))
            (mkSlot SlotVTable (getGUIDFromUniqueName "E.n"))
          = [getGUIDFromUniqueName "E.n.impl"]) as ->
    by (vm_compute; reflexivity).
  by left.
Qed.

(** ** The liveness trace *)

(** The first line of the dump of a named node: the name, immediately
    followed by the text, without the GUID. *)
Lemma dump_named (t : LivenessTrace) :
  empty (symbol t) = false →
  dump t = symbol t +:+ "is referenced by:
" +:+ dump_parents (markedBy t).
Proof. unfold dump. by intros ->. Qed.

(** C9, on the chain main, f1, f2, f3 with [-lto-print-live-trace=f3]: the
    ancestors are listed as " - <name> (GUID)", but the first line is the
    name glued to "is referenced by:", with neither a space nor the GUID. *)
Theorem C9_trace_dump_of_chain :
  traceOutput
    (Examples.final (markDeadSymbols "f3" Examples.chain [Examples.G "main"]))
  = "f3is referenced by:
 - f2 (8471399308421654326)
 - f1 (2072045998141807037)
 - main (15822663052811949562)
".
Proof. vm_compute. reflexivity. Qed.

(** ** The second write of the preserved flag *)

Lemma forM_ext {A S} (f g : S → A → M S) (l : list A) (s : S) :
  (∀ s a, f s a = g s a) → forM f l s = forM g l s.
Proof.
  intros Hfg. revert s. induction l as [|a l IH]; intros s; [done|].
  simpl. rewrite Hfg. destruct (g s a); simpl; [done|apply IH].
Qed.

Lemma indexFunction_preserved F fs :
  indexFunction F = inr fs →
  setPreserved fs (shouldPreserveFunction F) = fs.
Proof.
  unfold indexFunction. destruct (forM _ _ _) as [e|s]; simpl; [done|].
  by intros [= <-].
Qed.

(** C10: writing the preserved flag in [indexFunction] and again in
    [indexModule] yields the same module summary (or the same fatal exit) as
    writing it in [indexFunction] only. *)
Theorem C10_second_preserved_write_is_redundant (Mod : SIL.SILModule) :
  indexModule Mod = indexModule_single_write Mod.
Proof.
  unfold indexModule, indexModule_single_write.
  rewrite (forM_ext
             (λ TheSummary F,
                fs <- indexFunction F ;;
                let fs := setPreserved fs (shouldPreserveFunction F) in
                ret (addFunctionSummary TheSummary fs))
             (λ TheSummary F,
                fs <- indexFunction F ;;
                ret (addFunctionSummary TheSummary fs))); [reflexivity|].
  intros s F. destruct (indexFunction F) as [e|fs] eqn:HF; simpl; [done|].
  by rewrite (indexFunction_preserved F fs HF).
Qed.

(** * Further properties of the liveness engine *)

(** ** How a run ends *)

(** X1: [markDeadSymbols] always comes to an end.  It completes exactly when
    every GUID it puts on the worklist has a summary; otherwise it stops at
    the "Bad GUID" exit on such a GUID.  No other fatal exit is ever taken:
    [createVFuncSlot] is never asked for the slot of a static call. *)
Theorem X1_markDeadSymbols_outcome
    (tr : string) (idx : ModuleSummaryIndex) (roots : list GUID) :
  match markDeadSymbols tr idx roots with
  | Completed st =>
      Worklist st = [] ∧ ∀ g, pushed idx roots g → is_Some (functions idx !! g)
  | Aborted e =>
      e = BadGUID ∧ ∃ g, pushed idx roots g ∧ functions idx !! g = None
  | OutOfFuel => False
  end.
Proof.
  pose proof (markDeadSymbols_spec tr idx roots) as Hspec.
  destruct (markDeadSymbols tr idx roots) as [st|e|] eqn:Hrun; [|done|done].
  split; [by destruct Hspec|]. by apply (Completed_present tr idx roots st).
Qed.

(** ** Completeness of the live flags *)

Lemma Completed_pushed_live tr idx roots st g :
  markDeadSymbols tr idx roots = Completed st →
  pushed idx roots g → liveIn (summary st) g.
Proof.
  intros Hrun Hg. apply (Completed_liveIn _ _ _ _ Hrun).
  destruct (Completed_present _ _ _ _ Hrun g Hg) as [fs Hfs]. eauto.
Qed.

Lemma marked_is_pushed tr idx roots st g fs :
  markDeadSymbols tr idx roots = Completed st →
  functions idx !! g = Some fs → isLive fs = false →
  liveIn (summary st) g → pushed idx roots g.
Proof.
  intros Hrun Hfs Hdead Hlive.
  apply (Completed_liveIn _ _ _ _ Hrun) in Hlive as (fs' & Hfs' & [Hwas|Hg]);
    [congruence|done].
Qed.

(** X2: after a completed run every root is live, and every target of every
    call of a function that the run has marked is live: a [Direct] callee, and
    each implementation registered for the slot of a [Witness] or [VTable]
    call. *)
Theorem X2_live_set_is_closed
    (tr : string) (idx : ModuleSummaryIndex) (roots : list GUID)
    (st : LoopState) :
  markDeadSymbols tr idx roots = Completed st →
  (∀ r, r ∈ roots → liveIn (summary st) r)
  ∧ (∀ g fs call g',
       functions idx !! g = Some fs → isLive fs = false →
       liveIn (summary st) g →
       call ∈ calls fs → g' ∈ targets idx call →
       liveIn (summary st) g').
Proof.
  intros Hrun. split.
  - intros r Hr. apply (Completed_pushed_live _ _ _ _ _ Hrun). by apply pushed_root.
  - intros g fs call g' Hfs Hdead Hlive Hcall Hg'.
    apply (Completed_pushed_live _ _ _ _ _ Hrun).
    apply (pushed_call _ _ g fs); try done.
    + by eapply marked_is_pushed.
    + unfold succs. apply list_elem_of_bind. by exists call.
Qed.

Lemma X2_live_set_is_closed_witness :
  liveIn (summary (Examples.final
                     (markDeadSymbols "" Examples.chain [Examples.G "main"])))
         (Examples.G "main").
Proof.
  refine (proj1 (X2_live_set_is_closed "" Examples.chain [Examples.G "main"]
                   (Examples.final
                      (markDeadSymbols "" Examples.chain [Examples.G "main"]))
                   _) (Examples.G "main") _).
  - vm_compute. reflexivity.
  - by left.
Defined.

Lemma fresh_reachable_is_pushed idx roots g :
  (∀ g', ¬ liveIn idx g') → reachable idx roots g → pushed idx roots g.
Proof.
  intros Hfresh (r & Hr & Hreach). revert g Hreach.
  apply (rtc_ind_r (λ g, pushed idx roots g)); [by apply pushed_root|].
  intros y z _ (fs & call & Hfs & Hcall & Hz) Hy.
  apply (pushed_call _ _ y fs); try done.
  - destruct (isLive fs) eqn:Hlive; [|done].
    exfalso. apply (Hfresh y). by exists fs.
  - unfold succs. apply list_elem_of_bind. by exists call.
Qed.

(** X3: on a merged index in which no summary is live yet, a completed run
    marks exactly the GUIDs that are reachable from the root set through the
    call graph; in particular an unreferenced function that is not a root
    stays dead. *)
Theorem X3_fresh_run_marks_exactly_the_reachable
    (tr : string) (idx : ModuleSummaryIndex) (roots : list GUID)
    (st : LoopState) (g : GUID) :
  (∀ g', ¬ liveIn idx g') →
  markDeadSymbols tr idx roots = Completed st →
  liveIn (summary st) g ↔ reachable idx roots g.
Proof.
  intros Hfresh Hrun. split.
  - by apply (fresh_index_live_is_reachable tr).
  - intros Hreach. apply (Completed_pushed_live _ _ _ _ _ Hrun).
    by apply fresh_reachable_is_pushed.
Qed.

Lemma X3_fresh_run_marks_exactly_the_reachable_witness :
  liveIn (summary (Examples.final
                     (markDeadSymbols "" Examples.chain [Examples.G "main"])))
         (Examples.G "g")
  ↔ reachable Examples.chain [Examples.G "main"] (Examples.G "g").
Proof.
  apply (X3_fresh_run_marks_exactly_the_reachable "").
  - intros g' (fs & Hfs & Hlive).
    apply elem_of_map_to_list in Hfs. vm_compute in Hfs.
    repeat (apply elem_of_cons in Hfs as [[= -> ->]|Hfs];
            [simpl in Hlive; discriminate|]).
    by apply elem_of_nil in Hfs.
  - vm_compute. reflexivity.
Defined.

(** ** Running the pass again *)

(** A worklist that only holds entries of live functions is emptied without
    touching the index. *)
Lemma run_all_live tr fuel st :
  (∀ t, t ∈ Worklist st → liveIn (summary st) (guid t)) →
  (length (Worklist st) < fuel)%nat →
  ∃ st', run tr fuel st = Completed st'
         ∧ summary st' = summary st
         ∧ LiveSymbols st' = LiveSymbols st
         ∧ UseMarkedTypes st' = UseMarkedTypes st.
Proof.
  revert st. induction fuel as [|fuel IH]; intros st Hlive Hlen; [lia|].
  simpl. unfold step. destruct (Worklist st) as [|t wl] eqn:Hwl.
  - by exists st.
  - destruct (Hlive t) as (fs & Hfs & Hfl); [by left|].
    unfold getFunctionSummary. rewrite Hfs, Hfl. unfold ret.
    match goal with |- context [run tr fuel ?s] =>
      destruct (IH s) as (st' & E & ? & ? & ?) end.
    + simpl. intros t' Ht'. apply Hlive. by right.
    + simpl in *. lia.
    + exists st'. by rewrite E.
Qed.

(** X4: running the pass a second time on the index a completed run has
    left, with the same root set, completes and changes nothing: no flag, no
    used type, and the counter of newly live symbols stays at zero. *)
Theorem X4_second_run_changes_nothing
    (tr tr' : string) (idx : ModuleSummaryIndex) (roots : list GUID)
    (st : LoopState) :
  markDeadSymbols tr idx roots = Completed st →
  ∃ st', markDeadSymbols tr' (summary st) roots = Completed st'
         ∧ summary st' = summary st
         ∧ LiveSymbols st' = 0.
Proof.
  intros Hrun. unfold markDeadSymbols at 1.
  destruct (run_all_live tr'
              (S (length roots + potential (summary st)))
              (initialState (summary st) roots)) as (st' & E & Hsum & Hcnt & _).
  - intros t Ht. apply (Completed_pushed_live _ _ _ _ _ Hrun), pushed_root.
    apply (list_elem_of_fmap_2 guid) in Ht.
    change (guid t ∈ map guid (Worklist (initialState (summary st) roots))) in Ht.
    rewrite initialState_guids in Ht. by rewrite elem_of_reverse in Ht.
  - rewrite <- (length_map guid), initialState_guids, length_reverse. lia.
  - exists st'. by rewrite E.
Qed.

Lemma X4_second_run_changes_nothing_witness :
  let st := Examples.final
              (markDeadSymbols "" Examples.chain [Examples.G "main"]) in
  ∃ st', markDeadSymbols "f3" (summary st) [Examples.G "main"] = Completed st'
         ∧ summary st' = summary st
         ∧ LiveSymbols st' = 0.
Proof.
  cbv zeta. apply (X4_second_run_changes_nothing "" "f3" Examples.chain).
  vm_compute. reflexivity.
Defined.

(** ** Traces and used types along a run *)

Lemma empty_true (s : string) : empty s = true → s = "".
Proof. by destruct s. Qed.

Lemma empty_false (s : string) : empty s = false → s ≠ "".
Proof. by destruct s. Qed.

Lemma fold_markType_marked trs marked idx :
  (fold_left markType trs (marked, idx)).1
  = marked ∪ list_to_set (Guid <$> trs).
Proof.
  revert marked idx. induction trs as [|t trs IH]; intros marked idx.
  - simpl. by rewrite union_empty_r_L.
  - simpl. unfold markType at 2. simpl.
    destruct (decide (Guid t ∈ marked)) as [Hin|Hout].
    + rewrite IH. apply set_eq. intros y. set_unfold. intuition congruence.
    + rewrite IH. apply set_eq. intros y. set_unfold. tauto.
Qed.

(** The entries the calls loop pushes, one by one. *)
Lemma forM_pushCall_children idx trace cs wl :
  ∃ new, forM (pushCall idx trace) cs wl = inr (new ++ wl)
         ∧ Forall (λ t, ∃ call, call ∈ cs ∧ guid t ∈ targets idx call
                         ∧ t = newTrace (Some trace) (guid t) (reasonFor call))
                  new.
Proof.
  revert wl. induction cs as [|c cs IH]; intros wl.
  - exists []. split; [reflexivity|constructor].
  - assert (∃ new1, pushCall idx trace wl c = inr (new1 ++ wl)
                    ∧ Forall (λ t, guid t ∈ targets idx c
                                ∧ t = newTrace (Some trace) (guid t) (reasonFor c))
                             new1) as (new1 & E1 & F1).
    { assert (∀ (l : list GUID) (acc : list LivenessTrace),
               ∃ n, fold_left (λ wl Impl,
                        newTrace (Some trace) Impl IndirectReferenced :: wl) l acc
                    = n ++ acc
                    ∧ Forall (λ t, guid t ∈ l
                                ∧ t = newTrace (Some trace) (guid t)
                                               IndirectReferenced) n) as Hfold.
      { induction l as [|x l IHl]; intros acc; [exists []; by split|].
        destruct (IHl (newTrace (Some trace) x IndirectReferenced :: acc))
          as (n & En & Fn).
        exists (n ++ [newTrace (Some trace) x IndirectReferenced]). split.
        - simpl. rewrite En, <- app_assoc. reflexivity.
        - apply Forall_app. split.
          + eapply Forall_impl; [exact Fn|]. intros t [Ht ?]. split; [by right|done].
          + constructor; [|constructor]. split; [by left|done]. }
      unfold pushCall, targets, reasonFor, createVFuncSlot.
      destruct (getKind c); simpl.
      - exists [newTrace (Some trace) (getCallee c) StaticReferenced].
        split; [reflexivity|]. constructor; [|constructor]. split; [by left|done].
      - destruct (Hfold (getImplementations idx (mkSlot SlotVTable (getCallee c))) wl)
          as (n & -> & Fn). by exists n.
      - destruct (Hfold (getImplementations idx (mkSlot SlotWitness (getCallee c))) wl)
          as (n & -> & Fn). by exists n. }
    destruct (IH (new1 ++ wl)) as (new2 & E2 & F2).
    exists (new2 ++ new1). split.
    + simpl. rewrite E1. simpl. rewrite E2, <- app_assoc. reflexivity.
    + apply Forall_app. split.
      * eapply Forall_impl; [exact F2|]. intros t (call & ? & ? & ?).
        exists call. split; [by right|done].
      * eapply Forall_impl; [exact F1|]. intros t (? & ?).
        exists c. split; [by left|done].
Qed.

(** One iteration, with the traces it builds and the types it marks. *)
Lemma step_detail tr st st' :
  step tr st = inr (Some st') →
  ∃ t0 wl fs,
    Worklist st = t0 :: wl
    ∧ functions (summary st) !! guid t0 = Some fs
    ∧ dumpTarget st' =
        (if negb (empty (getName fs)) && bool_decide (tr = getName fs)
         then Some (if negb (empty (getName fs))
                    then setName t0 (getName fs) else t0)
         else dumpTarget st)
    ∧ (isLive fs = false →
       UseMarkedTypes st' =
         UseMarkedTypes st ∪ list_to_set (Guid <$> typeRefs fs)
       ∧ ∃ new, Worklist st' = new ++ wl
           ∧ Forall (λ t, ∃ call, call ∈ calls fs
                           ∧ guid t ∈ targets (summary st') call
                           ∧ t = newTrace
                                   (Some (if negb (empty (getName fs))
                                          then setName t0 (getName fs) else t0))
                                   (guid t) (reasonFor call)) new).
Proof.
  unfold step. destruct (Worklist st) as [|t wl] eqn:Hwl; [done|].
  unfold getFunctionSummary.
  destruct (functions (summary st) !! guid t) as [fs|] eqn:Hfs; [|done].
  destruct (isLive fs) eqn:Hlive.
  - intros [= <-]. exists t, wl, fs. simpl.
    split; [done|]. split; [done|]. split; [done|]. intros ?. congruence.
  - pose proof (fold_markType_marked (typeRefs fs) (UseMarkedTypes st)
                  (withFunctions (summary st)
                     (<[guid t:=setLive fs true]> (functions (summary st)))))
      as Hmarked.
    destruct (fold_left markType _ _) as [marked s2]. simpl in Hmarked.
    match goal with |- context [forM (pushCall ?s ?trc) _ _] =>
      destruct (forM_pushCall_children s trc (calls fs) wl) as (new & -> & Hnew) end.
    simpl. intros [= <-]. exists t, wl, fs. simpl.
    split; [done|]. split; [done|]. split; [done|]. intros _.
    split; [done|]. by exists new.
Qed.

Lemma validTrace_setName idx roots t name :
  validTrace idx roots t → validTrace idx roots (setName t name).
Proof.
  intros [g s Hg|p s g call fs Hp Hfs Hsym Hcall Hg]; unfold setName; simpl.
  - by constructor.
  - by econstructor.
Qed.

Lemma validTrace_reachable idx roots t :
  validTrace idx roots t → reachable idx roots (guid t).
Proof.
  induction 1 as [g s Hg|p s g call fs _ (r & Hr & Hreach) Hfs _ Hcall Hg].
  - exists g. split; [done|apply rtc_refl].
  - exists r. split; [done|]. simpl. eapply rtc_r; [exact Hreach|].
    by exists fs, call.
Qed.

Lemma targets_ext idx idx' call :
  implementations idx' = implementations idx →
  targets idx' call = targets idx call.
Proof. unfold targets, getImplementations. by intros ->. Qed.

Lemma initial_worklist_entries roots t :
  t ∈ fold_left (λ wl g, newTrace None g Preserved :: wl) roots [] →
  ∃ g, g ∈ roots ∧ t = newTrace None g Preserved.
Proof.
  assert (∀ acc, t ∈ fold_left (λ wl g, newTrace None g Preserved :: wl) roots acc →
                 t ∈ acc ∨ ∃ g, g ∈ roots ∧ t = newTrace None g Preserved) as H.
  { induction roots as [|r roots IH]; intros acc Ht; [by left|].
    simpl in Ht. apply IH in Ht as [Ht|(g & Hg & ->)].
    - apply elem_of_cons in Ht as [->|Ht]; [|by left].
      right. exists r. split; [by left|done].
    - right. exists g. split; [by right|done]. }
  intros Ht. apply H in Ht as [Ht|Ht]; [by apply elem_of_nil in Ht|done].
Qed.

Lemma liveIn_popped st st' g :
  popped st st' → liveIn (summary st) g → liveIn (summary st') g.
Proof.
  intros [t wl fs _ _ _ _ Hsum _ _|t wl fs new added _ Hfs _ _ _ Hsum _ _ _ _].
  - by rewrite Hsum.
  - apply (liveIn_insert _ _ (guid t) fs); [by rewrite Hsum|done].
Qed.

Lemma popped_head_live st st' t wl :
  popped st st' → Worklist st = t :: wl → liveIn (summary st') (guid t).
Proof.
  intros [t1 wl1 fs Hwl1 Hfs Hlive _ Hsum _ _
         |t1 wl1 fs new added Hwl1 Hfs _ _ _ Hsum _ _ _ _] Hwl;
    rewrite Hwl in Hwl1; injection Hwl1 as <- <-; rewrite Hsum.
  - by exists fs.
  - exists (setLive fs true). simpl. by rewrite lookup_insert_eq.
Qed.

Section TraceInvariant.

Variable tr : string.
Variable idx0 : ModuleSummaryIndex.
Variable roots : list GUID.

Lemma TraceInv_initial : TraceInv tr idx0 roots (initialState idx0 roots).
Proof.
  split; simpl.
  - intros t Ht. apply initial_worklist_entries in Ht as (g & Hg & ->).
    split; [by constructor|done].
  - done.
  - done.
  - intros x. split; [intros Hx; by apply elem_of_empty in Hx|].
    intros (g & fs & typeRef & (Hfs & Hdead & fs' & Hfs' & Hlive) & _).
    simpl in Hfs'. congruence.
  - intros g fs (Hfs & Hdead & fs' & Hfs' & Hlive). simpl in Hfs'. congruence.
Qed.

Lemma markedIn_popped st st' L g fs :
  Inv idx0 roots st L → popped st st' →
  markedIn idx0 st' g fs ↔
    markedIn idx0 st g fs
    ∨ (∃ t wl, Worklist st = t :: wl ∧ g = guid t
               ∧ functions (summary st) !! g = Some fs ∧ isLive fs = false).
Proof.
  intros HI [t wl fs1 Hwl Hfs1 Hlive1 _ Hsum _ _
            |t wl fs1 new added Hwl Hfs1 Hdead1 _ _ Hsum _ _ _ _];
    unfold markedIn, liveIn; rewrite Hsum; simpl.
  - split; [by left|]. intros [?|(t' & wl' & Hwl' & -> & Hg & Hdead)]; [done|].
    rewrite Hwl in Hwl'. injection Hwl' as <- <-. congruence.
  - destruct (Inv_dead _ _ _ _ _ _ HI Hfs1 Hdead1) as [_ Hfs0].
    destruct (decide (guid t = g)) as [<-|Hne].
    + rewrite lookup_insert_eq. split.
      * intros (Hfs & Hdead & _). right. exists t, wl.
        repeat split; try done. congruence.
      * intros [(Hfs & Hdead & _)|(_ & _ & _ & _ & Hfs & Hdead)].
        -- repeat split; try done. eauto.
        -- repeat split; try done; [congruence|eauto].
    + rewrite lookup_insert_ne by done. split; [by left|].
      intros [?|(t' & wl' & Hwl' & -> & _)]; [done|].
      rewrite Hwl in Hwl'. by injection Hwl' as <- <-.
Qed.

Lemma TraceInv_step st st' L :
  Inv idx0 roots st L → TraceInv tr idx0 roots st →
  step tr st = inr (Some st') → TraceInv tr idx0 roots st'.
Proof.
  intros HI HT Hstep.
  pose proof (step_Some _ _ _ Hstep) as Hpop.
  pose proof (λ g fs, markedIn_popped st st' L g fs HI Hpop) as Hmarked.
  destruct (Inv_popped _ _ _ _ _ HI Hpop) as [L' HI'].
  destruct (step_detail _ _ _ Hstep) as (t0 & wl & fs & Hwl & Hfs & Htarget & Hdeadcase).
  destruct (Inv_lookup _ _ _ _ _ _ HI Hfs) as (fs0 & Hfs0 & Efs).
  assert (getName fs = getName fs0 ∧ calls fs = calls fs0
          ∧ typeRefs fs = typeRefs fs0) as (Ename & Ecalls & Etypes).
  { rewrite Efs. unfold markIn. by destruct (decide _). }
  destruct (tinv_worklist _ _ _ _ HT t0) as [Hvalid0 Hsym0];
    [rewrite Hwl; by left|].
  set (trace := if negb (empty (getName fs)) then setName t0 (getName fs) else t0)
    in *.
  assert (validTrace idx0 roots trace ∧ guid trace = guid t0
          ∧ symbol trace = getName fs0) as (Hvalid & Hguid & Hsym).
  { unfold trace. destruct (empty (getName fs)) eqn:Hempty; simpl.
    - split; [done|]. split; [done|].
      rewrite Hsym0, <- Ename. symmetry. by apply empty_true.
    - split; [by apply validTrace_setName|]. split; [by destruct t0|].
      by destruct t0. }
  split.
  - (* the worklist *)
    intros t Ht.
    destruct Hpop as [t1 wl1 fs1 Hwl1 _ _ Hwl' _ _ _
                     |t1 wl1 fs1 new1 added Hwl1 Hfs1 Hdead1 _ _ _ _ _ _ _].
    + apply (tinv_worklist _ _ _ _ HT). rewrite Hwl1, <- Hwl'. by right.
    + rewrite Hwl in Hwl1. injection Hwl1 as <- <-.
      assert (fs1 = fs) as -> by congruence.
      destruct (Hdeadcase Hdead1) as (_ & new & Hwl' & Hnew).
      rewrite Hwl' in Ht. apply elem_of_app in Ht as [Ht|Ht].
      * rewrite Forall_forall in Hnew.
        destruct (Hnew t Ht) as (call & Hcall & Hg & ->).
        split; [|done]. unfold newTrace.
        apply (valid_child _ _ trace _ _ call fs0); try done.
        -- by rewrite Hguid.
        -- by rewrite <- Ecalls.
        -- by rewrite <- (targets_ext _ (summary st') call (inv_impls _ _ _ _ HI')).
      * apply (tinv_worklist _ _ _ _ HT). rewrite Hwl. by right.
  - (* the dump target *)
    intros t Ht. rewrite Htarget in Ht.
    destruct (negb (empty (getName fs)) && bool_decide (tr = getName fs)) eqn:Hcond.
    + injection Ht as <-. apply andb_true_iff in Hcond as [Hnamed Heq].
      apply bool_decide_eq_true in Heq. apply negb_true_iff in Hnamed.
      split; [done|]. split; [by rewrite Hsym, <- Ename|].
      split; [rewrite Heq; by apply empty_false|].
      exists fs0. rewrite Hguid. split; [done|]. by rewrite <- Ename.
    + by apply (tinv_target _ _ _ _ HT).
  - (* the dump target is live *)
    intros t Ht. rewrite Htarget in Ht.
    destruct (negb (empty (getName fs)) && bool_decide (tr = getName fs)).
    + injection Ht as <-. rewrite Hguid. by apply (popped_head_live st st' t0 wl).
    + apply (liveIn_popped st); [done|]. by apply (tinv_target_live _ _ _ _ HT).
  - (* the marked types *)
    intros x.
    assert ((∃ g fs' typeRef, markedIn idx0 st' g fs'
                              ∧ typeRef ∈ typeRefs fs' ∧ Guid typeRef = x)
            ↔ x ∈ UseMarkedTypes st
              ∨ (isLive fs = false ∧ x ∈ Guid <$> typeRefs fs)) as ->.
    { rewrite (tinv_types _ _ _ _ HT). split.
      - intros (g & fs' & typeRef & Hm & Hin & Hx).
        apply Hmarked in Hm as [Hm|(t' & wl' & Hwl' & -> & Hg & Hdead)].
        + left. by exists g, fs', typeRef.
        + right. rewrite Hwl in Hwl'. injection Hwl' as <- <-.
          assert (fs' = fs) as -> by congruence. split; [done|].
          rewrite <- Hx. by apply list_elem_of_fmap_2.
      - intros [(g & fs' & typeRef & Hm & Hin & Hx)|[Hdead Hx]].
        + exists g, fs', typeRef. split; [|done]. apply Hmarked. by left.
        + apply list_elem_of_fmap in Hx as (typeRef & -> & Hin).
          exists (guid t0), fs, typeRef. split; [|done].
          apply Hmarked. right. by exists t0, wl. }
    destruct (isLive fs) eqn:Hlive.
    + destruct Hpop as [t1 wl1 fs1 Hwl1 _ _ _ _ _ Hty
                       |t1 wl1 fs1 new1 added Hwl1 Hfs1 Hdead1 _ _ _ _ _ _ _].
      * rewrite Hty. split; [by left|]. by intros [?|[? _]].
      * rewrite Hwl in Hwl1. injection Hwl1 as <- <-. congruence.
    + destruct (Hdeadcase eq_refl) as (-> & _).
      rewrite elem_of_union, elem_of_list_to_set. split; [|tauto].
      intros [?|?]; [by left|by right].
  - (* the requested symbol has been seen *)
    intros g fs' Hm Hname Hne.
    apply Hmarked in Hm as [Hm|(t' & wl' & Hwl' & -> & Hg & Hdead)].
    + rewrite Htarget. destruct (_ && _); [by eexists|].
      by apply (tinv_found _ _ _ _ HT g fs').
    + rewrite Hwl in Hwl'. injection Hwl' as <- <-.
      assert (fs' = fs) as -> by congruence.
      rewrite Htarget, Hname, bool_decide_eq_true_2 by done.
      destruct (empty tr) eqn:Hempty; [by apply empty_true in Hempty|].
      by eexists.
Qed.

Lemma run_TraceInv fuel st st' L :
  Inv idx0 roots st L → TraceInv tr idx0 roots st →
  run tr fuel st = Completed st' → TraceInv tr idx0 roots st'.
Proof.
  revert st L. induction fuel as [|fuel IH]; intros st L HI HT; [done|].
  simpl. destruct (step tr st) as [e|[st1|]] eqn:Hstep; [done| |].
  - pose proof (step_Some _ _ _ Hstep) as Hpop.
    destruct (Inv_popped _ _ _ _ _ HI Hpop) as [L1 HI1].
    apply (IH st1 L1 HI1). by apply (TraceInv_step st st1 L).
  - by intros [= <-].
Qed.

Lemma Completed_TraceInv st :
  markDeadSymbols tr idx0 roots = Completed st → TraceInv tr idx0 roots st.
Proof.
  apply (run_TraceInv _ _ _ ∅ (Inv_initial idx0 roots) TraceInv_initial).
Qed.

End TraceInvariant.

(** X5: the used types after a completed run are the ones the index already
    had and the types referenced by the functions the run has marked; a type
    referenced only by functions that stay dead, or that were live before, is
    not added. *)
Theorem X5_used_types_of_a_run
    (tr : string) (idx : ModuleSummaryIndex) (roots : list GUID)
    (st : LoopState) (x : GUID) :
  markDeadSymbols tr idx roots = Completed st →
  x ∈ usedTypes (summary st)
  ↔ x ∈ usedTypes idx
    ∨ ∃ g fs typeRef,
        functions idx !! g = Some fs ∧ isLive fs = false
        ∧ liveIn (summary st) g
        ∧ typeRef ∈ typeRefs fs ∧ Guid typeRef = x.
Proof.
  intros Hrun. pose proof (Completed_TraceInv _ _ _ _ Hrun) as HT.
  pose proof (markDeadSymbols_spec tr idx roots) as Hspec.
  rewrite Hrun in Hspec. destruct Hspec as (_ & L & HI & _).
  destruct (inv_types _ _ _ _ HI) as (added & -> & _ & Hadded).
  rewrite elem_of_app, Hadded, (tinv_types _ _ _ _ HT). unfold markedIn.
  split; (intros [?|(g & fs & typeRef & ?)]; [by left|right]);
    exists g, fs, typeRef; tauto.
Qed.

Lemma X5_used_types_of_a_run_witness :
  9 ∈ usedTypes (summary (Examples.final
                            (markDeadSymbols "" Examples.chain
                                             [Examples.G "main"])))
  ↔ 9 ∈ usedTypes Examples.chain
    ∨ ∃ g fs typeRef,
        functions Examples.chain !! g = Some fs ∧ isLive fs = false
        ∧ liveIn (summary (Examples.final
                             (markDeadSymbols "" Examples.chain
                                              [Examples.G "main"]))) g
        ∧ typeRef ∈ typeRefs fs ∧ Guid typeRef = 9.
Proof.
  apply (X5_used_types_of_a_run "" Examples.chain [Examples.G "main"]).
  vm_compute. reflexivity.
Defined.

(** X6: the trace kept for [-lto-print-live-trace] tells a true story.  Its
    node carries the requested, non-empty name, which is the name of the
    summary of its GUID; its chain of parents ends at a root marked
    [Preserved]; every node was pushed for a call of its parent's summary
    (the reason says whether the call was direct), and shows the parent under
    the name of that summary.  So the GUID is reachable from the root set,
    and it is live after the run. *)
Theorem X6_dump_target_is_a_call_chain
    (tr : string) (idx : ModuleSummaryIndex) (roots : list GUID)
    (st : LoopState) (t : LivenessTrace) :
  markDeadSymbols tr idx roots = Completed st →
  dumpTarget st = Some t →
  symbol t = tr ∧ tr ≠ ""
  ∧ (∃ fs, functions idx !! guid t = Some fs ∧ getName fs = tr)
  ∧ validTrace idx roots t
  ∧ reachable idx roots (guid t)
  ∧ liveIn (summary st) (guid t).
Proof.
  intros Hrun Ht. pose proof (Completed_TraceInv _ _ _ _ Hrun) as HT.
  destruct (tinv_target _ _ _ _ HT t Ht) as (Hvalid & Hsym & Hne & fs & Hfs & Hname).
  split; [done|]. split; [done|]. split; [eauto|]. split; [done|].
  split; [by apply validTrace_reachable|].
  by apply (tinv_target_live _ _ _ _ HT).
Qed.

Lemma X6_dump_target_is_a_call_chain_witness :
  let st := Examples.final
              (markDeadSymbols "f3" Examples.chain [Examples.G "main"]) in
  ∃ t, dumpTarget st = Some t
       ∧ validTrace Examples.chain [Examples.G "main"] t
       ∧ reachable Examples.chain [Examples.G "main"] (guid t).
Proof.
  cbv zeta.
  destruct (dumpTarget
              (Examples.final
                 (markDeadSymbols "f3" Examples.chain [Examples.G "main"])))
    as [t|] eqn:Ht; [|vm_compute in Ht; discriminate].
  exists t. split; [done|].
  destruct (X6_dump_target_is_a_call_chain "f3" Examples.chain
              [Examples.G "main"]
              (Examples.final
                 (markDeadSymbols "f3" Examples.chain [Examples.G "main"])) t)
    as (_ & _ & _ & Hvalid & Hreach & _); [vm_compute; reflexivity|exact Ht|].
  by split.
Defined.

(** X7: without [-lto-print-live-trace] (the option defaults to the empty
    string) a completed run keeps no trace and prints nothing, whatever the
    names in the index, empty ones included. *)
Theorem X7_no_option_no_trace
    (idx : ModuleSummaryIndex) (roots : list GUID) (st : LoopState) :
  markDeadSymbols "" idx roots = Completed st →
  dumpTarget st = None ∧ traceOutput st = "".
Proof.
  intros Hrun. pose proof (Completed_TraceInv _ _ _ _ Hrun) as HT.
  assert (dumpTarget st = None) as Hnone.
  { destruct (dumpTarget st) as [t|] eqn:Ht; [|done].
    by destruct (tinv_target _ _ _ _ HT t Ht) as (_ & _ & Hne & _). }
  split; [done|]. unfold traceOutput. by rewrite Hnone.
Qed.

Lemma X7_no_option_no_trace_witness :
  traceOutput (Examples.final
                 (markDeadSymbols "" Examples.chain [Examples.G "main"])) = "".
Proof.
  refine (proj2 (X7_no_option_no_trace Examples.chain [Examples.G "main"]
                   (Examples.final
                      (markDeadSymbols "" Examples.chain [Examples.G "main"]))
                   _)).
  vm_compute. reflexivity.
Defined.

(** X8: when a function whose name is the requested, non-empty symbol is
    marked by a completed run, a trace is printed, and it begins with that
    symbol immediately followed by the text "is referenced by:" and a line
    break, then the lines of the ancestors. *)
Theorem X8_requested_symbol_is_traced
    (tr : string) (idx : ModuleSummaryIndex) (roots : list GUID)
    (st : LoopState) (g : GUID) (fs : FunctionSummary) :
  markDeadSymbols tr idx roots = Completed st →
  tr ≠ "" →
  functions idx !! g = Some fs → isLive fs = false → getName fs = tr →
  liveIn (summary st) g →
  ∃ t, dumpTarget st = Some t
       ∧ traceOutput st = tr +:+ "is referenced by:
" +:+ dump_parents (markedBy t).
Proof.
  intros Hrun Hne Hfs Hdead Hname Hlive.
  pose proof (Completed_TraceInv _ _ _ _ Hrun) as HT.
  destruct (tinv_found _ _ _ _ HT g fs) as [t Ht]; try done.
  exists t. split; [done|].
  destruct (tinv_target _ _ _ _ HT t Ht) as (_ & Hsym & _).
  unfold traceOutput. rewrite Ht, dump_named; [by rewrite Hsym|].
  rewrite Hsym. by destruct tr.
Qed.

Lemma X8_requested_symbol_is_traced_witness :
  let st := Examples.final
              (markDeadSymbols "f2" Examples.chain [Examples.G "main"]) in
  ∃ t, dumpTarget st = Some t
       ∧ traceOutput st = "f2" +:+ "is referenced by:
" +:+ dump_parents (markedBy t).
Proof.
  cbv zeta.
  apply (X8_requested_symbol_is_traced "f2" Examples.chain [Examples.G "main"]
           _ (Examples.G "f2")
           (Examples.fn "f2" [Examples.direct "f3"] false false)).
  - vm_compute. reflexivity.
  - discriminate.
  - vm_compute. reflexivity.
  - reflexivity.
  - reflexivity.
  - exists (Examples.fn "f2" [Examples.direct "f3"] true false).
    split; [vm_compute; reflexivity|done].
Defined.

(** * The driver *)

Section DriverFacts.

Variable MemoryBuffer : Type.
Variable getFile : string → option MemoryBuffer.
Variable loadModuleSummaryIndex :
  MemoryBuffer → ModuleSummaryIndex → bool * ModuleSummaryIndex.
Variable iterate : gset GUID → list GUID.

Lemma loadInputs_app l1 l2 s :
  loadInputs MemoryBuffer getFile loadModuleSummaryIndex (l1 ++ l2) s
  = match loadInputs MemoryBuffer getFile loadModuleSummaryIndex l1 s with
    | Loaded s' => loadInputs MemoryBuffer getFile loadModuleSummaryIndex l2 s'
    | r => r
    end.
Proof.
  revert s. induction l1 as [|f l1 IH]; intros s; [done|].
  simpl. destruct (getFile f) as [buf|]; [|done].
  destruct (loadModuleSummaryIndex buf s) as [[] s']; [done|apply IH].
Qed.

(** X9: if an input file cannot be opened while the files before it have
    loaded, the driver returns 1 with the "no such file" diagnostic for that
    file and nothing else: the files after it are not looked at, no liveness
    is run and no summary is written. *)
Theorem X9_missing_input_file
    (tr : string) (before after : list string) (Filename : string)
    (TheSummary : ModuleSummaryIndex) :
  loadInputs MemoryBuffer getFile loadModuleSummaryIndex before emptyIndex
  = Loaded TheSummary →
  getFile Filename = None →
  cross_module_opt_main MemoryBuffer getFile loadModuleSummaryIndex iterate
    tr (before ++ Filename :: after)
  = Return 1 [error_no_such_file_or_directory Filename] None "".
Proof.
  intros Hbefore Hmissing. unfold cross_module_opt_main.
  rewrite loadInputs_app, Hbefore. simpl. rewrite Hmissing.
  by destruct before.
Qed.


End DriverFacts.

Lemma X9_missing_input_file_witness :
  cross_module_opt_main ModuleSummaryIndex DriverExample.files
    DriverExample.load elements "" (["a.modsum"] ++ "c.modsum" :: ["b.modsum"])
  = Return 1 [error_no_such_file_or_directory "c.modsum"] None "".
Proof.
  apply (X9_missing_input_file ModuleSummaryIndex DriverExample.files
           DriverExample.load elements "" ["a.modsum"] ["b.modsum"] "c.modsum"
           (withFunctions emptyIndex (∅ ∪ functions Examples.chain))).
  - reflexivity.
  - reflexivity.
Defined.


(** * The indexer *)

(** ** Loops that can abort *)

Lemma forM_app {A S} (body : S → A → M S) (l1 l2 : list A) (s : S) :
  forM body (l1 ++ l2) s = (s' <- forM body l1 s ;; forM body l2 s').
Proof.
  revert s. induction l1 as [|a l1 IH]; intros s; [done|].
  simpl. destruct (body s a); simpl; [done|apply IH].
Qed.

(** A loop goes through exactly when each of its steps does, provided the
    steps keep what their success depends on. *)
Lemma forM_succeeds {A S} (body : S → A → M S) (I : S → Prop) (ok : A → Prop)
    (l : list A) (s : S) :
  (∀ s a, I s → (∃ s', body s a = inr s') ↔ ok a) →
  (∀ s a s', I s → body s a = inr s' → I s') →
  I s →
  ((∃ s', forM body l s = inr s') ↔ Forall ok l)
  ∧ (∀ s', forM body l s = inr s' → I s').
Proof.
  intros Hok Hkeep. revert s. induction l as [|a l IH]; intros s HI.
  - split; [|by intros s' [= <-]]. split; [constructor|]. intros _. by exists s.
  - simpl. destruct (body s a) as [e|s1] eqn:Hbody; simpl.
    + split; [|done]. split; [by intros [? ?]|].
      intros Hall. apply Forall_cons in Hall as [Ha _].
      apply (Hok s a HI) in Ha as [s' Hs']. congruence.
    + destruct (IH s1 (Hkeep _ _ _ HI Hbody)) as [IH1 IH2].
      split; [|done]. rewrite IH1, Forall_cons. split; [|tauto].
      intros Hall. split; [|done]. apply (Hok s a HI). eauto.
Qed.

(** What holds after a loop: what held before, or what a step has added. *)
Lemma forM_adds {A S F} (body : S → A → M S) (I : S → Prop)
    (P : S → F → Prop) (adds : A → F → Prop) (l : list A) (s s' : S) :
  (∀ s a s', I s → body s a = inr s' →
     I s' ∧ ∀ f, P s' f ↔ P s f ∨ adds a f) →
  I s →
  forM body l s = inr s' →
  I s' ∧ ∀ f, P s' f ↔ P s f ∨ ∃ a, a ∈ l ∧ adds a f.
Proof.
  intros Hstep. revert s. induction l as [|a l IH]; intros s HI.
  - intros [= <-]. split; [done|]. intros f. split; [by left|].
    intros [?|(a & Ha & _)]; [done|by apply elem_of_nil in Ha].
  - simpl. destruct (body s a) as [e|s1] eqn:Hbody; simpl; [done|].
    intros Hrest. destruct (Hstep _ _ _ HI Hbody) as [HI1 H1].
    destruct (IH s1 HI1 Hrest) as [HI' H']. split; [done|].
    intros f. rewrite H', H1. split.
    + intros [[?|?]|(a' & Ha' & ?)]; [by left|right..].
      * exists a. split; [by left|done].
      * exists a'. split; [by right|done].
    + intros [?|(a' & Ha' & ?)]; [by left; left|].
      apply elem_of_cons in Ha' as [->|Ha']; [by left; right|].
      right. by exists a'.
Qed.

(** A relation that every step respects holds across the loop. *)
Lemma forM_rel {A S} (body : S → A → M S) (R : S → S → Prop)
    (l : list A) (s s' : S) :
  (∀ s, R s s) →
  (∀ s1 s2 s3, R s1 s2 → R s2 s3 → R s1 s3) →
  (∀ s a s', body s a = inr s' → R s s') →
  forM body l s = inr s' → R s s'.
Proof.
  intros Hrefl Htrans Hstep. revert s. induction l as [|a l IH]; intros s.
  - by intros [= <-].
  - simpl. destruct (body s a) as [e|s1] eqn:Hbody; simpl; [done|].
    intros Hrest. eapply Htrans; [by eapply Hstep|by apply IH].
Qed.

(** ** One function *)

Lemma indexKeyPathRef_spec fs r :
  indexKeyPathRef fs r
  = if referenceOk r
    then inr (mkFunctionSummary (getGUID fs) (getName fs) (isLive fs)
                (isPreserved fs) (calls fs ++ referenceCalls r) (typeRefs fs))
    else inl KeyPathBadContext.
Proof.
  destruct r as [F|method]; simpl; [done|].
  by destruct (SIL.getDeclContext method).
Qed.

Lemma forM_indexKeyPathRef rs fs :
  forM indexKeyPathRef rs fs
  = if forallb referenceOk rs
    then inr (mkFunctionSummary (getGUID fs) (getName fs) (isLive fs)
                (isPreserved fs) (calls fs ++ (rs ≫= referenceCalls))
                (typeRefs fs))
    else inl KeyPathBadContext.
Proof.
  revert fs. induction rs as [|r rs IH]; intros fs.
  - simpl. rewrite app_nil_r. by destruct fs.
  - simpl. rewrite indexKeyPathRef_spec. destruct (referenceOk r); simpl; [|done].
    rewrite IH. simpl. destruct (forallb referenceOk rs); [|done].
    by rewrite <- app_assoc.
Qed.

Lemma indexInstruction_spec fs I :
  indexInstruction fs I
  = if instructionOk I
    then inr (mkFunctionSummary (getGUID fs) (getName fs) (isLive fs)
                (isPreserved fs) (calls fs ++ instructionCalls I) (typeRefs fs))
    else inl (match I with
              | SIL.FunctionRefInst _ => NullCallee
              | _ => KeyPathBadContext
              end).
Proof.
  destruct I as [[callee|]|member|member|components|]; simpl; try done.
  - revert fs. induction components as [|c cs IH]; intros fs.
    + simpl. rewrite app_nil_r. by destruct fs.
    + simpl. rewrite forM_indexKeyPathRef.
      destruct (forallb referenceOk (SIL.referenced c)); simpl; [|done].
      rewrite IH. simpl. destruct (forallb _ cs); [|done].
      by rewrite <- app_assoc.
  - rewrite app_nil_r. by destruct fs.
Qed.

Lemma forM_indexInstruction BB fs :
  forallb instructionOk BB = true →
  forM indexInstruction BB fs
  = inr (mkFunctionSummary (getGUID fs) (getName fs) (isLive fs)
           (isPreserved fs) (calls fs ++ (BB ≫= instructionCalls))
           (typeRefs fs)).
Proof.
  revert fs. induction BB as [|I BB IH]; intros fs Hok.
  - simpl. rewrite app_nil_r. by destruct fs.
  - simpl in Hok. apply andb_true_iff in Hok as [HI HBB].
    simpl. rewrite indexInstruction_spec, HI. simpl.
    rewrite IH by done. simpl. by rewrite <- app_assoc.
Qed.

Lemma forM_indexInstruction_fails BB fs :
  forallb instructionOk BB = false →
  ∃ e, forM indexInstruction BB fs = inl e.
Proof.
  revert fs. induction BB as [|I BB IH]; intros fs Hok; [done|].
  simpl in Hok. simpl. rewrite indexInstruction_spec.
  destruct (instructionOk I); simpl; [|by eexists]. by apply IH.
Qed.

Lemma forM_blocks bbs fs :
  forallb (forallb instructionOk) bbs = true →
  forM (λ s BB, forM indexInstruction BB s) bbs fs
  = inr (mkFunctionSummary (getGUID fs) (getName fs) (isLive fs)
           (isPreserved fs)
           (calls fs ++ (bbs ≫= (λ BB, BB ≫= instructionCalls)))
           (typeRefs fs)).
Proof.
  revert fs. induction bbs as [|BB bbs IH]; intros fs Hok.
  - simpl. rewrite app_nil_r. by destruct fs.
  - simpl in Hok. apply andb_true_iff in Hok as [HBB Hbbs].
    simpl. rewrite forM_indexInstruction by done. simpl.
    rewrite IH by done. simpl. by rewrite <- app_assoc.
Qed.

Lemma forM_blocks_fails bbs fs :
  forallb (forallb instructionOk) bbs = false →
  ∃ e, forM (λ s BB, forM indexInstruction BB s) bbs fs = inl e.
Proof.
  revert fs. induction bbs as [|BB bbs IH]; intros fs Hok; [done|].
  simpl in Hok. simpl. destruct (forallb instructionOk BB) eqn:HBB.
  - rewrite forM_indexInstruction by done. simpl. by apply IH.
  - destruct (forM_indexInstruction_fails BB fs HBB) as [e ->]. by eexists.
Qed.

Lemma indexFunction_spec (F : SIL.SILFunction) :
  (functionOk F = true →
   indexFunction F
   = inr (mkFunctionSummary
            (getGUIDFromUniqueName (SIL.getName F)) (SIL.getName F) false
            (shouldPreserveFunction F)
            (SIL.blocks F ≫= (λ BB, BB ≫= instructionCalls)) []))
  ∧ (functionOk F = false → ∃ e, indexFunction F = inl e).
Proof.
  unfold indexFunction, functionOk. split; intros Hok.
  - by rewrite forM_blocks.
  - match goal with |- context [forM ?b ?l ?s] =>
      destruct (forM_blocks_fails l s Hok) as [e ->] end.
    by exists e.
Qed.







(** ** The steps of the table passes *)

Lemma preservedGrown_refl idx : preservedGrown idx idx.
Proof.
  repeat split. intros g. destruct (functions idx !! g); auto.
Qed.

Lemma preservedGrown_trans idx1 idx2 idx3 :
  preservedGrown idx1 idx2 → preservedGrown idx2 idx3 →
  preservedGrown idx1 idx3.
Proof.
  intros (N1 & U1 & F1) (N2 & U2 & F2).
  split; [congruence|]. split; [congruence|].
  intros g. specialize (F1 g). specialize (F2 g).
  destruct (functions idx1 !! g) as [fs|].
  - destruct F1 as [E|E]; rewrite E in F2; destruct F2 as [E'|E'];
      rewrite E'; auto.
  - by rewrite F1 in F2.
Qed.

Lemma preservedGrown_is_Some idx idx' g :
  preservedGrown idx idx' →
  is_Some (functions idx' !! g) ↔ is_Some (functions idx !! g).
Proof.
  intros (_ & _ & HF). specialize (HF g).
  destruct (functions idx !! g) as [fs|].
  - split; [eauto|]. intros _. destruct HF as [->| ->]; eauto.
  - rewrite HF. done.
Qed.

Lemma preserveImpl_inr idx g idx' :
  preserveImpl idx g = inr idx'
  ↔ ∃ fs, functions idx !! g = Some fs
          ∧ idx' = withFunctions idx
                     (<[g := setPreserved fs true]> (functions idx)).
Proof.
  unfold preserveImpl, getFunctionSummary.
  destruct (functions idx !! g) as [fs|].
  - split; [intros [= <-]; eauto|]. by intros (fs' & [= <-] & ->).
  - split; [done|]. by intros (? & ? & _).
Qed.

Lemma preserveImpl_succeeds idx g :
  (∃ idx', preserveImpl idx g = inr idx') ↔ is_Some (functions idx !! g).
Proof.
  split.
  - intros (idx' & H). apply preserveImpl_inr in H as (fs & ? & _). eauto.
  - intros [fs Hfs]. eexists. apply preserveImpl_inr. eauto.
Qed.

Lemma preserveImpl_effect idx g idx' :
  preserveImpl idx g = inr idx' →
  preservedGrown idx idx'
  ∧ implementations idx' = implementations idx
  ∧ ∀ fact, holds idx' fact ↔ holds idx fact ∨ fact = IsPreserved g.
Proof.
  intros H. apply preserveImpl_inr in H as (fs & Hfs & ->).
  split; [|split; [done|]].
  - repeat split. intros g'. simpl.
    destruct (decide (g = g')) as [<-|Hne].
    + rewrite Hfs, lookup_insert_eq. by right.
    + rewrite lookup_insert_ne by done. destruct (functions idx !! g'); auto.
  - intros [g'|slot g']; simpl.
    + destruct (decide (g = g')) as [<-|Hne].
      * rewrite lookup_insert_eq. split; [by right|]. intros _. eauto.
      * rewrite lookup_insert_ne by done. split; [by left|].
        intros [?|[= ?]]; [done|congruence].
    + unfold getImplementations. simpl. split; [by left|]. by intros [?|?].
Qed.

(** [ensurePreserved(const SILFunction &)] is [preserveImpl] at the GUID of
    the function's name. *)
Lemma ensurePreserved_succeeds idx F :
  (∃ idx', ensurePreserved idx F = inr idx')
  ↔ is_Some (functions idx !! getGUIDFromUniqueName F).
Proof. apply (preserveImpl_succeeds idx (getGUIDFromUniqueName F)). Qed.

Lemma ensurePreserved_effect idx F idx' :
  ensurePreserved idx F = inr idx' →
  preservedGrown idx idx'
  ∧ implementations idx' = implementations idx
  ∧ ∀ fact, holds idx' fact
            ↔ holds idx fact ∨ fact = IsPreserved (getGUIDFromUniqueName F).
Proof. apply (preserveImpl_effect idx (getGUIDFromUniqueName F)). Qed.

Lemma addImplementation_effect idx slot g :
  preservedGrown idx (addImplementation idx slot g)
  ∧ functions (addImplementation idx slot g) = functions idx
  ∧ ∀ fact, holds (addImplementation idx slot g) fact
            ↔ holds idx fact ∨ fact = Implements slot g.
Proof.
  split; [|split; [done|]].
  - repeat split. intros g'. simpl. destruct (functions idx !! g'); auto.
  - intros [g'|slot' g']; simpl.
    + split; [by left|]. by intros [?|?].
    + unfold addImplementation, getImplementations at 1. simpl.
      destruct (decide (slot = slot')) as [<-|Hne].
      * rewrite lookup_insert_eq. simpl.
        destruct (decide (g ∈ getImplementations idx slot)) as [Hin|Hout].
        -- split; [by left|]. intros [?|[= <-]]; done.
        -- rewrite elem_of_app, list_elem_of_singleton. split.
           ++ intros [?| ->]; [by left|by right].
           ++ intros [?|[= <-]]; [by left|by right].
      * rewrite lookup_insert_ne by done. split; [by left|].
        intros [?|[= ? ?]]; [done|congruence].
Qed.

(** [if (cond) ensurePreserved(F);] *)
Lemma guarded_ensurePreserved_effect (cond : bool) idx F idx' :
  (if cond then ensurePreserved idx F else ret idx) = inr idx' →
  preservedGrown idx idx'
  ∧ implementations idx' = implementations idx
  ∧ ∀ fact, holds idx' fact
            ↔ holds idx fact
              ∨ (cond = true ∧ fact = IsPreserved (getGUIDFromUniqueName F)).
Proof.
  destruct cond.
  - intros H. destruct (ensurePreserved_effect _ _ _ H) as (? & ? & Hf).
    split; [done|]. split; [done|]. intros fact. rewrite Hf. tauto.
  - intros [= <-]. split; [apply preservedGrown_refl|]. split; [done|].
    intros fact. split; [by left|]. by intros [?|[? _]].
Qed.

Lemma guarded_ensurePreserved_succeeds (cond : bool) idx F :
  (∃ idx', (if cond then ensurePreserved idx F else ret idx) = inr idx')
  ↔ (cond = true → is_Some (functions idx !! getGUIDFromUniqueName F)).
Proof.
  destruct cond.
  - rewrite ensurePreserved_succeeds. tauto.
  - split; [done|]. intros _. by exists idx.
Qed.

Section TableSteps.

Variable Mod : SIL.SILModule.

Lemma indexVTableEntry_effect idx entry idx' :
  indexVTableEntry Mod idx entry = inr idx' →
  preservedGrown idx idx'
  ∧ ∀ fact, holds idx' fact ↔ holds idx fact ∨ vtableEntryAdds Mod entry fact.
Proof.
  unfold indexVTableEntry.
  destruct (if isRuntimeCalled entry then _ else _) as [e|idx1] eqn:H1;
    simpl; [done|].
  destruct (if isExternalOverride Mod entry then _ else _) as [e|idx2] eqn:H2;
    simpl; [done|].
  intros [= <-].
  destruct (guarded_ensurePreserved_effect _ _ _ _ H1) as (G1 & _ & F1).
  destruct (guarded_ensurePreserved_effect _ _ _ _ H2) as (G2 & _ & F2).
  destruct (addImplementation_effect idx2
              (VirtualMethodSlot (SIL.getMethod entry) SlotVTable)
              (getGUIDFromUniqueName (SIL.getImplementation entry)))
    as (G3 & _ & F3).
  split.
  - eapply preservedGrown_trans; [exact G1|].
    eapply preservedGrown_trans; [exact G2|exact G3].
  - intros fact. rewrite F3, F2, F1. unfold vtableEntryAdds, implGUID.
    destruct fact as [g|slot g]; rewrite ?orb_true_iff; intuition congruence.
Qed.

Lemma indexVTableEntry_succeeds idx entry :
  (∃ idx', indexVTableEntry Mod idx entry = inr idx')
  ↔ (isRuntimeCalled entry || isExternalOverride Mod entry = true →
     is_Some (functions idx !! implGUID entry)).
Proof.
  unfold indexVTableEntry, implGUID. rewrite orb_true_iff. split.
  - intros (idx' & H) Htrig.
    destruct (if isRuntimeCalled entry then _ else _) as [e|idx1] eqn:H1;
      simpl in H; [done|].
    destruct (if isExternalOverride Mod entry then _ else _) as [e|idx2] eqn:H2;
      simpl in H; [done|].
    destruct (guarded_ensurePreserved_effect _ _ _ _ H1) as (G1 & _ & _).
    destruct Htrig as [Ht|Ht].
    + apply (guarded_ensurePreserved_succeeds (isRuntimeCalled entry)); eauto.
    + apply (preservedGrown_is_Some _ _ _ G1).
      apply (guarded_ensurePreserved_succeeds (isExternalOverride Mod entry));
        eauto.
  - intros Hdef.
    destruct (proj2 (guarded_ensurePreserved_succeeds (isRuntimeCalled entry)
                       idx (SIL.getImplementation entry))) as [idx1 H1];
      [auto|].
    rewrite H1. simpl.
    destruct (guarded_ensurePreserved_effect _ _ _ _ H1) as (G1 & _ & _).
    destruct (proj2 (guarded_ensurePreserved_succeeds
                       (isExternalOverride Mod entry)
                       idx1 (SIL.getImplementation entry))) as [idx2 H2].
    { intros Ht. apply (preservedGrown_is_Some _ _ _ G1). auto. }
    rewrite H2. simpl. by eexists.
Qed.

Lemma indexWitnessEntry_effect external idx entry idx' :
  indexWitnessEntry external idx entry = inr idx' →
  preservedGrown idx idx'
  ∧ ∀ fact, holds idx' fact
            ↔ holds idx fact ∨ witnessEntryAdds external entry fact.
Proof.
  assert (∀ fact : Fact, holds idx fact ↔ holds idx fact ∨ False) as Hnone
    by (intros; tauto).
  destruct entry as [|Requirement [witness|]| | |]; simpl;
    try (intros [= <-]; split; [apply preservedGrown_refl|exact Hnone]).
  intros H.
  destruct (addImplementation_effect idx
              (VirtualMethodSlot Requirement SlotWitness)
              (getGUIDFromUniqueName witness)) as (G1 & Efun & F1).
  destruct (guarded_ensurePreserved_effect _ _ _ _ H) as (G2 & _ & F2).
  split; [eapply preservedGrown_trans; [exact G1|exact G2]|].
  intros fact. rewrite F2, F1. destruct fact as [g|slot g]; intuition congruence.
Qed.

Lemma indexWitnessEntry_succeeds external idx entry :
  (∃ idx', indexWitnessEntry external idx entry = inr idx')
  ↔ match entry with
    | SIL.MethodWitness _ (Some witness) =>
        external = true →
        is_Some (functions idx !! getGUIDFromUniqueName witness)
    | _ => True
    end.
Proof.
  destruct entry as [|Requirement [witness|]| | |]; simpl;
    try (split; [done|]; intros _; by eexists).
  rewrite guarded_ensurePreserved_succeeds. done.
Qed.

End TableSteps.

(** ** The passes *)

Lemma Pass_forM {A} J K (body : ModuleSummaryIndex → A → M ModuleSummaryIndex)
    adds ok :
  Pass J K body adds ok →
  Pass J K (λ s l, forM body l s)
       (λ l fact, ∃ a, a ∈ l ∧ adds a fact) (Forall ok).
Proof.
  intros [Heffect Hsucc]. split.
  - intros s l. revert s. induction l as [|a l IH]; intros s s' HJ.
    + intros [= <-]. split; [done|]. split; [apply preservedGrown_refl|].
      intros fact. split; [by left|].
      intros [?|(a & Ha & _)]; [done|by apply elem_of_nil in Ha].
    + simpl. destruct (body s a) as [e|s1] eqn:Hbody; simpl; [done|].
      intros Hrest. destruct (Heffect _ _ _ HJ Hbody) as (HJ1 & G1 & F1).
      destruct (IH s1 s' HJ1 Hrest) as (HJ' & G' & F').
      split; [done|]. split; [by eapply preservedGrown_trans|].
      intros fact. rewrite F', F1. split.
      * intros [[?|?]|(a' & Ha' & ?)]; [by left|right..].
        -- exists a. split; [by left|done].
        -- exists a'. split; [by right|done].
      * intros [?|(a' & Ha' & ?)]; [by left; left|].
        apply elem_of_cons in Ha' as [->|Ha']; [by left; right|].
        right. by exists a'.
  - intros s l. revert s. induction l as [|a l IH]; intros s HJ HK.
    + split; [constructor|]. intros _. by exists s.
    + simpl. destruct (body s a) as [e|s1] eqn:Hbody; simpl.
      * split; [by intros [? ?]|]. intros Hall.
        apply Forall_cons in Hall as [Ha _].
        apply (Hsucc s a HJ HK) in Ha as [s' Hs']. congruence.
      * destruct (Heffect _ _ _ HJ Hbody) as (HJ1 & G1 & _).
        rewrite IH, Forall_cons; [|done|].
        -- split; [|tauto]. intros Hall. split; [|done].
           apply (Hsucc s a HJ HK). eauto.
        -- intros g. rewrite <- HK. by apply preservedGrown_is_Some.
Qed.

Section Passes.

Variable Mod : SIL.SILModule.
Variable K : GUID → Prop.

Lemma Pass_preserveImpl impls :
  Pass (λ s, implementations s = impls) K preserveImpl
       (λ g fact, fact = IsPreserved g) K.
Proof.
  split.
  - intros s g s' HJ H. destruct (preserveImpl_effect _ _ _ H) as (? & E & ?).
    split; [congruence|done].
  - intros s g _ HK. rewrite preserveImpl_succeeds. apply HK.
Qed.

Lemma ensurePreservedRef_forM idx Ref Kind :
  ensurePreservedRef idx Ref Kind
  = forM preserveImpl (getImplementations idx (VirtualMethodSlot Ref Kind)) idx.
Proof.
  unfold ensurePreservedRef.
  by destruct (getImplementations idx (VirtualMethodSlot Ref Kind)).
Qed.

Lemma getImplementations_ext idx idx' slot :
  implementations idx' = implementations idx →
  getImplementations idx' slot = getImplementations idx slot.
Proof. unfold getImplementations. by intros ->. Qed.

Lemma Pass_preserveKeyPathRef idx0 :
  Pass (λ s, implementations s = implementations idx0) K preserveKeyPathRef
       (referenceAdds idx0) (referenceDefined idx0 K).
Proof.
  destruct (Pass_forM _ K _ _ _ (Pass_preserveImpl (implementations idx0)))
    as [Heffect Hsucc].
  split.
  - intros s r s' HJ H. destruct r as [F|method]; simpl in H.
    + destruct (ensurePreserved_effect _ _ _ H) as (? & E & ?).
      split; [congruence|done].
    + unfold referenceAdds.
      destruct (SIL.getDeclContext method); [| |done];
        rewrite ensurePreservedRef_forM, (getImplementations_ext idx0 s _ HJ) in H;
        apply (Heffect _ _ _ HJ H).
  - intros s r HJ HK. destruct r as [F|method]; simpl.
    + rewrite ensurePreserved_succeeds. apply HK.
    + destruct (SIL.getDeclContext method);
        [| |split; [by intros [? ?]|done]];
        rewrite ensurePreservedRef_forM, (getImplementations_ext idx0 s _ HJ);
        apply (Hsucc _ _ HJ HK).
Qed.

Lemma Pass_preserveKeyPathFunctions idx0 :
  Pass (λ s, implementations s = implementations idx0) K
       preserveKeyPathFunctions (propertyAdds idx0) (propertyDefined idx0 K).
Proof.
  destruct (Pass_forM _ K _ _ _ (Pass_preserveKeyPathRef idx0))
    as [Heffect Hsucc].
  split.
  - intros s P s' HJ H. unfold preserveKeyPathFunctions, propertyAdds in *.
    destruct (SIL.getComponent P) as [component|].
    + destruct (Heffect _ _ _ HJ H) as (? & ? & HF).
      split; [done|]. split; [done|]. intros fact. rewrite HF. split.
      * intros [?|(r & ? & ?)]; [by left|right]. by exists component, r.
      * intros [?|(c & r & [= <-] & ? & ?)]; [by left|right]. by exists r.
    + injection H as <-. split; [done|]. split; [apply preservedGrown_refl|].
      intros fact. split; [by left|]. by intros [?|(? & ? & ? & _)].
  - intros s P HJ HK. unfold preserveKeyPathFunctions, propertyDefined.
    destruct (SIL.getComponent P) as [component|].
    + rewrite (Hsucc _ _ HJ HK). split; [by intros ? ? [= <-]|eauto].
    + split; [done|]. intros _. by exists s.
Qed.

Lemma Pass_indexWitnessEntry external :
  Pass (λ _, True) K (indexWitnessEntry external)
       (witnessEntryAdds external) (witnessEntryDefined K external).
Proof.
  split.
  - intros s entry s' _ H.
    destruct (indexWitnessEntry_effect _ _ _ _ H). by split.
  - intros s entry _ HK. rewrite indexWitnessEntry_succeeds.
    unfold witnessEntryDefined.
    destruct entry as [|Requirement [witness|]| | |]; try done.
    by rewrite HK.
Qed.

Lemma Pass_indexWitnessTable :
  Pass (λ _, True) K (indexWitnessTable Mod)
       (witnessTableAdds Mod) (witnessTableDefined Mod K).
Proof.
  split.
  - intros s WT s' _ H.
    destruct (Pass_forM _ K _ _ _
                (Pass_indexWitnessEntry (isPossiblyUsedExternally Mod WT)))
      as [Heffect _].
    apply (Heffect s (SIL.wtEntries WT) s' I H).
  - intros s WT _ HK.
    destruct (Pass_forM _ K _ _ _
                (Pass_indexWitnessEntry (isPossiblyUsedExternally Mod WT)))
      as [_ Hsucc].
    apply (Hsucc s (SIL.wtEntries WT) I HK).
Qed.

Lemma Pass_indexVTableEntry :
  Pass (λ _, True) K (indexVTableEntry Mod)
       (vtableEntryAdds Mod) (vtableEntryDefined Mod K).
Proof.
  split.
  - intros s entry s' _ H.
    destruct (indexVTableEntry_effect _ _ _ _ H). by split.
  - intros s entry _ HK. rewrite indexVTableEntry_succeeds.
    unfold vtableEntryDefined. by rewrite HK.
Qed.

Lemma Pass_indexVTable :
  Pass (λ _, True) K (indexVTable Mod) (vtableAdds Mod) (vtableDefined Mod K).
Proof.
  destruct (Pass_forM _ K _ _ _ Pass_indexVTableEntry) as [Heffect Hsucc].
  split.
  - intros s VT s' _ H. apply (Heffect s (SIL.vtEntries VT) s' I H).
  - intros s VT _ HK. apply (Hsucc s (SIL.vtEntries VT) I HK).
Qed.

End Passes.

(** ** The whole module *)

Lemma lookupFunction_Some g l F :
  lookupFunction g l = Some F →
  F ∈ l ∧ getGUIDFromUniqueName (SIL.getName F) = g.
Proof.
  induction l as [|F0 l IH]; [done|]. simpl.
  destruct (decide _) as [E|_].
  - intros [= <-]. split; [by left|done].
  - intros H. destruct (IH H). split; [by right|done].
Qed.

Lemma lookupFunction_is_Some g l :
  is_Some (lookupFunction g l)
  ↔ ∃ F, F ∈ l ∧ g = getGUIDFromUniqueName (SIL.getName F).
Proof.
  induction l as [|F0 l IH]; simpl.
  - split; [by intros [? ?]|]. intros (F & HF & _). by apply elem_of_nil in HF.
  - destruct (decide _) as [E|Hne].
    + split; [|eauto]. intros _. exists F0. split; [by left|done].
    + rewrite IH. split.
      * intros (F & ? & ?). exists F. split; [by right|done].
      * intros (F & HF & ->). apply elem_of_cons in HF as [->|HF]; [done|].
        by exists F.
Qed.

Lemma indexOne_spec s F :
  (fs <- indexFunction F ;;
   let fs := setPreserved fs (shouldPreserveFunction F) in
   ret (addFunctionSummary s fs))
  = if functionOk F then inr (addFunctionSummary s (functionSummaryOf F))
    else match indexFunction F with
         | inl e => inl e
         | inr _ => inl NullCallee
         end.
Proof.
  destruct (functionOk F) eqn:Hok.
  - by rewrite (proj1 (indexFunction_spec F) Hok).
  - by destruct (proj2 (indexFunction_spec F) Hok) as [e ->].
Qed.

Lemma indexFunctions_loop l s s' :
  forM (λ TheSummary F,
          fs <- indexFunction F ;;
          let fs := setPreserved fs (shouldPreserveFunction F) in
          ret (addFunctionSummary TheSummary fs)) l s = inr s' →
  moduleName s' = moduleName s ∧ usedTypes s' = usedTypes s
  ∧ implementations s' = implementations s
  ∧ ∀ g, functions s' !! g
         = match functions s !! g with
           | Some fs => Some fs
           | None => functionSummaryOf <$> lookupFunction g l
           end.
Proof.
  revert s. induction l as [|F l IH]; intros s.
  - intros [= <-]. repeat split. intros g. by destruct (functions s !! g).
  - cbn [forM]. rewrite indexOne_spec. destruct (functionOk F).
    + simpl. intros H. apply IH in H as (-> & -> & -> & HF).
      assert (∀ g, functions (addFunctionSummary s (functionSummaryOf F)) !! g
                   = match functions s !! g with
                     | Some fs => Some fs
                     | None =>
                         if decide (getGUIDFromUniqueName (SIL.getName F) = g)
                         then Some (functionSummaryOf F) else None
                     end) as Hadd.
      { intros g. unfold addFunctionSummary. cbn [functionSummaryOf getGUID].
        destruct (functions s !! getGUIDFromUniqueName (SIL.getName F))
          as [fs0|] eqn:Hold.
        - destruct (functions s !! g) eqn:Hg; [done|].
          destruct (decide _) as [E|_]; [congruence|done].
        - simpl.
          destruct (decide (getGUIDFromUniqueName (SIL.getName F) = g))
            as [<-|Hne].
          + by rewrite lookup_insert_eq, Hold.
          + rewrite lookup_insert_ne by done. by destruct (functions s !! g). }
      assert (moduleName (addFunctionSummary s (functionSummaryOf F))
              = moduleName s
              ∧ usedTypes (addFunctionSummary s (functionSummaryOf F))
                = usedTypes s
              ∧ implementations (addFunctionSummary s (functionSummaryOf F))
                = implementations s) as (-> & -> & ->).
      { unfold addFunctionSummary. by destruct (functions s !! _). }
      repeat split. intros g. rewrite HF, Hadd.
      destruct (functions s !! g); [done|]. simpl. by destruct (decide _).
    + by destruct (indexFunction F).
Qed.

Lemma indexFunctions_succeeds Mod :
  (∃ idx1, indexFunctions Mod = inr idx1)
  ↔ Forall (λ F, functionOk F = true) (SIL.getFunctions Mod).
Proof.
  unfold indexFunctions.
  apply (forM_succeeds _ (λ _, True) (λ F, functionOk F = true)); [|done..].
  intros s F _. rewrite indexOne_spec. destruct (functionOk F).
  - split; [done|]. intros _. by eexists.
  - split; [|done]. intros [s' H]. by destruct (indexFunction F).
Qed.

Lemma indexFunctions_inr Mod idx1 :
  indexFunctions Mod = inr idx1 →
  moduleName idx1 = SIL.getSwiftModule Mod ∧ usedTypes idx1 = []
  ∧ implementations idx1 = ∅
  ∧ ∀ g, functions idx1 !! g
         = functionSummaryOf <$> lookupFunction g (SIL.getFunctions Mod).
Proof.
  intros H. apply indexFunctions_loop in H as (? & ? & ? & HF).
  split; [done|]. split; [done|]. split; [done|].
  intros g. rewrite HF. simpl. by rewrite lookup_empty.
Qed.

Lemma indexFunctions_keys Mod idx1 g :
  indexFunctions Mod = inr idx1 →
  is_Some (functions idx1 !! g) ↔ moduleKeys Mod g.
Proof.
  intros H. apply indexFunctions_inr in H as (_ & _ & _ & HF).
  rewrite HF, fmap_is_Some. apply lookupFunction_is_Some.
Qed.

Lemma indexModule_unfold Mod :
  indexModule Mod
  = (s1 <- indexFunctions Mod ;;
     s2 <- forM preserveKeyPathFunctions (SIL.getPropertyList Mod) s1 ;;
     s3 <- forM (indexWitnessTable Mod) (SIL.getWitnessTableList Mod) s2 ;;
     forM (indexVTable Mod) (SIL.getVTables Mod) s3).
Proof. reflexivity. Qed.

(** The three passes after the first, from the index the first has built. *)
Lemma indexModule_inr Mod idx :
  indexModule Mod = inr idx →
  ∃ idx1, indexFunctions Mod = inr idx1
    ∧ preservedGrown idx1 idx
    ∧ ∀ fact, holds idx fact
        ↔ holds idx1 fact
          ∨ (∃ P, P ∈ SIL.getPropertyList Mod ∧ propertyAdds idx1 P fact)
          ∨ (∃ WT, WT ∈ SIL.getWitnessTableList Mod
                   ∧ witnessTableAdds Mod WT fact)
          ∨ (∃ VT, VT ∈ SIL.getVTables Mod ∧ vtableAdds Mod VT fact).
Proof.
  rewrite indexModule_unfold.
  destruct (indexFunctions Mod) as [e|idx1] eqn:H1; simpl; [done|].
  destruct (forM preserveKeyPathFunctions _ idx1) as [e|idx2] eqn:H2;
    simpl; [done|].
  destruct (forM (indexWitnessTable Mod) _ idx2) as [e|idx3] eqn:H3;
    simpl; [done|].
  intros H4. exists idx1. split; [done|].
  destruct (Pass_forM _ (λ _, True) _ _ _
              (Pass_preserveKeyPathFunctions (λ _, True) idx1)) as [E2 _].
  destruct (E2 _ _ _ eq_refl H2) as (_ & G2 & F2).
  destruct (Pass_forM _ (λ _, True) _ _ _
              (Pass_indexWitnessTable Mod (λ _, True))) as [E3 _].
  destruct (E3 _ _ _ I H3) as (_ & G3 & F3).
  destruct (Pass_forM _ (λ _, True) _ _ _
              (Pass_indexVTable Mod (λ _, True))) as [E4 _].
  destruct (E4 _ _ _ I H4) as (_ & G4 & F4).
  split.
  - eapply preservedGrown_trans; [exact G2|].
    eapply preservedGrown_trans; [exact G3|exact G4].
  - intros fact. rewrite F4, F3, F2. tauto.
Qed.

Lemma indexModule_succeeds Mod :
  (∃ idx, indexModule Mod = inr idx)
  ↔ Forall (λ F, functionOk F = true) (SIL.getFunctions Mod)
    ∧ Forall (propertyDefined emptyIndex (moduleKeys Mod))
             (SIL.getPropertyList Mod)
    ∧ Forall (witnessTableDefined Mod (moduleKeys Mod))
             (SIL.getWitnessTableList Mod)
    ∧ Forall (vtableDefined Mod (moduleKeys Mod)) (SIL.getVTables Mod).
Proof.
  rewrite indexModule_unfold, <- indexFunctions_succeeds.
  destruct (indexFunctions Mod) as [e|idx1] eqn:H1; simpl.
  { split; [by intros [? ?]|]. by intros [[? ?] _]. }
  pose proof (λ g, indexFunctions_keys Mod idx1 g H1) as HK1.
  apply indexFunctions_inr in H1 as (_ & _ & Himpl & _).
  destruct (Pass_forM _ (moduleKeys Mod) _ _ _
              (Pass_preserveKeyPathFunctions (moduleKeys Mod) emptyIndex))
    as [E2 S2].
  destruct (Pass_forM _ (moduleKeys Mod) _ _ _
              (Pass_indexWitnessTable Mod (moduleKeys Mod))) as [E3 S3].
  destruct (Pass_forM _ (moduleKeys Mod) _ _ _
              (Pass_indexVTable Mod (moduleKeys Mod))) as [E4 S4].
  pose proof (S2 idx1 (SIL.getPropertyList Mod) Himpl HK1) as S2'.
  destruct (forM preserveKeyPathFunctions _ idx1) as [e|idx2] eqn:H2; simpl.
  { split; [by intros [? ?]|]. intros (_ & Hp & _).
    apply S2' in Hp as [? ?]. done. }
  destruct (E2 _ _ _ Himpl H2) as (_ & G2 & _).
  assert (∀ g, is_Some (functions idx2 !! g) ↔ moduleKeys Mod g) as HK2.
  { intros g. rewrite <- HK1. by apply preservedGrown_is_Some. }
  pose proof (S3 idx2 (SIL.getWitnessTableList Mod) I HK2) as S3'.
  destruct (forM (indexWitnessTable Mod) _ idx2) as [e|idx3] eqn:H3; simpl.
  { split; [by intros [? ?]|]. intros (_ & _ & Hw & _).
    apply S3' in Hw as [? ?]. done. }
  destruct (E3 _ _ _ I H3) as (_ & G3 & _).
  assert (∀ g, is_Some (functions idx3 !! g) ↔ moduleKeys Mod g) as HK3.
  { intros g. rewrite <- HK2. by apply preservedGrown_is_Some. }
  rewrite (S4 idx3 (SIL.getVTables Mod) I HK3).
  split.
  - intros Hv. split; [eauto|]. split; [apply S2'; eauto|].
    split; [apply S3'; eauto|done].
  - tauto.
Qed.

(** ** What a module summary says *)

Lemma propertyAdds_no_implementations idx P fact :
  implementations idx = ∅ →
  propertyAdds idx P fact
  ↔ ∃ component F g,
      SIL.getComponent P = Some component
      ∧ SIL.RefFunction F ∈ SIL.referenced component
      ∧ g = getGUIDFromUniqueName F ∧ fact = IsPreserved g.
Proof.
  intros Hempty. unfold propertyAdds. split.
  - intros (component & r & Hc & Hr & Hadds). destruct r as [F|method].
    + exists component, F, (getGUIDFromUniqueName F). by repeat split.
    + simpl in Hadds. unfold getImplementations in Hadds.
      rewrite Hempty, lookup_empty in Hadds. simpl in Hadds.
      destruct (SIL.getDeclContext method); [| |done];
        destruct Hadds as (g & Hg & _); by apply elem_of_nil in Hg.
  - intros (component & F & g & Hc & Hr & -> & ->).
    exists component, (SIL.RefFunction F). by repeat split.
Qed.

Lemma witnessTableAdds_Implements Mod WT slot g :
  witnessTableAdds Mod WT (Implements slot g)
  ↔ ∃ Requirement witness,
      SIL.MethodWitness Requirement (Some witness) ∈ SIL.wtEntries WT
      ∧ slot = VirtualMethodSlot Requirement SlotWitness
      ∧ g = getGUIDFromUniqueName witness.
Proof.
  unfold witnessTableAdds. split.
  - intros (entry & Hin & Hadds).
    destruct entry as [|Requirement [witness|]| | |]; try done.
    destruct Hadds as [-> ->]. by exists Requirement, witness.
  - intros (Requirement & witness & Hin & -> & ->).
    by exists (SIL.MethodWitness Requirement (Some witness)).
Qed.

Lemma witnessTableAdds_IsPreserved Mod WT g :
  witnessTableAdds Mod WT (IsPreserved g)
  ↔ isPossiblyUsedExternally Mod WT = true
    ∧ ∃ Requirement witness,
        SIL.MethodWitness Requirement (Some witness) ∈ SIL.wtEntries WT
        ∧ g = getGUIDFromUniqueName witness.
Proof.
  unfold witnessTableAdds. split.
  - intros (entry & Hin & Hadds).
    destruct entry as [|Requirement [witness|]| | |]; try done.
    destruct Hadds as [Hext ->]. split; [done|]. by exists Requirement, witness.
  - intros (Hext & Requirement & witness & Hin & ->).
    by exists (SIL.MethodWitness Requirement (Some witness)).
Qed.



(** X14: when [indexModule] goes through, a slot has an implementation
    exactly when a witness table of the module has a method entry with a
    witness for the requirement of the slot, or a v-table of the module has
    an entry for the method of the slot; the implementation is the GUID of
    the name of that witness or of that entry's implementation. *)
Theorem X14_indexModule_implementations
    (Mod : SIL.SILModule) (idx : ModuleSummaryIndex)
    (slot : VFuncSlot) (g : GUID) :
  indexModule Mod = inr idx →
  g ∈ getImplementations idx slot
  ↔ (∃ WT Requirement witness,
       WT ∈ SIL.getWitnessTableList Mod
       ∧ SIL.MethodWitness Requirement (Some witness) ∈ SIL.wtEntries WT
       ∧ slot = VirtualMethodSlot Requirement SlotWitness
       ∧ g = getGUIDFromUniqueName witness)
    ∨ (∃ VT entry,
         VT ∈ SIL.getVTables Mod ∧ entry ∈ SIL.vtEntries VT
         ∧ slot = VirtualMethodSlot (SIL.getMethod entry) SlotVTable
         ∧ g = implGUID entry).
Proof.
  intros H. apply indexModule_inr in H as (idx1 & H1 & _ & HF).
  apply indexFunctions_inr in H1 as (_ & _ & Himpl & _).
  specialize (HF (Implements slot g)). simpl in HF. rewrite HF. clear HF.
  unfold getImplementations at 1. rewrite Himpl, lookup_empty. simpl.
  split.
  - intros [Hin|[(P & _ & HP)|[(WT & HWT & Hadds)|(VT & HVT & entry & He & -> & ->)]]].
    + by apply elem_of_nil in Hin.
    + apply (propertyAdds_no_implementations _ _ _ Himpl) in HP
        as (? & ? & ? & _ & _ & _ & [=]).
    + left. apply witnessTableAdds_Implements in Hadds as (R & w & ? & ? & ?).
      by exists WT, R, w.
    + right. by exists VT, entry.
  - intros [(WT & R & w & HWT & Hin & -> & ->)|(VT & entry & HVT & He & -> & ->)].
    + right. right. left. exists WT. split; [done|].
      apply witnessTableAdds_Implements. by exists R, w.
    + right. right. right. exists VT. split; [done|]. by exists entry.
Qed.

Lemma X14_indexModule_implementations_witness :
  getGUIDFromUniqueName "E.n.impl"
    ∈ getImplementations (IndexerExample.result (indexModule IndexerExample.M2))
        (VirtualMethodSlot IndexerExample.E_n SlotVTable).
Proof.
  apply (X14_indexModule_implementations IndexerExample.M2).
  - vm_compute. reflexivity.
  - right. exists IndexerExample.vtable,
      (SIL.mkVTableEntry IndexerExample.E_n "E.n.impl" SIL.Normal).
    split; [by left|]. split; [|done].
    simpl. right. right. by left.
Defined.

(** X15: when [indexModule] goes through, a function is preserved in the
    summary exactly when [shouldPreserveFunction] holds of it (of the first
    function with its GUID), or a key-path property of the module refers to
    it directly, or it is the witness of a method entry of a witness table
    that is possibly used externally, or it is the implementation of a
    v-table entry for a deallocator or an ivar destroyer, or of an [Override]
    entry of a method declared in another module.  A method that a key path
    refers to contributes nothing. *)
Theorem X15_indexModule_preserved
    (Mod : SIL.SILModule) (idx : ModuleSummaryIndex) (g : GUID) :
  indexModule Mod = inr idx →
  preservedIn idx g
  ↔ (∃ F, lookupFunction g (SIL.getFunctions Mod) = Some F
          ∧ shouldPreserveFunction F = true)
    ∨ (∃ P component F,
         P ∈ SIL.getPropertyList Mod
         ∧ SIL.getComponent P = Some component
         ∧ SIL.RefFunction F ∈ SIL.referenced component
         ∧ g = getGUIDFromUniqueName F)
    ∨ (∃ WT Requirement witness,
         WT ∈ SIL.getWitnessTableList Mod
         ∧ isPossiblyUsedExternally Mod WT = true
         ∧ SIL.MethodWitness Requirement (Some witness) ∈ SIL.wtEntries WT
         ∧ g = getGUIDFromUniqueName witness)
    ∨ (∃ VT entry,
         VT ∈ SIL.getVTables Mod ∧ entry ∈ SIL.vtEntries VT
         ∧ isRuntimeCalled entry || isExternalOverride Mod entry = true
         ∧ g = implGUID entry).
Proof.
  intros H. apply indexModule_inr in H as (idx1 & H1 & _ & HF).
  apply indexFunctions_inr in H1 as (_ & _ & Himpl & HF1).
  specialize (HF (IsPreserved g)). change (holds idx (IsPreserved g))
    with (preservedIn idx g) in HF. rewrite HF. clear HF.
  assert (holds idx1 (IsPreserved g)
          ↔ ∃ F, lookupFunction g (SIL.getFunctions Mod) = Some F
                 ∧ shouldPreserveFunction F = true) as ->.
  { simpl. rewrite HF1.
    destruct (lookupFunction g (SIL.getFunctions Mod)) as [F|]; simpl.
    - split; [intros (fs & [= <-] & ?); eauto|].
      intros (F' & [= <-] & ?). eauto.
    - split; [by intros (? & ? & _)|by intros (? & ? & _)]. }
  assert ((∃ P, P ∈ SIL.getPropertyList Mod ∧ propertyAdds idx1 P (IsPreserved g))
          ↔ ∃ P component F,
              P ∈ SIL.getPropertyList Mod
              ∧ SIL.getComponent P = Some component
              ∧ SIL.RefFunction F ∈ SIL.referenced component
              ∧ g = getGUIDFromUniqueName F) as ->.
  { split.
    - intros (P & HP & Hadds).
      apply (propertyAdds_no_implementations _ _ _ Himpl) in Hadds
        as (c & F & g' & ? & ? & -> & [= ->]).
      by exists P, c, F.
    - intros (P & c & F & HP & ? & ? & ->). exists P. split; [done|].
      apply (propertyAdds_no_implementations _ _ _ Himpl).
      by exists c, F, (getGUIDFromUniqueName F). }
  assert ((∃ WT, WT ∈ SIL.getWitnessTableList Mod
                 ∧ witnessTableAdds Mod WT (IsPreserved g))
          ↔ ∃ WT Requirement witness,
              WT ∈ SIL.getWitnessTableList Mod
              ∧ isPossiblyUsedExternally Mod WT = true
              ∧ SIL.MethodWitness Requirement (Some witness) ∈ SIL.wtEntries WT
              ∧ g = getGUIDFromUniqueName witness) as ->.
  { split.
    - intros (WT & HWT & Hadds).
      apply witnessTableAdds_IsPreserved in Hadds as (? & R & w & ? & ?).
      by exists WT, R, w.
    - intros (WT & R & w & HWT & ? & ? & ?). exists WT. split; [done|].
      apply witnessTableAdds_IsPreserved. split; [done|]. by exists R, w. }
  assert ((∃ VT, VT ∈ SIL.getVTables Mod ∧ vtableAdds Mod VT (IsPreserved g))
          ↔ ∃ VT entry,
              VT ∈ SIL.getVTables Mod ∧ entry ∈ SIL.vtEntries VT
              ∧ isRuntimeCalled entry || isExternalOverride Mod entry = true
              ∧ g = implGUID entry) as ->.
  { split.
    - intros (VT & HVT & entry & He & ? & ?). by exists VT, entry.
    - intros (VT & entry & HVT & He & ? & ?). exists VT. split; [done|].
      by exists entry. }
  done.
Qed.

Lemma X15_indexModule_preserved_witness :
  preservedIn (IndexerExample.result (indexModule IndexerExample.M2))
              (getGUIDFromUniqueName "getter").
Proof.
  apply (X15_indexModule_preserved IndexerExample.M2).
  - vm_compute. reflexivity.
  - right. left.
    exists (SIL.mkProperty
              (Some (SIL.mkComponent
                       [SIL.RefFunction "getter";
                        SIL.RefMethod IndexerExample.E_n]))),
      (SIL.mkComponent [SIL.RefFunction "getter";
                        SIL.RefMethod IndexerExample.E_n]), "getter".
    split; [by left|]. split; [done|]. split; [by left|done].
Defined.

(** X16: [indexModule] goes through exactly when every function is accepted
    by [indexFunction], every function that a key-path property refers to
    directly is one of the module (by the GUID of its name) and no key-path
    property refers to a method declared outside a class or a protocol, and
    the witnesses of the witness tables that are possibly used externally
    and the implementations of the v-table entries that must be preserved
    are functions of the module.  Otherwise it stops at a failed assertion
    or an unreachable. *)
Theorem X16_indexModule_goes_through (Mod : SIL.SILModule) :
  (∃ idx, indexModule Mod = inr idx)
  ↔ Forall (λ F, functionOk F = true) (SIL.getFunctions Mod)
    ∧ Forall (propertyDefined emptyIndex (moduleKeys Mod))
             (SIL.getPropertyList Mod)
    ∧ Forall (witnessTableDefined Mod (moduleKeys Mod))
             (SIL.getWitnessTableList Mod)
    ∧ Forall (vtableDefined Mod (moduleKeys Mod)) (SIL.getVTables Mod).
Proof. exact (indexModule_succeeds Mod). Qed.

(** ** The passes on their own *)

(** X17: [indexWitnessTable] goes through exactly when, if the table is
    possibly used externally, every witness of a method entry has a summary.
    It then changes nothing but preserved flags, from false to true, and
    implementations: each method entry with a witness registers the witness
    under the slot of its requirement, the witnesses are preserved iff the
    table is possibly used externally, and entries of another kind or
    without a witness add nothing. *)
Theorem X17_indexWitnessTable
    (Mod : SIL.SILModule) (idx : ModuleSummaryIndex)
    (WT : SIL.SILWitnessTable) :
  ((∃ idx', indexWitnessTable Mod idx WT = inr idx')
   ↔ witnessTableDefined Mod (λ g, is_Some (functions idx !! g)) WT)
  ∧ ∀ idx', indexWitnessTable Mod idx WT = inr idx' →
      preservedGrown idx idx'
      ∧ ∀ fact, holds idx' fact ↔ holds idx fact ∨ witnessTableAdds Mod WT fact.
Proof.
  destruct (Pass_indexWitnessTable Mod (λ g, is_Some (functions idx !! g)))
    as [Heffect Hsucc].
  split.
  - by apply Hsucc.
  - intros idx' H. by destruct (Heffect idx WT idx' I H) as (_ & ? & ?).
Qed.

(** X18: [indexVTable] goes through exactly when the implementation of every
    entry that must be preserved has a summary.  It then changes nothing but
    preserved flags, from false to true, and implementations, and it adds
    no more than the entries say: an implementation under the slot of each
    entry's method, and a preserved flag for the implementations of
    deallocators, ivar destroyers and overrides of methods of other
    modules. *)
Theorem X18_indexVTable
    (Mod : SIL.SILModule) (idx : ModuleSummaryIndex) (VT : SIL.SILVTable) :
  ((∃ idx', indexVTable Mod idx VT = inr idx')
   ↔ vtableDefined Mod (λ g, is_Some (functions idx !! g)) VT)
  ∧ ∀ idx', indexVTable Mod idx VT = inr idx' →
      preservedGrown idx idx'
      ∧ ∀ fact, holds idx' fact ↔ holds idx fact ∨ vtableAdds Mod VT fact.
Proof.
  destruct (Pass_indexVTable Mod (λ g, is_Some (functions idx !! g)))
    as [Heffect Hsucc].
  split.
  - by apply Hsucc.
  - intros idx' H. by destruct (Heffect idx VT idx' I H) as (_ & ? & ?).
Qed.

(** X19: [preserveKeyPathFunctions] goes through exactly when every directly
    referenced function and every implementation registered for a referenced
    class or protocol method has a summary, and no referenced method is
    declared elsewhere.  It then leaves the implementations as they are and
    changes nothing but preserved flags, setting the one of each directly
    referenced function and of each implementation that the index has, at
    that moment, for the slot of a referenced method; a property without a
    component changes nothing. *)
Theorem X19_preserveKeyPathFunctions
    (idx : ModuleSummaryIndex) (P : SIL.SILProperty) :
  ((∃ idx', preserveKeyPathFunctions idx P = inr idx')
   ↔ propertyDefined idx (λ g, is_Some (functions idx !! g)) P)
  ∧ ∀ idx', preserveKeyPathFunctions idx P = inr idx' →
      implementations idx' = implementations idx
      ∧ preservedGrown idx idx'
      ∧ ∀ fact, holds idx' fact ↔ holds idx fact ∨ propertyAdds idx P fact.
Proof.
  destruct (Pass_preserveKeyPathFunctions
              (λ g, is_Some (functions idx !! g)) idx) as [Heffect Hsucc].
  split.
  - by apply Hsucc.
  - intros idx' H. by apply (Heffect idx P idx').
Qed.

Lemma X17_indexWitnessTable_witness :
  ∃ idx', indexWitnessTable IndexerExample.M2 TableExample.functionsOnly
            TableExample.witnessTable = inr idx'.
Proof.
  apply (proj1 (X17_indexWitnessTable IndexerExample.M2
                  TableExample.functionsOnly TableExample.witnessTable)).
  unfold witnessTableDefined. simpl.
  repeat constructor. intros _. vm_compute. eexists. reflexivity.
Defined.

Lemma X18_indexVTable_witness :
  ∃ idx', indexVTable IndexerExample.M2 TableExample.functionsOnly
            IndexerExample.vtable = inr idx'.
Proof.
  apply (proj1 (X18_indexVTable IndexerExample.M2
                  TableExample.functionsOnly IndexerExample.vtable)).
  unfold vtableDefined. simpl.
  repeat constructor; intros _; vm_compute; eexists; reflexivity.
Defined.

Lemma X19_preserveKeyPathFunctions_witness :
  ∃ idx', preserveKeyPathFunctions TableExample.functionsOnly
            TableExample.property = inr idx'.
Proof.
  apply (proj1 (X19_preserveKeyPathFunctions TableExample.functionsOnly
                  TableExample.property)).
  intros component [= <-]. simpl.
  constructor; [vm_compute; eexists; reflexivity|].
  constructor; [|constructor]. vm_compute. constructor.
Defined.

(** * GUIDs and the root set *)

Lemma add32_bound x y : MD5.add32 x y < 2 ^ 32.
Proof.
  unfold MD5.add32. change MD5.mask32 with (N.ones 32).
  rewrite N.land_ones. by apply N.mod_lt.
Qed.

Lemma block_bound st bs :
  MD5.dA (MD5.block st bs) < 2 ^ 32 ∧ MD5.dB (MD5.block st bs) < 2 ^ 32.
Proof.
  unfold MD5.block. destruct (fold_left _ _ _) as [A B C D]. simpl.
  split; apply add32_bound.
Qed.

Lemma blocks_bound n st bs :
  MD5.dA st < 2 ^ 32 ∧ MD5.dB st < 2 ^ 32 →
  MD5.dA (MD5.blocks n st bs) < 2 ^ 32 ∧ MD5.dB (MD5.blocks n st bs) < 2 ^ 32.
Proof.
  revert st bs. induction n as [|n IH]; intros st bs Hst; [done|].
  simpl. apply IH, block_bound.
Qed.

(** X20: a GUID is a 64-bit value: [getGUIDFromUniqueName] is below 2^64 for
    every name, so it fits the [uint64_t] it is returned in and the GUID
    field of a summary record. *)
Theorem X20_guid_fits_64_bits (Name : string) :
  getGUIDFromUniqueName Name < 2 ^ 64.
Proof.
  unfold getGUIDFromUniqueName, MD5.MD5Hash, MD5.md5, MD5.low.
  match goal with |- context [MD5.blocks ?n ?st ?bs] =>
    destruct (blocks_bound n st bs) as [HA HB]; [by split|];
    revert HA HB; generalize (MD5.blocks n st bs) end.
  intros d HA HB.
  change (2 ^ 64) with (0x100000000 * 2 ^ 32).
  change (2 ^ 32) with 0x100000000 in *. nia.
Qed.

(** X21: the root set holds the GUID of "main" and the keys of the preserved
    summaries, and nothing else: a function that is neither is a root only if
    its GUID collides with one of those. *)
Theorem X21_root_set_is_main_and_preserved
    (idx : ModuleSummaryIndex) (g : GUID) :
  g ∈ computePreservedGUIDs idx
  ↔ g = getGUIDFromUniqueName "main"
    ∨ ∃ fs, functions idx !! g = Some fs ∧ isPreserved fs = true.
Proof. apply computePreservedGUIDs_spec. Qed.

(** * More roots, more live functions *)

Lemma pushed_mono idx roots roots' g :
  (∀ r, r ∈ roots → r ∈ roots') →
  pushed idx roots g → pushed idx roots' g.
Proof.
  intros Hsub. induction 1 as [g Hg|g fs g' _ IH Hfs Hdead Hg'].
  - by apply pushed_root, Hsub.
  - by apply (pushed_call _ _ g fs).
Qed.

(** X22: liveness grows with the root set: if two runs on the same index
    complete and the roots of the first are among the roots of the second,
    every function live after the first is live after the second.
    Preserving more functions never makes a function dead. *)
Theorem X22_more_roots_more_live
    (tr tr' : string) (idx : ModuleSummaryIndex) (roots roots' : list GUID)
    (st st' : LoopState) (g : GUID) :
  (∀ r, r ∈ roots → r ∈ roots') →
  markDeadSymbols tr idx roots = Completed st →
  markDeadSymbols tr' idx roots' = Completed st' →
  liveIn (summary st) g → liveIn (summary st') g.
Proof.
  intros Hsub Hrun Hrun' Hlive.
  apply (Completed_liveIn _ _ _ _ Hrun) in Hlive as (fs & Hfs & Hor).
  apply (Completed_liveIn _ _ _ _ Hrun'). exists fs. split; [done|].
  destruct Hor as [?|Hg]; [by left|right]. by eapply pushed_mono.
Qed.

Lemma X22_more_roots_more_live_witness :
  liveIn (summary (Examples.final
                     (markDeadSymbols "" Examples.chain
                        [Examples.G "main"; Examples.G "f2"])))
         (Examples.G "f3").
Proof.
  apply (X22_more_roots_more_live "" "" Examples.chain
           [Examples.G "f2"] [Examples.G "main"; Examples.G "f2"]
           (Examples.final
              (markDeadSymbols "" Examples.chain [Examples.G "f2"]))).
  - intros r Hr. by right.
  - vm_compute. reflexivity.
  - vm_compute. reflexivity.
  - exists (Examples.fn "f3" [] true false).
    split; [vm_compute; reflexivity|done].
Defined.
